(** * Collaborative drawing canvas: operation log, rooms and message dispatch

    A shallow embedding of [DrawingState] (the per-room operation log with
    per-user undo/redo), of [Room]/[Rooms] (rooms.js) and of [handleMessage]
    (server.js), followed by the properties of the specification that can be
    settled on them.

    Conventions of the embedding.
    - JS numbers that carry coordinates and stroke widths are modelled by
      [num]: an integer-valued double [Fin z], the two infinities that
      [getPathBoundingBox] starts from, and [NaN]. [Math.min], [Math.max]
      and [<] are exact on doubles; [+] rounds the exact sum to the nearest
      double, which changes an integer sum only beyond 2^53 ([roundZ]).
      Doubles with a fractional part are outside the model.
    - The coordinates of a point of a logged path are read by [Math.min]
      and [Math.max] alone, which convert their arguments with ToNumber:
      [x] and [y] of a [Point] hold the converted values. There [NaN] is a
      coordinate that is missing, a plain object or a string that is no
      numeric literal, whereas [null], [false], the empty string and the
      empty array are [Fin 0], [true] is [Fin 1] and a numeric string is
      its number. An entry of a path that is [null] has no [Point]:
      reading its [x] throws. On the client the points of a path are made
      from numbers, and [x] and [y] are those numbers.
    - A stroke width is a JSON number or is missing ([NaN]). [width || 4]
      tests the value before any conversion, so a width of another JSON
      type (a string, a boolean, an object) is outside the model.
    - The coordinates of a cursor message are relayed unread.
    - [Date.now()] is an input: every function that reads the clock takes
      the reading as [now : Z] (milliseconds).
    - [opId]s and timestamps are [Z] (the counter stays far below 2^53).
    - User ids (uuids) and room ids are strings. A JS [Map] keyed by them
      is a [gmap string _]; arrays are lists.
    - A message arrives parsed: [Msg] is the JSON object after
      [JSON.parse], [Out] the object handed to [JSON.stringify]. *)

From stdpp Require Import gmap strings list fin_maps sorting.
From Stdlib Require Import ZArith Lia.

Local Open Scope string_scope.
Local Open Scope list_scope.
Local Open Scope Z_scope.

(** ** JS numbers *)

Inductive num : Type :=
| Fin (z : Z)
| PInf
| NInf
| NaN.

#[global] Instance num_eq_dec : EqDecision num.
Proof. solve_decision. Defined.

(** [Math.min(a, b)], on the arguments converted with ToNumber *)
Definition num_min (a b : num) : num :=
  match a, b with
  | NaN, _ | _, NaN => NaN
  | NInf, _ | _, NInf => NInf
  | PInf, c | c, PInf => c
  | Fin x, Fin y => Fin (Z.min x y)
  end.

(** [Math.max(a, b)], on the arguments converted with ToNumber *)
Definition num_max (a b : num) : num :=
  match a, b with
  | NaN, _ | _, NaN => NaN
  | PInf, _ | _, PInf => PInf
  | NInf, c | c, NInf => c
  | Fin x, Fin y => Fin (Z.max x y)
  end.

(** The double nearest to the integer [z], ties to the even significand.
    Every integer up to 2^53 in magnitude is a double. Beyond, with
    [2^k ≤ |z| < 2^(k+1)], the doubles are the multiples of [2^(k-52)];
    what rounds to 2^1024 or more is an infinity. *)
Definition roundZ (z : Z) : num :=
  let a := Z.abs z in
  if bool_decide (a ≤ 2 ^ 53) then Fin z
  else
    let q := 2 ^ (Z.log2 a - 52) in
    let m := a / q in
    let r := a mod q in
    let m' := if bool_decide (2 * r < q) then m
              else if bool_decide (q < 2 * r) then m + 1
              else if Z.even m then m else m + 1 in
    if bool_decide (2 ^ 1024 ≤ m' * q)
    then (if bool_decide (z < 0) then NInf else PInf)
    else Fin (Z.sgn z * (m' * q)).

(** [a + b]: the exact sum, rounded *)
Definition num_add (a b : num) : num :=
  match a, b with
  | NaN, _ | _, NaN => NaN
  | PInf, NInf | NInf, PInf => NaN
  | PInf, _ | _, PInf => PInf
  | NInf, _ | _, NInf => NInf
  | Fin x, Fin y => roundZ (x + y)
  end.

(** [a < b]: false as soon as one side is NaN *)
Definition num_lt (a b : num) : bool :=
  match a, b with
  | NaN, _ | _, NaN => false
  | _, NInf => false
  | NInf, _ => true
  | PInf, _ => false
  | Fin _, PInf => true
  | Fin x, Fin y => bool_decide (x < y)
  end.

(** Truthiness of a number or of a missing value: [0], [NaN] and
    [undefined] are falsy. *)
Definition truthy (a : num) : bool :=
  match a with
  | Fin z => negb (bool_decide (z = 0))
  | PInf | NInf => true
  | NaN => false
  end.

(** [a || d] where [a] is a number or is missing *)
Definition num_or (a d : num) : num := if truthy a then a else d.

(** ** Operations *)

Record Point : Type := { x : num; y : num }.

#[global] Instance Point_eq_dec : EqDecision Point.
Proof. solve_decision. Defined.

(** The [op] payload of a [draw] message, as it comes off the wire: any of
    its properties may be missing. *)
Record RawOp : Type := {
  raw_path : option (list Point);
  raw_color : option string;
  raw_width : num;
  raw_mode : option string
}.

(** An entry of the log: [{...input.op, userId, opId, timestamp, type}]. *)
Record Op : Type := {
  path : option (list Point);
  color : option string;
  width : num;
  mode : option string;
  userId : string;
  opId : Z;
  timestamp : Z;
  type : string
}.

#[global] Instance Op_eq_dec : EqDecision Op.
Proof. solve_decision. Defined.

Record AddInput : Type := { in_userId : string; in_op : RawOp }.

(** ** The operation log: class [DrawingState] *)

Record DrawingState : Type := {
  ops : list Op;
  undoStack : list Op;
  nextOpId : Z;
  userOperations : gmap string (list Z)
}.

(** [constructor()] *)
Definition newDrawingState : DrawingState :=
  {| ops := []; undoStack := []; nextOpId := 1; userOperations := ∅ |}.

(** What [undo] and [redo] return. [canUndo]/[canRedo] are absent from one
    of the returned objects, hence the options. *)
Record Result : Type := {
  success : bool;
  message : string;
  res_op : option Op;
  canUndo : option bool;
  canRedo : option bool
}.

Record Snapshot : Type := {
  snap_ops : list Op;
  snap_canUndo : bool;
  snap_canRedo : bool
}.

(** [arr.pop()], as far as the array is concerned *)
Definition pop {A} (l : list A) : list A := take (length l - 1)%nat l.

(** [arr.splice(i, 0, a)] *)
Definition splice_in {A} (i : nat) (a : A) (l : list A) : list A :=
  take i l ++ a :: drop i l.

(** [this.userOperations.get(u) || []] *)
Definition userOpsOf (s : DrawingState) (u : string) : list Z :=
  default [] (userOperations s !! u).

(** [if (!map.has(u)) map.set(u, []); map.get(u).push(id)] *)
Definition pushUserOp (u : string) (i : Z) (m : gmap string (list Z))
  : gmap string (list Z) :=
  <[u := default [] (m !! u) ++ [i]]> m.

(** [this.userOperations.get(u)?.length > 0] *)
Definition hasUserOps (m : gmap string (list Z)) (u : string) : bool :=
  match m !! u with
  | Some (_ :: _) => true
  | _ => false
  end.

Definition addOperation (s : DrawingState) (input : AddInput) (now : Z)
  : DrawingState * Op :=
  let op := {| path := raw_path (in_op input);
               color := raw_color (in_op input);
               width := raw_width (in_op input);
               mode := raw_mode (in_op input);
               userId := in_userId input;
               opId := nextOpId s;
               timestamp := now;
               type := "draw" |} in
  ({| ops := ops s ++ [op];
      undoStack := undoStack s;
      nextOpId := nextOpId s + 1;
      userOperations := pushUserOp (in_userId input) (opId op) (userOperations s) |},
   op).

(** [getSnapshot(userId)]; [None] is the call without argument, where
    [userId] is [undefined] and equals no operation's author. *)
Definition getSnapshot (s : DrawingState) (u : option string) : Snapshot :=
  let userOps := match u with Some v => userOpsOf s v | None => [] end in
  let userUndoOps :=
    match u with
    | Some v => filter (λ o, userId o = v) (undoStack s)
    | None => []
    end in
  {| snap_ops := ops s;
     snap_canUndo := bool_decide (0 < length userOps)%nat;
     snap_canRedo := bool_decide (0 < length userUndoOps)%nat |}.

Definition getUserLastOp (s : DrawingState) (u : string) : option Op :=
  match last (userOpsOf s u) with
  | None => None
  | Some lastOpId => snd <$> list_find (λ o, opId o = lastOpId) (ops s)
  end.

Definition undo (s : DrawingState) (requestingUserId : string)
  : DrawingState * Result :=
  match getUserLastOp s requestingUserId with
  | None =>
      (s, {| success := false; message := "Nothing to undo"; res_op := None;
             canUndo := Some false;
             canRedo := Some (bool_decide (0 < length (undoStack s))%nat) |})
  | Some lastOp =>
      match list_find (λ o, opId o = opId lastOp) (ops s) with
      | None =>
          (s, {| success := false; message := "Operation not found";
                 res_op := None; canUndo := None; canRedo := None |})
      | Some (opIndex, op) =>
          let m := alter pop requestingUserId (userOperations s) in
          ({| ops := delete opIndex (ops s);
              undoStack := undoStack s ++ [op];
              nextOpId := nextOpId s;
              userOperations := m |},
           {| success := true; message := "Operation undone"; res_op := Some op;
              canUndo := Some (hasUserOps m requestingUserId);
              canRedo := Some true |})
      end
  end.

Record Box : Type := { minX : num; maxX : num; minY : num; maxY : num }.

Definition getPathBoundingBox (p : list Point) : Box :=
  foldl (λ b point, {| minX := num_min (minX b) (x point);
                       maxX := num_max (maxX b) (x point);
                       minY := num_min (minY b) (y point);
                       maxY := num_max (maxY b) (y point) |})
        {| minX := PInf; maxX := NInf; minY := PInf; maxY := NInf |} p.

Definition operationsOverlap (op1 op2 : Op) : bool :=
  match path op1, path op2 with
  | Some p1, Some p2 =>
      if bool_decide (length p1 < 2)%nat || bool_decide (length p2 < 2)%nat
      then false
      else
        let box1 := getPathBoundingBox p1 in
        let box2 := getPathBoundingBox p2 in
        let padding := num_max (num_or (width op1) (Fin 4))
                               (num_or (width op2) (Fin 4)) in
        negb (num_lt (num_add (maxX box1) padding) (minX box2)
              || num_lt (num_add (maxX box2) padding) (minX box1)
              || num_lt (num_add (maxY box1) padding) (minY box2)
              || num_lt (num_add (maxY box2) padding) (minY box1))
  | _, _ => false
  end.

(** The [while] loop of [redo]: the undo stack is walked from its top
    towards its bottom, down to the first entry of the requesting user. *)
Definition findUndone (stack : list Op) (u : string) : option Op :=
  snd <$> list_find (λ o, userId o = u) (reverse stack).

(** The [for] loop of [redo], entered with [n = i + 1]: [dflt] is the value
    [insertIndex] was initialised with. *)
Fixpoint scanInsert (l : list Op) (t : Z) (n dflt : nat) : nat :=
  match n with
  | O => dflt
  | S i =>
      match l !! i with
      | Some o => if bool_decide (timestamp o ≤ t) then S i
                  else scanInsert l t i dflt
      | None => scanInsert l t i dflt
      end
  end.

Definition insertIndex (l : list Op) (t : Z) : nat :=
  scanInsert l t (length l) (length l).

Definition hasNewerOps (l : list Op) (op : Op) : bool :=
  existsb (λ existingOp,
             bool_decide (timestamp op < timestamp existingOp)
             && operationsOverlap existingOp op) l.

(** [this.ops.length > 0 ? this.ops[this.ops.length - 1].timestamp : 0] *)
Definition latestOpTimestamp (l : list Op) : Z :=
  match last l with
  | Some o => timestamp o
  | None => 0
  end.

(** The two nested [if]s that make [redo] give up on [op]. *)
Definition redoBlocked (l : list Op) (op : Op) : bool :=
  bool_decide (timestamp op < latestOpTimestamp l) && hasNewerOps l op.

Definition redo (s : DrawingState) (requestingUserId : string)
  : DrawingState * Result :=
  let cu := hasUserOps (userOperations s) requestingUserId in
  match undoStack s with
  | [] =>
      (s, {| success := false; message := "Nothing to redo"; res_op := None;
             canUndo := Some cu; canRedo := Some false |})
  | _ :: _ =>
      match findUndone (undoStack s) requestingUserId with
      | None =>
          (s, {| success := false; message := "No operations to redo";
                 res_op := None; canUndo := Some cu; canRedo := Some false |})
      | Some op =>
          if redoBlocked (ops s) op
          then
            (s, {| success := false;
                   message := "Cannot redo due to newer overlapping operations";
                   res_op := None; canUndo := Some cu; canRedo := Some false |})
          else
            let stack' := pop (undoStack s) in
            ({| ops := splice_in (insertIndex (ops s) (timestamp op)) op (ops s);
                undoStack := stack';
                nextOpId := nextOpId s;
                userOperations :=
                  pushUserOp requestingUserId (opId op) (userOperations s) |},
             {| success := true; message := "Operation redone";
                res_op := Some op; canUndo := Some true;
                canRedo := Some (bool_decide (0 < length stack')%nat) |})
      end
  end.

(** ** Sockets and rooms (rooms.js)

    A socket is a mutable object shared between the server's handlers and
    the [clients] set of its room, so sockets live in a store indexed by a
    handle and rooms hold handles. *)

Inductive ReadyState : Type := CONNECTING | OPEN | CLOSING | CLOSED.

#[global] Instance ReadyState_eq_dec : EqDecision ReadyState.
Proof. solve_decision. Defined.

Record Socket : Type := {
  ws_userId : string;
  ws_color : string;
  ws_roomId : option string;       (* [None]: undefined or null *)
  ws_readyState : ReadyState;
  ws_isAlive : bool
}.

Record Room : Type := {
  room_id : string;
  clients : list nat;              (* a [Set], in insertion order *)
  drawingState : DrawingState;
  lastActivity : Z;
  userColors : gmap string string
}.

Record Server : Type := {
  rooms : gmap string Room;        (* [rooms.map] *)
  sockets : gmap nat Socket
}.

(** [new Room(id)] *)
Definition newRoom (i : string) (now : Z) : Room :=
  {| room_id := i; clients := []; drawingState := newDrawingState;
     lastActivity := now; userColors := ∅ |}.

(** [set.add(h)] *)
Definition set_add (h : nat) (l : list nat) : list nat :=
  if bool_decide (h ∈ l) then l else l ++ [h].

(** [set.delete(h)] *)
Definition set_delete (h : nat) (l : list nat) : list nat :=
  filter (λ c, c ≠ h) l.

Definition setRoomId (r : option string) (ws : Socket) : Socket :=
  {| ws_userId := ws_userId ws; ws_color := ws_color ws; ws_roomId := r;
     ws_readyState := ws_readyState ws; ws_isAlive := ws_isAlive ws |}.

Definition setColor (c : string) (ws : Socket) : Socket :=
  {| ws_userId := ws_userId ws; ws_color := c; ws_roomId := ws_roomId ws;
     ws_readyState := ws_readyState ws; ws_isAlive := ws_isAlive ws |}.

(** [Room.addClient(ws)]: returns the room and the socket as mutated. *)
Definition addClient (r : Room) (h : nat) (ws : Socket) (now : Z)
  : Room * Socket :=
  let ws1 := setRoomId (Some (room_id r)) ws in
  match userColors r !! ws_userId ws with
  | None =>
      ({| room_id := room_id r; clients := set_add h (clients r);
          drawingState := drawingState r; lastActivity := now;
          userColors := <[ws_userId ws := ws_color ws]> (userColors r) |},
       ws1)
  | Some c =>
      ({| room_id := room_id r; clients := set_add h (clients r);
          drawingState := drawingState r; lastActivity := now;
          userColors := userColors r |},
       setColor c ws1)
  end.

(** [Room.removeClient(ws)]; [socks] is read for the user ids of the
    clients that stay. *)
Definition removeClient (socks : gmap nat Socket) (r : Room) (h : nat)
    (ws : Socket) (now : Z) : Room * Socket :=
  let cs := set_delete h (clients r) in
  let hasOtherConnections :=
    existsb (λ c, match socks !! c with
                  | Some client => bool_decide (ws_userId client = ws_userId ws)
                  | None => false
                  end) cs in
  ({| room_id := room_id r; clients := cs; drawingState := drawingState r;
      lastActivity := now;
      userColors := if hasOtherConnections then userColors r
                    else delete (ws_userId ws) (userColors r) |},
   setRoomId None ws).

(** Keeps the first entry of every key: the order of [Map.values()] when
    later [set]s of a key store the value it already has. *)
Fixpoint dedupKeys {V} (seen : list string) (l : list (string * V))
  : list (string * V) :=
  match l with
  | [] => []
  | (k, v) :: l' =>
      if bool_decide (k ∈ seen) then dedupKeys seen l'
      else (k, v) :: dedupKeys (k :: seen) l'
  end.

(** [Room.getActiveUsers()] *)
Definition getActiveUsers (socks : gmap nat Socket) (r : Room)
  : list (string * option string) :=
  dedupKeys []
    (omap (λ c, (λ client, (ws_userId client,
                              userColors r !! ws_userId client))
                  <$> socks !! c) (clients r)).

(** [Rooms.findBySocket(ws)]: a missing or empty [roomId] is falsy. *)
Definition findBySocket (m : gmap string Room) (ws : Socket) : option Room :=
  match ws_roomId ws with
  | None => None
  | Some i => if bool_decide (i = "") then None else m !! i
  end.

(** [Rooms.cleanupEmptyRooms()] *)
Definition cleanupEmptyRooms (m : gmap string Room) : gmap string Room :=
  filter (λ kv, kv.1 = "default" ∨ clients kv.2 ≠ []) m.

(** ** The message dispatcher (server.js) *)

Inductive Msg : Type :=
| MPing
| MJoinRoom (roomId : option string)
| MDraw (op : RawOp)
| MCursor (cx cy : num)
| MUndo
| MClear
| MRedo
| MUnknown (t : string).

Inductive Out : Type :=
| OConnected (u c : string)
| OPong
| ORoomJoined (roomId : string) (state : Snapshot)
| OUsersUpdated (users : list (string * string))
| OOp (op : Op)
| OCursor (u : string) (cx cy : num)
| OUndo (ok : bool) (op : option Op) (cu cr : option bool) (msg : string)
        (u : option string)
| ORedo (ok : bool) (op : option Op) (cu cr : option bool) (msg : string)
        (u : option string)
| OClear (ok : bool) (msg : string) (u : option string)
| OStateUpdate (l : list Op) (cu cr : bool)
               (users : list (string * option string)).

(** The clients of a room whose socket is open. *)
Definition openClients (socks : gmap nat Socket) (r : Room) : list nat :=
  filter (λ c, ws_readyState <$> socks !! c = Some OPEN) (clients r).

(** [broadcastRoom(room, data)]: the sends it performs, in order. *)
Definition broadcastRoom (socks : gmap nat Socket) (r : Room) (data : Out)
  : list (nat * Out) :=
  (λ c, (c, data)) <$> openClients socks r.

(** [Array.from(room.clients).map(c => ({ id: c.userId, color: c.color }))] *)
Definition userList (socks : gmap nat Socket) (r : Room)
  : list (string * string) :=
  omap (λ c, (λ client, (ws_userId client, ws_color client)) <$> socks !! c)
       (clients r).

(** The per-client [state-update] sent after a successful undo or redo. *)
Definition stateUpdates (socks : gmap nat Socket) (r : Room)
  : list (nat * Out) :=
  omap (λ c, match socks !! c with
             | Some client =>
                 if bool_decide (ws_readyState client = OPEN) then
                   let snap := getSnapshot (drawingState r)
                                           (Some (ws_userId client)) in
                   Some (c, OStateUpdate (snap_ops snap) (snap_canUndo snap)
                                         (snap_canRedo snap)
                                         (getActiveUsers socks r))
                 else None
             | None => None
             end) (clients r).

Definition setDrawingState (d : DrawingState) (r : Room) : Room :=
  {| room_id := room_id r; clients := clients r; drawingState := d;
     lastActivity := lastActivity r; userColors := userColors r |}.

Definition putRoom (r : Room) (srv : Server) : Server :=
  {| rooms := <[room_id r := r]> (rooms srv); sockets := sockets srv |}.

Definition putSocket (h : nat) (ws : Socket) (srv : Server) : Server :=
  {| rooms := rooms srv; sockets := <[h := ws]> (sockets srv) |}.

(** The [connection] handler: [uid] is the fresh uuid and [c] the colour
    drawn from the palette. *)
Definition connect (srv : Server) (h : nat) (uid c : string)
  : Server * list (nat * Out) :=
  (putSocket h {| ws_userId := uid; ws_color := c; ws_roomId := None;
                  ws_readyState := OPEN; ws_isAlive := true |} srv,
   [(h, OConnected uid c)]).

Definition handleJoinRoom (srv : Server) (h : nat) (ws : Socket)
    (roomId : option string) (now : Z) : Server * list (nat * Out) :=
  (* Remove from current room if any *)
  let '(srv1, ws1, out1) :=
    match findBySocket (rooms srv) ws with
    | Some oldRoom =>
        let '(r', ws') := removeClient (sockets srv) oldRoom h ws now in
        let srv' := putSocket h ws' (putRoom r' srv) in
        (srv', ws',
         broadcastRoom (sockets srv') r'
                       (OUsersUpdated (userList (sockets srv') r')))
    | None => (srv, ws, [])
    end in
  let roomId :=
    match roomId with
    | Some i => if bool_decide (i = "") then "default" else i
    | None => "default"
    end in
  let room :=
    match rooms srv1 !! roomId with
    | Some r => r
    | None => newRoom roomId now
    end in
  let '(room2, ws2) := addClient room h ws1 now in
  let srv2 := putSocket h ws2 (putRoom room2 srv1) in
  (srv2,
   out1
   ++ [(h, ORoomJoined roomId (getSnapshot (drawingState room2) None))]
   ++ broadcastRoom (sockets srv2) room2
                    (OUsersUpdated (userList (sockets srv2) room2))).

(** [handleMessage(ws, msg)]: the server afterwards and the messages sent,
    each with the handle of the socket it is sent on. *)
Definition handleMessage (srv : Server) (h : nat) (msg : Msg) (now : Z)
  : Server * list (nat * Out) :=
  match sockets srv !! h with
  | None => (srv, [])
  | Some ws =>
      match msg with
      | MPing => (srv, [(h, OPong)])
      | MJoinRoom roomId => handleJoinRoom srv h ws roomId now
      | MDraw rawOp =>
          match findBySocket (rooms srv) ws with
          | None => (srv, [])
          | Some room =>
              let '(d, op) :=
                addOperation (drawingState room)
                  {| in_userId := ws_userId ws; in_op := rawOp |} now in
              let room' := setDrawingState d room in
              (putRoom room' srv, broadcastRoom (sockets srv) room' (OOp op))
          end
      | MCursor cx cy =>
          match findBySocket (rooms srv) ws with
          | None => (srv, [])
          | Some room =>
              (srv, broadcastRoom (sockets srv) room
                                  (OCursor (ws_userId ws) cx cy))
          end
      | MUndo =>
          match findBySocket (rooms srv) ws with
          | None =>
              (srv, [(h, OUndo false None None None "Not in a room" None)])
          | Some room =>
              let '(d, res) := undo (drawingState room) (ws_userId ws) in
              let room' := setDrawingState d room in
              let srv' := putRoom room' srv in
              if success res then
                (srv',
                 broadcastRoom (sockets srv) room'
                   (OUndo true (res_op res) (canUndo res) (canRedo res)
                          "Operation undone" (Some (ws_userId ws)))
                 ++ stateUpdates (sockets srv) room')
              else
                (srv', [(h, OUndo false None (canUndo res) (canRedo res)
                                  (message res) None)])
          end
      | MClear =>
          match findBySocket (rooms srv) ws with
          | None => (srv, [(h, OClear false "Not in a room" None)])
          | Some room =>
              let room' := setDrawingState newDrawingState room in
              let snapshot := getSnapshot (drawingState room') None in
              (putRoom room' srv,
               broadcastRoom (sockets srv) room'
                 (OClear true "Canvas cleared" (Some (ws_userId ws)))
               ++ broadcastRoom (sockets srv) room'
                    (OStateUpdate (snap_ops snapshot) (snap_canUndo snapshot)
                                  (snap_canRedo snapshot)
                                  (getActiveUsers (sockets srv) room')))
          end
      | MRedo =>
          match findBySocket (rooms srv) ws with
          | None =>
              (srv, [(h, ORedo false None None None "Not in a room" None)])
          | Some room =>
              let '(d, res) := redo (drawingState room) (ws_userId ws) in
              let room' := setDrawingState d room in
              let srv' := putRoom room' srv in
              if success res then
                (srv',
                 broadcastRoom (sockets srv) room'
                   (ORedo true (res_op res) (canUndo res) (canRedo res)
                          "Operation redone" (Some (ws_userId ws)))
                 ++ stateUpdates (sockets srv) room')
              else
                (srv', [(h, ORedo false None (canUndo res) (canRedo res)
                                  (message res) None)])
          end
      | MUnknown _ => (srv, [])
      end
  end.

(** The server right after start-up: no room, no connection. *)
Definition newServer : Server := {| rooms := ∅; sockets := ∅ |}.

(** ** Histories of a log

    The calls a room's log receives, in order. [CAdd] carries the clock
    reading of its [Date.now()]. *)

Inductive Cmd : Type :=
| CAdd (input : AddInput) (now : Z)
| CUndo (u : string)
| CRedo (u : string).

Definition step (s : DrawingState) (c : Cmd) : DrawingState :=
  match c with
  | CAdd input now => (addOperation s input now).1
  | CUndo u => (undo s u).1
  | CRedo u => (redo s u).1
  end.

Definition run (cs : list Cmd) : DrawingState := foldl step newDrawingState cs.

Definition reachable (s : DrawingState) : Prop := ∃ cs, s = run cs.

(** The operations [addOperation] returned along a history from [s], oldest
    first. *)
Fixpoint assigned (s : DrawingState) (cs : list Cmd) : list Op :=
  match cs with
  | [] => []
  | CAdd input now :: cs' =>
      let '(s', op) := addOperation s input now in op :: assigned s' cs'
  | c :: cs' => assigned (step s c) cs'
  end.

(** The clock readings of a history, oldest first. *)
Definition clockReadings (cs : list Cmd) : list Z :=
  omap (λ c, match c with CAdd _ now => Some now | _ => None end) cs.

(** The error kinds of the specification, recognised by the message of the
    returned object. *)
Definition isNothingToUndo (r : Result) : Prop :=
  success r = false ∧ message r = "Nothing to undo".

Definition isNothingToRedo (r : Result) : Prop :=
  success r = false ∧
  (message r = "Nothing to redo" ∨ message r = "No operations to redo").

Definition isRedoConflict (r : Result) : Prop :=
  success r = false ∧
  message r = "Cannot redo due to newer overlapping operations".

(** The operations of [u] in a list. *)
Definition opsOf (u : string) (l : list Op) : list Op :=
  filter (λ o, userId o = u) l.

(** ** The invariant of reachable logs *)

Record wf (s : DrawingState) : Prop := {
  wf_fresh : ∀ o, o ∈ ops s ++ undoStack s → opId o < nextOpId s;
  wf_ids : ∀ o o', o ∈ ops s ++ undoStack s → o' ∈ ops s ++ undoStack s →
                   opId o = opId o' → o = o';
  wf_index : ∀ u, userOpsOf s u ≡ₚ opId <$> opsOf u (ops s)
}.

(** An operation with no path at all, or with a path of fewer than two
    points. *)
Definition degenerate (o : Op) : Prop :=
  match path o with
  | None => True
  | Some p => (length p < 2)%nat
  end.

#[global] Instance degenerate_dec o : Decision (degenerate o).
Proof. unfold degenerate. destruct (path o); apply _. Defined.

(** ** Bounding boxes, as the specification words them

    Over integer coordinates: the box of a path, its expansion by a padding
    on every side, and intersection as sharing a point. *)

Record ZBox : Type := { x0 : Z; x1 : Z; y0 : Z; y1 : Z }.

Definition inBox (b : ZBox) (q : Z * Z) : Prop :=
  x0 b ≤ q.1 ≤ x1 b ∧ y0 b ≤ q.2 ≤ y1 b.

Definition expand (p : Z) (b : ZBox) : ZBox :=
  {| x0 := x0 b - p; x1 := x1 b + p; y0 := y0 b - p; y1 := y1 b + p |}.

Definition boxes_intersect (b1 b2 : ZBox) : Prop :=
  ∃ q, inBox b1 q ∧ inBox b2 q.

(** The bounding box of a path that starts with [q]. *)
Definition bboxFrom (q : Z * Z) (pts : list (Z * Z)) : ZBox :=
  {| x0 := foldr Z.min q.1 (fst <$> pts); x1 := foldr Z.max q.1 (fst <$> pts);
     y0 := foldr Z.min q.2 (snd <$> pts); y1 := foldr Z.max q.2 (snd <$> pts) |}.

Definition bbox (pts : list (Z * Z)) : ZBox :=
  match pts with
  | [] => {| x0 := 0; x1 := 0; y0 := 0; y1 := 0 |}
  | q :: pts' => bboxFrom q pts'
  end.

Definition toPoint (q : Z * Z) : Point := {| x := Fin q.1; y := Fin q.2 |}.

(** A point with finite numeric [x] and [y]. *)
Definition validPoint (p : Point) : bool :=
  match x p, y p with
  | Fin _, Fin _ => true
  | _, _ => false
  end.

Definition validPoints (o : RawOp) : list Point :=
  match raw_path o with
  | Some p => filter (λ q, validPoint q = true) p
  | None => []
  end.

(** The stroke width that [operationsOverlap] works with: [width || 4]. *)
Definition strokeWidth (w : Z) : Z := if bool_decide (w = 0) then 4 else w.

(** Coordinates and widths with which [max + padding] of
    [operationsOverlap] is computed exactly: two numbers of magnitude at
    most 2^52 sum to at most 2^53. *)
Definition safeCoord (z : Z) : Prop := - 2 ^ 52 ≤ z ≤ 2 ^ 52.

Definition safePoint (q : Z * Z) : Prop := safeCoord q.1 ∧ safeCoord q.2.

(** The redo conflict predicate as the specification words it: both boxes
    expanded by the greater stroke width. *)
Definition overlap_both_expanded (pts1 pts2 : list (Z * Z)) (w1 w2 : Z) : Prop :=
  let p := Z.max w1 w2 in
  boxes_intersect (expand p (bbox pts1)) (expand p (bbox pts2)).

(** The predicate with the first box alone expanded. *)
Definition overlap_one_expanded (pts1 pts2 : list (Z * Z)) (w1 w2 : Z) : Prop :=
  let p := Z.max (strokeWidth w1) (strokeWidth w2) in
  boxes_intersect (expand p (bbox pts1)) (bbox pts2).

(** ** Sample data *)

Definition stroke (pts : list (Z * Z)) (w : Z) : RawOp :=
  {| raw_path := Some (toPoint <$> pts); raw_color := Some "#000";
     raw_width := Fin w; raw_mode := Some "brush" |}.

(** The log entry [addOperation] makes of [raw] for author [u], with
    identity [i] and timestamp [t]. *)
Definition entry (u : string) (raw : RawOp) (i t : Z) : Op :=
  {| path := raw_path raw; color := raw_color raw; width := raw_width raw;
     mode := raw_mode raw; userId := u; opId := i; timestamp := t;
     type := "draw" |}.

(** A [draw] payload without any property. *)
Definition emptyRaw : RawOp :=
  {| raw_path := None; raw_color := None; raw_width := NaN; raw_mode := None |}.

Definition draws (u : string) (pts : list (Z * Z)) (now : Z) : Cmd :=
  CAdd {| in_userId := u; in_op := stroke pts 4 |} now.

(** ** Leaving a room: the [close] handler, and the two halves of
    [join-room] *)

(** What the [close] handler sends. *)
Inductive CloseOut : Type := OUserLeft (u : string).

(** [ws.on('close', ...)]: the socket is taken out of its room, if it has
    one, and the clients that stay are told. *)
Definition onClose (srv : Server) (h : nat) (now : Z)
  : Server * list (nat * CloseOut) :=
  match sockets srv !! h with
  | None => (srv, [])
  | Some ws =>
      match findBySocket (rooms srv) ws with
      | Some room =>
          let '(r', ws') := removeClient (sockets srv) room h ws now in
          let srv' := putSocket h ws' (putRoom r' srv) in
          (srv', (λ c, (c, OUserLeft (ws_userId ws)))
                   <$> openClients (sockets srv') r')
      | None => (srv, [])
      end
  end.

(** The state that "remove from current room if any" leaves behind, in
    [join-room] as in [close], with the socket as mutated. *)
Definition leaveRoom (srv : Server) (h : nat) (ws : Socket) (now : Z)
  : Server * Socket :=
  match findBySocket (rooms srv) ws with
  | Some oldRoom =>
      let '(r', ws') := removeClient (sockets srv) oldRoom h ws now in
      (putSocket h ws' (putRoom r' srv), ws')
  | None => (srv, ws)
  end.

(** [msg.roomId || 'default'] *)
Definition roomName (roomId : option string) : string :=
  match roomId with
  | Some i => if bool_decide (i = "") then "default" else i
  | None => "default"
  end.

(** The state that the second half of [join-room] leaves behind: the room
    is looked up or created, and the socket added to it. *)
Definition enterRoom (srv : Server) (h : nat) (ws : Socket) (i : string)
    (now : Z) : Server :=
  let room :=
    match rooms srv !! i with
    | Some r => r
    | None => newRoom i now
    end in
  let '(room2, ws2) := addClient room h ws now in
  putSocket h ws2 (putRoom room2 srv).

(** The reaper, on the server. *)
Definition reap (srv : Server) : Server :=
  {| rooms := cleanupEmptyRooms (rooms srv); sockets := sockets srv |}.

(** The servers that a run can reach: connections come with a handle that
    is not in use, messages and closes arrive in any order, and the reaper
    fires at any time. *)
Inductive srv_reachable : Server → Prop :=
| sr_start : srv_reachable newServer
| sr_connect srv h uid c :
    srv_reachable srv → sockets srv !! h = None →
    srv_reachable (connect srv h uid c).1
| sr_message srv h msg now :
    srv_reachable srv → srv_reachable (handleMessage srv h msg now).1
| sr_close srv h now :
    srv_reachable srv → srv_reachable (onClose srv h now).1
| sr_reap srv :
    srv_reachable srv → srv_reachable (reap srv).

(** The invariant of reachable servers. *)
Record srv_ok (srv : Server) : Prop := {
  ok_key : ∀ i r, rooms srv !! i = Some r → room_id r = i ∧ i ≠ "";
  ok_nodup : ∀ i r, rooms srv !! i = Some r → NoDup (clients r);
  ok_clients : ∀ i r h, rooms srv !! i = Some r → h ∈ clients r →
                 ∃ ws, sockets srv !! h = Some ws ∧ ws_roomId ws = Some i;
  ok_bound : ∀ h ws i, sockets srv !! h = Some ws → ws_roomId ws = Some i →
                 ∃ r, rooms srv !! i = Some r ∧ h ∈ clients r;
  ok_color : ∀ i r h ws, rooms srv !! i = Some r → h ∈ clients r →
                 sockets srv !! h = Some ws →
                 userColors r !! ws_userId ws = Some (ws_color ws);
  ok_log : ∀ i r, rooms srv !! i = Some r → reachable (drawingState r)
}.

(** A server with two connections of one user in the default room, a third
    connection in a room of its own, and one stroke drawn. *)
Definition demoServer : Server :=
  let s0 := (connect newServer 0 "u1" "#e53935").1 in
  let s1 := (handleMessage s0 0 (MJoinRoom None) 100).1 in
  let s2 := (connect s1 1 "u1" "#1e88e5").1 in
  let s3 := (handleMessage s2 1 (MJoinRoom (Some "default")) 101).1 in
  let s4 := (connect s3 2 "u2" "#43a047").1 in
  let s5 := (handleMessage s4 2 (MJoinRoom (Some "studio")) 102).1 in
  (handleMessage s5 0 (MDraw (stroke [(0, 0); (10, 10)] 4)) 103).1.

(** An open socket of user [u] with colour [c], bound to room [i]. *)
Definition openSocket (u c : string) (i : option string) : Socket :=
  {| ws_userId := u; ws_color := c; ws_roomId := i;
     ws_readyState := OPEN; ws_isAlive := true |}.

(** ** The drawing client: pointer handlers and [flushPath] (canvas.js)

    Only the state that decides what is sent is modelled: the path being
    drawn, the tool settings, the optimistic copies in [ops] and the state
    of the connection. Drawing on the canvas element is left out. *)

(** An entry of the client's [ops] made by [flushPath] before the server
    answers: its [opId] is the string ['pending-' + Date.now()]. *)
Record PendingOp : Type := {
  pend_stamp : Z;
  pend_op : RawOp;
  pend_userId : option string
}.

Record CanvasApp : Type := {
  c_userId : option string;        (* [ws.userId], null until connected *)
  c_open : bool;                   (* [ws.ws.readyState === OPEN] *)
  c_tool : string;
  c_color : string;
  c_size : num;
  c_drawing : bool;
  c_path : list Point;
  c_lastSent : Z;                  (* read as [this.lastSent || 0] *)
  c_ops : list (PendingOp + Op)
}.

(** What the client puts on the wire. *)
Inductive ClientMsg : Type :=
| CDraw (op : RawOp)
| CCursor (cx cy : num).

(** [WS.prototype.send]: the message is dropped unless the socket is open. *)
Definition wsSend (app : CanvasApp) (m : ClientMsg) : list ClientMsg :=
  if c_open app then [m] else [].

(** The filter of [flushPath]: both coordinates are of type number and are
    not NaN. *)
Definition cleanPoint (p : Point) : bool :=
  match x p, y p with
  | NaN, _ | _, NaN => false
  | _, _ => true
  end.

Definition setPath (p : list Point) (app : CanvasApp) : CanvasApp :=
  {| c_userId := c_userId app; c_open := c_open app; c_tool := c_tool app;
     c_color := c_color app; c_size := c_size app;
     c_drawing := c_drawing app; c_path := p;
     c_lastSent := c_lastSent app; c_ops := c_ops app |}.

Definition flushPath (app : CanvasApp) (final : bool) (now : Z)
  : CanvasApp * list ClientMsg :=
  if bool_decide (length (c_path app) < 2)%nat then (app, [])
  else
    let cleanPath := filter (λ p, cleanPoint p = true) (c_path app) in
    if bool_decide (length cleanPath < 2)%nat then (app, [])
    else
      let op := {| raw_path := Some cleanPath;
                   raw_color := Some (c_color app);
                   raw_width := c_size app;
                   raw_mode := Some (c_tool app) |} in
      let app1 :=
        {| c_userId := c_userId app; c_open := c_open app;
           c_tool := c_tool app; c_color := c_color app;
           c_size := c_size app; c_drawing := c_drawing app;
           c_path := if final then [] else c_path app;
           c_lastSent := c_lastSent app;
           c_ops := c_ops app
                    ++ [inl {| pend_stamp := now; pend_op := op;
                               pend_userId := c_userId app |}] |} in
      (app1, wsSend app (CDraw op)).

(** [_start]: [p] is the pointer position. *)
Definition pointerStart (app : CanvasApp) (p : Point) (now : Z) : CanvasApp :=
  {| c_userId := c_userId app; c_open := c_open app; c_tool := c_tool app;
     c_color := c_color app; c_size := c_size app; c_drawing := true;
     c_path := [p]; c_lastSent := now; c_ops := c_ops app |}.

(** [_move] *)
Definition pointerMove (app : CanvasApp) (p : Point) (now : Z)
  : CanvasApp * list ClientMsg :=
  let cursor := wsSend app (CCursor (x p) (y p)) in
  if negb (c_drawing app) then (app, cursor)
  else
    let app1 := setPath (c_path app ++ [p]) app in
    if bool_decide (50 < now - c_lastSent app1) then
      let '(app2, out) := flushPath app1 false now in
      ({| c_userId := c_userId app2; c_open := c_open app2;
          c_tool := c_tool app2; c_color := c_color app2;
          c_size := c_size app2; c_drawing := c_drawing app2;
          c_path := c_path app2; c_lastSent := now; c_ops := c_ops app2 |},
       cursor ++ out)
    else (app1, cursor).

(** [_end] *)
Definition pointerEnd (app : CanvasApp) (now : Z)
  : CanvasApp * list ClientMsg :=
  if negb (c_drawing app) then (app, [])
  else
    flushPath
      {| c_userId := c_userId app; c_open := c_open app; c_tool := c_tool app;
         c_color := c_color app; c_size := c_size app; c_drawing := false;
         c_path := c_path app; c_lastSent := c_lastSent app;
         c_ops := c_ops app |} true now.

(** The pointer events of one gesture after [pointerdown]. *)
Inductive PointerEvent : Type :=
| PMove (p : Point) (now : Z)
| PUp (now : Z).

Definition pointerStep (st : CanvasApp * list ClientMsg) (e : PointerEvent)
  : CanvasApp * list ClientMsg :=
  let '(app', out) :=
    match e with
    | PMove p now => pointerMove st.1 p now
    | PUp now => pointerEnd st.1 now
    end in
  (app', st.2 ++ out).

(** The paths of the [draw] messages in a list of sent messages. *)
Definition drawnPaths (out : list ClientMsg) : list (list Point) :=
  omap (λ m, match m with
             | CDraw op => Some (default [] (raw_path op))
             | CCursor _ _ => None
             end) out.

(** A client right after it connected. *)
Definition newCanvasApp (u : string) : CanvasApp :=
  {| c_userId := Some u; c_open := true; c_tool := "brush"; c_color := "#000";
     c_size := Fin 4; c_drawing := false; c_path := []; c_lastSent := 0;
     c_ops := [] |}.

(** One gesture: [pointerdown] at [p0], then the events [evs]. *)
Definition gesture (app : CanvasApp) (p0 : Point) (t0 : Z)
    (evs : list PointerEvent) : CanvasApp * list ClientMsg :=
  foldl pointerStep (pointerStart app p0 t0, []) evs.

Definition moveTo (q : Point * Z) : PointerEvent := PMove q.1 q.2.

(** The points [flushPath] keeps. *)
Definition cleanOf (p : list Point) : list Point :=
  filter (λ q, cleanPoint q = true) p.

(** While the pointer is down and [pts] have been collected: every path
    sent so far is a prefix of the cleaned path collected so far, and each
    one is a prefix of the next. *)
Record drawing_inv (isOpen : bool) (pts : list Point)
    (st : CanvasApp * list ClientMsg) : Prop := {
  di_drawing : c_drawing st.1 = true;
  di_open : c_open st.1 = isOpen;
  di_path : c_path st.1 = pts;
  di_sent : ∀ q, q ∈ drawnPaths st.2 →
                 q `prefix_of` cleanOf pts ∧ (2 ≤ length q)%nat;
  di_chain : StronglySorted prefix (drawnPaths st.2)
}.

(** * Properties *)

(** ** Lists: [pop], [splice_in], membership *)

Section list_facts.
Context {A : Type}.
Implicit Types (l : list A) (a : A).

Lemma pop_snoc l a : pop (l ++ [a]) = l.
Proof.
  unfold pop. rewrite length_app. simpl.
  replace (length l + 1 - 1)%nat with (length l) by lia.
  by rewrite take_app_length.
Qed.

Lemma elem_of_pop l a : a ∈ pop l → a ∈ l.
Proof.
  unfold pop. intros H.
  rewrite <- (take_drop (length l - 1) l). apply elem_of_app. by left.
Qed.

Lemma splice_in_Permutation i a l : splice_in i a l ≡ₚ a :: l.
Proof.
  unfold splice_in. rewrite <- Permutation_middle.
  by rewrite take_drop.
Qed.

Lemma elem_of_splice_in i a b l : b ∈ splice_in i a l ↔ b = a ∨ b ∈ l.
Proof. rewrite splice_in_Permutation. apply elem_of_cons. Qed.

Lemma elem_of_delete_list (i : nat) l a : a ∈ delete i l → a ∈ l.
Proof.
  rewrite delete_take_drop, elem_of_app. intros H.
  rewrite <- (take_drop i l), elem_of_app.
  destruct H as [H|H]; [by left | right].
  rewrite <- (take_drop 1 (drop i l)), drop_drop, elem_of_app.
  right. by replace (i + 1)%nat with (S i) by lia.
Qed.

Lemma splice_in_middle l1 l2 a :
  splice_in (length l1) a (l1 ++ l2) = l1 ++ a :: l2.
Proof.
  unfold splice_in. by rewrite take_app_length, drop_app_length.
Qed.

End list_facts.

(** ** The per-user index *)

Lemma userOpsOf_push s u v i ops' stack' n :
  userOpsOf {| ops := ops'; undoStack := stack'; nextOpId := n;
               userOperations := pushUserOp u i (userOperations s) |} v
  = if decide (u = v) then userOpsOf s u ++ [i] else userOpsOf s v.
Proof.
  unfold userOpsOf, pushUserOp. simpl. rewrite lookup_insert.
  by destruct (decide (u = v)).
Qed.

Lemma userOpsOf_alter_pop s u v ops' stack' n :
  userOpsOf {| ops := ops'; undoStack := stack'; nextOpId := n;
               userOperations := alter pop u (userOperations s) |} v
  = if decide (u = v) then pop (userOpsOf s u) else userOpsOf s v.
Proof.
  unfold userOpsOf. simpl. rewrite lookup_alter.
  destruct (decide (u = v)) as [->|]; [|done].
  by destruct (userOperations s !! v).
Qed.

Lemma hasUserOps_true m u :
  hasUserOps m u = true ↔ default [] (m !! u) ≠ [].
Proof.
  unfold hasUserOps. destruct (m !! u) as [[|]|]; simpl; naive_solver.
Qed.

Lemma opsOf_cons_eq u o l : userId o = u → opsOf u (o :: l) = o :: opsOf u l.
Proof. intros. unfold opsOf. by rewrite filter_cons_True. Qed.

Lemma opsOf_cons_ne u o l : userId o ≠ u → opsOf u (o :: l) = opsOf u l.
Proof. intros. unfold opsOf. by rewrite filter_cons_False. Qed.

Lemma opsOf_Permutation u l l' : l ≡ₚ l' → opsOf u l ≡ₚ opsOf u l'.
Proof. intros H. unfold opsOf. by rewrite H. Qed.

(** ** What [undo] does, case by case *)

Lemma undo_cases s u :
  (userOpsOf s u = [] ∨
   (∃ ids i, userOpsOf s u = ids ++ [i] ∧
             list_find (λ o, opId o = i) (ops s) = None)) ∧
  undo s u =
    (s, {| success := false; message := "Nothing to undo"; res_op := None;
           canUndo := Some false;
           canRedo := Some (bool_decide (0 < length (undoStack s))%nat) |})
  ∨
  ∃ ids k o,
    userOpsOf s u = ids ++ [opId o] ∧
    list_find (λ o', opId o' = opId o) (ops s) = Some (k, o) ∧
    undo s u =
      ({| ops := delete k (ops s); undoStack := undoStack s ++ [o];
          nextOpId := nextOpId s;
          userOperations := alter pop u (userOperations s) |},
       {| success := true; message := "Operation undone"; res_op := Some o;
          canUndo := Some (hasUserOps (alter pop u (userOperations s)) u);
          canRedo := Some true |}).
Proof.
  unfold undo, getUserLastOp.
  destruct (last (userOpsOf s u)) as [i|] eqn:Hl.
  - apply last_Some in Hl as [ids Hids].
    destruct (list_find (λ o, opId o = i) (ops s)) as [[k o]|] eqn:Hf; simpl.
    + right. exists ids, k, o.
      pose proof Hf as Hf'. apply list_find_Some in Hf' as (_ & Hi & _).
      subst i. rewrite Hf. done.
    + left. split; [|done]. right. by exists ids, i.
  - left. apply last_None in Hl. by split; [left|].
Qed.

(** ** What [redo] does, case by case *)

Lemma findUndone_Some stack u o :
  findUndone stack u = Some o → o ∈ stack ∧ userId o = u.
Proof.
  unfold findUndone. intros H.
  destruct (list_find _ _) as [[k o']|] eqn:Hf; simplify_eq/=.
  apply list_find_Some in Hf as (Hk & Hu & _). split; [|done].
  apply elem_of_reverse. by eapply list_elem_of_lookup_2.
Qed.

Lemma findUndone_None stack u :
  findUndone stack u = None ↔ ∀ o, o ∈ stack → userId o ≠ u.
Proof.
  unfold findUndone. rewrite fmap_None, list_find_None, Forall_forall.
  by setoid_rewrite elem_of_reverse.
Qed.

Lemma findUndone_top stack u o :
  userId o = u → findUndone (stack ++ [o]) u = Some o.
Proof.
  intros H. unfold findUndone. rewrite reverse_snoc. simpl.
  by rewrite decide_True.
Qed.

Lemma opsOf_nil u l : opsOf u l = [] ↔ ∀ o, o ∈ l → userId o ≠ u.
Proof.
  unfold opsOf. induction l as [|a l IH]; simpl.
  - split; [|done]. intros _ o Ho. by apply elem_of_nil in Ho.
  - rewrite filter_cons. destruct (decide (userId a = u)) as [Ha|Ha].
    + split; [done|]. intros H. exfalso. eapply H; [|done]. left.
    + rewrite IH. split.
      * intros H o [->|Ho]%elem_of_cons; auto.
      * intros H o Ho. apply H. by right.
Qed.

Lemma redo_cases s u :
  ((∀ o, o ∈ undoStack s → userId o ≠ u) ∧
   ∃ msg, (msg = "Nothing to redo" ∨ msg = "No operations to redo") ∧
     redo s u =
       (s, {| success := false; message := msg; res_op := None;
              canUndo := Some (hasUserOps (userOperations s) u);
              canRedo := Some false |}))
  ∨
  ∃ op, findUndone (undoStack s) u = Some op ∧
    ((redoBlocked (ops s) op = true ∧
      redo s u =
       (s, {| success := false;
              message := "Cannot redo due to newer overlapping operations";
              res_op := None;
              canUndo := Some (hasUserOps (userOperations s) u);
              canRedo := Some false |}))
     ∨
     (redoBlocked (ops s) op = false ∧
      redo s u =
       ({| ops := splice_in (insertIndex (ops s) (timestamp op)) op (ops s);
           undoStack := pop (undoStack s);
           nextOpId := nextOpId s;
           userOperations := pushUserOp u (opId op) (userOperations s) |},
        {| success := true; message := "Operation redone"; res_op := Some op;
           canUndo := Some true;
           canRedo :=
             Some (bool_decide (0 < length (pop (undoStack s)))%nat) |}))).
Proof.
  unfold redo.
  destruct (findUndone (undoStack s) u) as [op|] eqn:Hf.
  - right. exists op. split; [done|].
    destruct (undoStack s) as [|t stack] eqn:Hs.
    { apply findUndone_Some in Hf as [Hf _]. by apply elem_of_nil in Hf. }
    destruct (redoBlocked (ops s) op); [by left | by right].
  - left. split; [by apply findUndone_None|].
    destruct (undoStack s); eauto.
Qed.

Lemma hasNewerOps_true l op :
  hasNewerOps l op = true ↔
  ∃ e, e ∈ l ∧ timestamp op < timestamp e ∧ operationsOverlap e op = true.
Proof.
  unfold hasNewerOps. rewrite existsb_exists.
  split; intros (e & He & H).
  - apply andb_true_iff in H as [H1 H2]. apply bool_decide_eq_true in H1.
    exists e. by rewrite list_elem_of_In.
  - destruct H as [H1 H2]. exists e. rewrite <- list_elem_of_In.
    split; [done|]. apply andb_true_iff. by rewrite bool_decide_eq_true.
Qed.

(** ** The invariant holds in every reachable log *)

Lemma wf_new : wf newDrawingState.
Proof.
  split; simpl.
  - intros o Ho. by apply elem_of_nil in Ho.
  - intros o o' Ho. by apply elem_of_nil in Ho.
  - intros u. unfold userOpsOf. simpl. by rewrite lookup_empty.
Qed.

Lemma wf_addOperation s input now :
  wf s → wf (addOperation s input now).1.
Proof.
  intros [Hfresh Hids Hidx]. unfold addOperation.
  set (op := {| path := _ |}). simpl.
  assert (Hmem : ∀ o, o ∈ (ops s ++ [op]) ++ undoStack s →
                      o = op ∨ o ∈ ops s ++ undoStack s).
  { intros o. rewrite !elem_of_app, list_elem_of_singleton. tauto. }
  split; simpl.
  - intros o [->|Ho]%Hmem; [simpl; lia|]. apply Hfresh in Ho. lia.
  - intros o o' [->|Ho]%Hmem [->|Ho']%Hmem He; [done| | |by apply Hids].
    + apply Hfresh in Ho'. simpl in He. lia.
    + apply Hfresh in Ho. simpl in He. lia.
  - intros u. rewrite userOpsOf_push. unfold opsOf. rewrite filter_app.
    rewrite fmap_app. destruct (decide (in_userId input = u)) as [<-|Hne].
    + rewrite filter_cons_True by done. simpl. by rewrite (Hidx (in_userId input)).
    + rewrite filter_cons_False by done. rewrite filter_nil, app_nil_r.
      apply Hidx.
Qed.

(** The operation [undo] is about to remove is one of the requester's. *)
Lemma undo_target_owner s u ids k o :
  wf s → userOpsOf s u = ids ++ [opId o] →
  list_find (λ o', opId o' = opId o) (ops s) = Some (k, o) →
  userId o = u.
Proof.
  intros [_ Hids Hidx] Hu Hf.
  apply list_find_Some in Hf as (Hk & _ & _).
  assert (Hin : opId o ∈ opId <$> opsOf u (ops s)).
  { rewrite <- (Hidx u), Hu. apply elem_of_app. right. left. }
  apply list_elem_of_fmap in Hin as (o' & He & Ho').
  apply list_elem_of_filter in Ho' as [Hu' Ho'].
  rewrite (Hids o o'); [done| | |done]; apply elem_of_app; left;
    [by eapply list_elem_of_lookup_2 | done].
Qed.

Lemma wf_undo s u : wf s → wf (undo s u).1.
Proof.
  intros Hwf.
  destruct (undo_cases s u) as [[_ ->]|(ids & k & o & Hu & Hf & ->)]; [done|].
  pose proof (undo_target_owner _ _ _ _ _ Hwf Hu Hf) as Hown.
  destruct Hwf as [Hfresh Hids Hidx].
  apply list_find_Some in Hf as (Hk & _ & _).
  assert (Hmem : ∀ a, a ∈ delete k (ops s) ++ undoStack s ++ [o] →
                      a ∈ ops s ++ undoStack s).
  { intros a. rewrite !elem_of_app, list_elem_of_singleton.
    intros [H|[H| ->]]; [left; by eapply elem_of_delete_list | by right |].
    left. by eapply list_elem_of_lookup_2. }
  split; simpl.
  - intros a Ha%Hmem. by apply Hfresh.
  - intros a a' Ha%Hmem Ha'%Hmem. by apply Hids.
  - intros v. rewrite userOpsOf_alter_pop.
    pose proof (opsOf_Permutation v _ _ (delete_Permutation _ _ _ Hk)) as Hp.
    destruct (decide (u = v)) as [<-|Hne].
    + rewrite Hu, pop_snoc.
      rewrite opsOf_cons_eq in Hp by done.
      pose proof (Hidx u) as Hi. rewrite Hu, Hp in Hi. simpl in Hi.
      rewrite <- Permutation_cons_append in Hi.
      by apply Permutation_cons_inv in Hi.
    + rewrite opsOf_cons_ne in Hp by congruence.
      by rewrite (Hidx v), Hp.
Qed.

Lemma wf_redo s u : wf s → wf (redo s u).1.
Proof.
  intros Hwf.
  destruct (redo_cases s u)
    as [[_ (msg & _ & ->)]|(op & Hf & [[_ ->]|[_ ->]])]; [done|done|].
  apply findUndone_Some in Hf as [Hin Hown].
  destruct Hwf as [Hfresh Hids Hidx].
  assert (Hmem : ∀ a,
            a ∈ splice_in (insertIndex (ops s) (timestamp op)) op (ops s)
                ++ pop (undoStack s) →
            a ∈ ops s ++ undoStack s).
  { intros a. rewrite !elem_of_app, elem_of_splice_in.
    intros [[->|H]|H]; [by right | by left | right; by apply elem_of_pop]. }
  split; simpl.
  - intros a Ha%Hmem. by apply Hfresh.
  - intros a a' Ha%Hmem Ha'%Hmem. by apply Hids.
  - intros v. rewrite userOpsOf_push.
    pose proof (opsOf_Permutation v _ _
                  (splice_in_Permutation (insertIndex (ops s) (timestamp op))
                                         op (ops s))) as Hp.
    destruct (decide (u = v)) as [<-|Hne].
    + rewrite opsOf_cons_eq in Hp by done. rewrite Hp. simpl.
      rewrite <- Permutation_cons_append. by rewrite (Hidx u).
    + rewrite opsOf_cons_ne in Hp by congruence.
      by rewrite Hp, (Hidx v).
Qed.

Lemma wf_step s c : wf s → wf (step s c).
Proof.
  intros H.
  destruct c; simpl; [by apply wf_addOperation | by apply wf_undo | by apply wf_redo].
Qed.

Lemma run_snoc cs c : run (cs ++ [c]) = step (run cs) c.
Proof. unfold run. by rewrite foldl_app. Qed.

Lemma reachable_wf s : reachable s → wf s.
Proof.
  intros [cs ->]. induction cs as [|c cs IH] using rev_ind.
  - apply wf_new.
  - rewrite run_snoc. by apply wf_step.
Qed.

Lemma reachable_step s c : reachable s → reachable (step s c).
Proof. intros [cs ->]. exists (cs ++ [c]). by rewrite run_snoc. Qed.

(** ** Undo is scoped to the requester *)

Lemma Permutation_nil_fmap_opsOf l u s :
  userOpsOf s u = l → wf s → (l = [] ↔ opsOf u (ops s) = []).
Proof.
  intros <- [_ _ Hidx]. specialize (Hidx u). split; intros H.
  - rewrite H in Hidx. symmetry in Hidx. apply Permutation_nil_r in Hidx.
    by apply fmap_nil_inv in Hidx.

  - rewrite H in Hidx. by apply Permutation_nil_r in Hidx.
Qed.

(** C2. In a reachable log, [undo] by [u] fails with "Nothing to undo" and
    changes nothing when [u] has no operation in [ops]; otherwise it
    succeeds and removes from [ops] exactly one operation [o] whose author
    is [u], namely the one whose identity is the last entry of [u]'s index
    (the latest one added or redone by [u] and still applied), pushes it on
    [undoStack], pops [u]'s index, and leaves every other author's
    operations in [ops] as they were, wherever [o] stood in [ops]. *)
Theorem undo_removes_own_latest s u :
  reachable s →
  (opsOf u (ops s) = [] →
     (undo s u).1 = s ∧ isNothingToUndo (undo s u).2) ∧
  (opsOf u (ops s) ≠ [] →
     ∃ l1 o l2 ids,
       ops s = l1 ++ o :: l2 ∧
       userId o = u ∧
       userOpsOf s u = ids ++ [opId o] ∧
       success (undo s u).2 = true ∧
       res_op (undo s u).2 = Some o ∧
       ops (undo s u).1 = l1 ++ l2 ∧
       undoStack (undo s u).1 = undoStack s ++ [o] ∧
       userOpsOf (undo s u).1 u = ids ∧
       ∀ v, v ≠ u → opsOf v (ops (undo s u).1) = opsOf v (ops s)).
Proof.
  intros Hwf%reachable_wf.
  pose proof (Permutation_nil_fmap_opsOf _ u s eq_refl Hwf) as Hnil.
  destruct (undo_cases s u)
    as [[Hcase ->]|(ids & k & o & Hu & Hf & ->)]; simpl.
  - split; [done|]. intros Hne. exfalso.
    destruct Hcase as [He|(ids & i & Hu & Hf)]; [by apply Hne, Hnil|].
    destruct Hwf as [_ _ Hidx].
    assert (Hin : i ∈ opId <$> opsOf u (ops s)).
    { rewrite <- (Hidx u), Hu. apply elem_of_app. right. left. }
    apply list_elem_of_fmap in Hin as (o' & He & Ho').
    apply list_elem_of_filter in Ho' as [_ Ho'].
    eapply list_find_None, Forall_forall in Hf; [|exact Ho']. done.
  - split.
    { intros He. apply Hnil in He. rewrite Hu in He.
      by destruct ids. }
    intros _.
    pose proof (undo_target_owner _ _ _ _ _ Hwf Hu Hf) as Hown.
    apply list_find_Some in Hf as (Hk & _ & _).
    exists (take k (ops s)), o, (drop (S k) (ops s)), ids.
    split_and!; try done.
    + by rewrite take_drop_middle.
    + apply delete_take_drop.
    + rewrite userOpsOf_alter_pop, decide_True by done.
      by rewrite Hu, pop_snoc.
    + intros v Hv.
      rewrite <- (take_drop_middle _ _ _ Hk) at 2.
      rewrite delete_take_drop. unfold opsOf.
      rewrite !filter_app, filter_cons_False; [done|congruence].
Qed.

(** The last entry of an author's index is the operation that author
    applied last: [addOperation] and a successful [redo] append to it,
    calls of other authors leave it alone. *)
Lemma index_tracks_applications s u :
  (∀ raw now, userOpsOf (addOperation s {| in_userId := u; in_op := raw |} now).1 u
              = userOpsOf s u ++ [nextOpId s]) ∧
  (∀ o, success (redo s u).2 = true → res_op (redo s u).2 = Some o →
        userOpsOf (redo s u).1 u = userOpsOf s u ++ [opId o]) ∧
  (∀ v c, v ≠ u →
     match c with
     | CAdd input _ => in_userId input = v
     | CUndo w | CRedo w => w = v
     end →
     userOpsOf (step s c) u = userOpsOf s u).
Proof.
  split_and!.
  - intros raw now. unfold addOperation. simpl.
    by rewrite userOpsOf_push, decide_True.
  - intros o.
    destruct (redo_cases s u)
      as [[_ (msg & _ & ->)]|(op & Hf & [[_ ->]|[_ ->]])]; simpl; try done.
    intros _ [= ->]. by rewrite userOpsOf_push, decide_True.
  - intros v [input now|w|w] Hv Hc; simpl in *; subst.
    + unfold addOperation. simpl. by rewrite userOpsOf_push, decide_False.
    + destruct (undo_cases s v)
        as [[_ ->]|(ids & k & o & _ & _ & ->)]; simpl; [done|].
      by rewrite userOpsOf_alter_pop, decide_False.
    + destruct (redo_cases s v)
        as [[_ (msg & _ & ->)]|(op & Hf & [[_ ->]|[_ ->]])]; simpl; try done.
      by rewrite userOpsOf_push, decide_False.
Qed.

(** The case the specification singles out: the requester's operation is not the
    last of [ops]; the other author's newer operation stays. A third user,
    who drew nothing, has nothing to undo. *)
Lemma undo_removes_own_latest_witness :
  let s := run [draws "u1" [(0,0);(10,10)] 1; draws "u2" [(50,50);(60,60)] 2] in
  reachable s ∧ opsOf "u3" (ops s) = [] ∧ opsOf "u1" (ops s) ≠ [] ∧
  ((undo s "u3").1 = s ∧ isNothingToUndo (undo s "u3").2) ∧
  ∃ l1 o l2 ids,
    ops s = l1 ++ o :: l2 ∧
    userId o = "u1" ∧
    userOpsOf s "u1" = ids ++ [opId o] ∧
    success (undo s "u1").2 = true ∧
    res_op (undo s "u1").2 = Some o ∧
    ops (undo s "u1").1 = l1 ++ l2 ∧
    undoStack (undo s "u1").1 = undoStack s ++ [o] ∧
    userOpsOf (undo s "u1").1 "u1" = ids ∧
    ∀ v, v ≠ "u1" → opsOf v (ops (undo s "u1").1) = opsOf v (ops s).
Proof.
  intros s.
  assert (Hr : reachable s) by (by eexists).
  assert (He : opsOf "u3" (ops s) = []) by (by vm_compute).
  assert (Hne : opsOf "u1" (ops s) ≠ []) by (by vm_compute).
  refine (conj Hr (conj He (conj Hne (conj _ _)))).
  - exact (proj1 (undo_removes_own_latest s "u3" Hr) He).
  - exact (proj2 (undo_removes_own_latest s "u1" Hr) Hne).
Defined.

Example undo_keeps_newer_foreign_op :
  let s := run [draws "u1" [(0,0);(10,10)] 1; draws "u2" [(50,50);(60,60)] 2] in
  opId <$> ops s = [1; 2] ∧ opId <$> ops (undo s "u1").1 = [2] ∧
  (undo s "u2").2 = {| success := true; message := "Operation undone";
                       res_op := last (ops s); canUndo := Some false;
                       canRedo := Some true |}.
Proof. by vm_compute. Qed.

(** ** A conflicting redo changes nothing *)

Lemma redo_conflict_inv s u :
  isRedoConflict (redo s u).2 →
  redo s u =
    (s, {| success := false;
           message := "Cannot redo due to newer overlapping operations";
           res_op := None;
           canUndo := Some (hasUserOps (userOperations s) u);
           canRedo := Some false |}) ∧
  ∃ op, findUndone (undoStack s) u = Some op ∧ redoBlocked (ops s) op = true.
Proof.
  intros [Hs Hm].
  destruct (redo_cases s u)
    as [[_ (msg & Hmsg & E)]|(op & Hf & [[Hb E]|[_ E]])];
    rewrite E in Hs, Hm; simpl in *.
  - destruct Hmsg; simplify_eq.
  - split; [done|]. eauto.
  - done.
Qed.

Lemma redo_succeeds s u op :
  findUndone (undoStack s) u = Some op → redoBlocked (ops s) op = false →
  success (redo s u).2 = true ∧ res_op (redo s u).2 = Some op.
Proof.
  intros Hf Hb.
  destruct (redo_cases s u)
    as [[Hno _]|(op' & Hf' & [[Hb' E]|[_ E]])].
  - apply findUndone_Some in Hf as [Hin Hu]. by destruct (Hno op).
  - congruence.
  - rewrite E. simpl. split; congruence.
Qed.

(** C3. When [redo] answers "Cannot redo due to newer overlapping
    operations", the log it leaves is the log it found: [ops], [undoStack],
    [nextOpId] and the per-user index are all unchanged. The candidate is
    therefore still on the undo stack, and in any later log where it is
    still the requester's candidate and no longer blocked, [redo] succeeds
    with it. *)
Theorem redo_conflict_leaves_state s u :
  isRedoConflict (redo s u).2 →
  (redo s u).1 = s ∧
  ∃ op, findUndone (undoStack (redo s u).1) u = Some op ∧
    ∀ s', findUndone (undoStack s') u = Some op →
          redoBlocked (ops s') op = false →
          success (redo s' u).2 = true ∧ res_op (redo s' u).2 = Some op.
Proof.
  intros (E & op & Hf & _)%redo_conflict_inv. rewrite E. simpl.
  split; [done|]. exists op. split; [done|].
  intros s'. apply redo_succeeds.
Qed.

Lemma redo_conflict_leaves_state_witness :
  let s := run [draws "u1" [(0,0);(10,10)] 1; draws "u2" [(5,5);(20,20)] 2;
                CUndo "u1"] in
  isRedoConflict (redo s "u1").2 ∧
  (redo s "u1").1 = s ∧
  ∃ op, findUndone (undoStack (redo s "u1").1) "u1" = Some op ∧
    ∀ s', findUndone (undoStack s') "u1" = Some op →
          redoBlocked (ops s') op = false →
          success (redo s' "u1").2 = true ∧ res_op (redo s' "u1").2 = Some op.
Proof.
  intros s.
  assert (H : isRedoConflict (redo s "u1").2) by (split; by vm_compute).
  split; [exact H|]. exact (redo_conflict_leaves_state s "u1" H).
Defined.

(** The retry of the specification's scenario C: once the other author has
    undone the overlapping stroke, the same [redo] goes through. *)
Example redo_retry_after_conflict :
  let s := run [draws "u1" [(0,0);(10,10)] 1; draws "u2" [(5,5);(20,20)] 2;
                CUndo "u1"] in
  message (redo s "u1").2 = "Cannot redo due to newer overlapping operations" ∧
  opId <$> ops (redo s "u1").1 = [2] ∧
  let s' := step (redo s "u1").1 (CUndo "u2") in
  success (redo s' "u1").2 = true ∧ opId <$> ops (redo s' "u1").1 = [1].
Proof. by vm_compute. Qed.

(** ** Degenerate operations never conflict *)

Lemma operationsOverlap_degenerate op1 op2 :
  degenerate op1 ∨ degenerate op2 → operationsOverlap op1 op2 = false.
Proof.
  unfold degenerate, operationsOverlap.
  destruct (path op1) as [p1|], (path op2) as [p2|]; try done.
  intros [H|H].
  - by rewrite (bool_decide_eq_true_2 _ H).
  - rewrite (bool_decide_eq_true_2 _ H). by rewrite orb_true_r.
Qed.

Lemma operationsOverlap_true_inv op1 op2 :
  operationsOverlap op1 op2 = true → ¬ degenerate op1 ∧ ¬ degenerate op2.
Proof.
  intros H. split; intros Hd;
    rewrite operationsOverlap_degenerate in H by auto; done.
Qed.

(** C10. [operationsOverlap] answers false as soon as one of the two
    operations has no path or a path of fewer than two points. Hence a
    [redo] whose candidate is degenerate never ends in a conflict, the
    degenerate operations of [ops] can be left out of the conflict scan
    without changing its answer, and every conflict comes with a
    non-degenerate newer operation of [ops] that overlaps a non-degenerate
    candidate. *)
Theorem degenerate_never_conflicts :
  (∀ op1 op2, degenerate op1 ∨ degenerate op2 →
              operationsOverlap op1 op2 = false) ∧
  (∀ s u op, findUndone (undoStack s) u = Some op → degenerate op →
             ¬ isRedoConflict (redo s u).2) ∧
  (∀ l op, hasNewerOps l op
           = hasNewerOps (filter (λ e, ¬ degenerate e) l) op) ∧
  (∀ s u, isRedoConflict (redo s u).2 →
          ∃ op e, findUndone (undoStack s) u = Some op ∧ ¬ degenerate op ∧
                  e ∈ ops s ∧ ¬ degenerate e ∧
                  timestamp op < timestamp e ∧
                  operationsOverlap e op = true).
Proof.
  assert (Hinv : ∀ s u, isRedoConflict (redo s u).2 →
            ∃ op e, findUndone (undoStack s) u = Some op ∧ ¬ degenerate op ∧
                    e ∈ ops s ∧ ¬ degenerate e ∧
                    timestamp op < timestamp e ∧
                    operationsOverlap e op = true).
  { intros s u (_ & op & Hf & Hb)%redo_conflict_inv.
    apply andb_true_iff in Hb as [_ Hn].
    apply hasNewerOps_true in Hn as (e & He & Hlt & Ho).
    destruct (operationsOverlap_true_inv _ _ Ho).
    by exists op, e. }
  split_and!.
  - apply operationsOverlap_degenerate.
  - intros s u op Hf Hd (op' & e & Hf' & Hnd & _)%Hinv.
    apply Hnd. congruence.
  - intros l op. unfold hasNewerOps.
    induction l as [|e l IH]; [done|].
    rewrite filter_cons. destruct (decide (¬ degenerate e)) as [Hd|Hd]; simpl.
    + by rewrite IH.
    + rewrite <- IH. apply dec_stable in Hd.
      rewrite operationsOverlap_degenerate by auto.
      by rewrite andb_false_r.
  - apply Hinv.
Qed.

Lemma degenerate_never_conflicts_witness :
  let dot := entry "u2" (stroke [(5, 5)] 4) 2 2 in
  let bare := entry "u2" emptyRaw 3 3 in
  let line := entry "u1" (stroke [(0, 0); (10, 10)] 4) 1 1 in
  let s := run [CAdd {| in_userId := "u1"; in_op := stroke [(5, 5)] 4 |} 1;
                draws "u2" [(0, 0); (10, 10)] 2; CUndo "u1"] in
  let t := run [draws "u1" [(0, 0); (10, 10)] 1;
                draws "u2" [(5, 5); (20, 20)] 2; CUndo "u1"] in
  (degenerate dot ∨ degenerate line) ∧ (degenerate line ∨ degenerate bare) ∧
  findUndone (undoStack s) "u1" = Some (entry "u1" (stroke [(5, 5)] 4) 1 1) ∧
  degenerate (entry "u1" (stroke [(5, 5)] 4) 1 1) ∧
  isRedoConflict (redo t "u1").2 ∧
  operationsOverlap dot line = false ∧ operationsOverlap line bare = false ∧
  ¬ isRedoConflict (redo s "u1").2 ∧
  ∃ op e, findUndone (undoStack t) "u1" = Some op ∧ ¬ degenerate op ∧
          e ∈ ops t ∧ ¬ degenerate e ∧
          timestamp op < timestamp e ∧ operationsOverlap e op = true.
Proof.
  intros dot bare line s t.
  assert (H1 : degenerate dot ∨ degenerate line) by (left; vm_compute; lia).
  assert (H2 : degenerate line ∨ degenerate bare) by (right; exact I).
  assert (H3 : findUndone (undoStack s) "u1"
               = Some (entry "u1" (stroke [(5, 5)] 4) 1 1)) by (by vm_compute).
  assert (H4 : degenerate (entry "u1" (stroke [(5, 5)] 4) 1 1))
    by (vm_compute; lia).
  assert (H5 : isRedoConflict (redo t "u1").2) by (split; by vm_compute).
  refine (conj H1 (conj H2 (conj H3 (conj H4 (conj H5
            (conj _ (conj _ (conj _ _)))))))).
  - exact (proj1 degenerate_never_conflicts dot line H1).
  - exact (proj1 degenerate_never_conflicts line bare H2).
  - exact (proj1 (proj2 degenerate_never_conflicts) s "u1" _ H3 H4).
  - exact (proj2 (proj2 (proj2 degenerate_never_conflicts)) t "u1" H5).
Defined.

(** A single point right on the candidate's stroke, drawn after the undo,
    does not block the redo. *)
Example dot_does_not_block_redo :
  let s := run [draws "u1" [(0,0);(10,10)] 1; CUndo "u1";
                draws "u2" [(5,5)] 2] in
  success (redo s "u1").2 = true.
Proof. by vm_compute. Qed.

(** ** Where [redo] reinserts *)

Lemma scanInsert_skip l t d k n :
  (k ≤ n)%nat →
  (∀ i o, (k ≤ i < n)%nat → l !! i = Some o → t < timestamp o) →
  scanInsert l t n d = scanInsert l t k d.
Proof.
  intros Hkn. induction Hkn as [|n Hkn IH]; intros Hnew; [done|].
  simpl. destruct (l !! n) as [o|] eqn:Ho.
  - rewrite bool_decide_eq_false_2.
    + apply IH. intros i o' Hi. apply Hnew. lia.
    + specialize (Hnew n o ltac:(lia) Ho). lia.
  - apply IH. intros i o' Hi. apply Hnew. lia.
Qed.

(** The loop stops right after the last operation that is not newer than
    the candidate, when all operations behind it are newer. *)
Lemma insertIndex_found l1 e l2 t :
  timestamp e ≤ t → Forall (λ o, t < timestamp o) l2 →
  insertIndex (l1 ++ e :: l2) t = S (length l1).
Proof.
  intros He Hl2. unfold insertIndex.
  rewrite (scanInsert_skip _ _ _ (S (length l1))).
  - simpl. rewrite list_lookup_middle by done.
    by rewrite bool_decide_eq_true_2.
  - rewrite length_app. simpl. lia.
  - intros i o Hi Ho.
    rewrite lookup_app_r in Ho by lia.
    destruct (i - length l1)%nat as [|j] eqn:Hj; [lia|]. simpl in Ho.
    rewrite Forall_forall in Hl2. apply Hl2.
    by eapply list_elem_of_lookup_2.
Qed.

(** When every operation is newer than the candidate the loop never
    assigns, and [insertIndex] keeps its initial value [ops.length]. *)
Lemma insertIndex_all_newer l t :
  Forall (λ o, t < timestamp o) l → insertIndex l t = length l.
Proof.
  intros Hl. unfold insertIndex.
  rewrite (scanInsert_skip _ _ _ 0%nat); [done|lia|].
  intros i o _ Ho. rewrite Forall_forall in Hl. apply Hl.
  by eapply list_elem_of_lookup_2.
Qed.

(** ** Undo followed by redo *)

Lemma undo_success_inv s u :
  wf s → success (undo s u).2 = true →
  ∃ l1 o l2,
    ops s = l1 ++ o :: l2 ∧ userId o = u ∧
    res_op (undo s u).2 = Some o ∧
    ops (undo s u).1 = l1 ++ l2 ∧
    undoStack (undo s u).1 = undoStack s ++ [o].
Proof.
  intros Hwf.
  destruct (undo_cases s u)
    as [[Hcase ->]|(ids & k & o & Hu & Hf & ->)]; simpl; [done|].
  intros _.
  pose proof (undo_target_owner _ _ _ _ _ Hwf Hu Hf) as Hown.
  apply list_find_Some in Hf as (Hk & _ & _).
  exists (take k (ops s)), o, (drop (S k) (ops s)).
  split_and!; try done.
  - by rewrite take_drop_middle.
  - apply delete_take_drop.
Qed.

Lemma undo_redo_inv s u :
  wf s → success (undo s u).2 = true →
  success (redo (undo s u).1 u).2 = true →
  ∃ l1 o l2,
    ops s = l1 ++ o :: l2 ∧ userId o = u ∧
    res_op (undo s u).2 = Some o ∧
    ops (redo (undo s u).1 u).1
      = splice_in (insertIndex (l1 ++ l2) (timestamp o)) o (l1 ++ l2) ∧
    undoStack (redo (undo s u).1 u).1 = undoStack s.
Proof.
  intros Hwf Hundo Hredo.
  destruct (undo_success_inv s u Hwf Hundo)
    as (l1 & o & l2 & Hops & Hown & Hres & Hops1 & Hstack1).
  exists l1, o, l2. split_and!; try done.
  - destruct (redo_cases (undo s u).1 u)
      as [[_ (msg & _ & E)]|(op & Hf & [[_ E]|[_ E]])];
      rewrite E in Hredo |- *; simpl in *; try done.
    rewrite Hstack1, findUndone_top in Hf by done.
    injection Hf as <-. by rewrite Hops1.
  - destruct (redo_cases (undo s u).1 u)
      as [[_ (msg & _ & E)]|(op & Hf & [[_ E]|[_ E]])];
      rewrite E in Hredo |- *; simpl in *; try done.
    by rewrite Hstack1, pop_snoc.
Qed.

Lemma StronglySorted_lt_middle (l1 l2 : list Op) o :
  StronglySorted Z.lt (timestamp <$> l1 ++ o :: l2) →
  Forall (λ e, timestamp e < timestamp o) l1 ∧
  Forall (λ e, timestamp o < timestamp e) l2.
Proof.
  rewrite fmap_app, fmap_cons. intros H.
  apply StronglySorted_app in H as (H12 & _ & H2).
  apply StronglySorted_inv in H2 as [_ H2].
  rewrite !Forall_forall. split.
  - intros e He. apply H12; [by apply list_elem_of_fmap_2|left].
  - intros e He. rewrite Forall_forall in H2.
    apply H2. by apply list_elem_of_fmap_2.
Qed.

(** C1, as amended. In a reachable log, a successful [undo] by [u]
    immediately followed by a successful [redo] by [u] gives back the same
    operations in [ops] (as a multiset) and the same [undoStack]. The order
    of [ops] is the same as well when the timestamps of [ops] were strictly
    ascending before the undo and the undone operation was not the oldest
    of several: some older operation stays in [ops], or it was the only
    one. *)
Theorem undo_redo_restores s u :
  reachable s →
  success (undo s u).2 = true →
  success (redo (undo s u).1 u).2 = true →
  ops (redo (undo s u).1 u).1 ≡ₚ ops s ∧
  undoStack (redo (undo s u).1 u).1 = undoStack s ∧
  (∀ o, res_op (undo s u).2 = Some o →
        StronglySorted Z.lt (timestamp <$> ops s) →
        (∃ e, e ∈ ops s ∧ timestamp e < timestamp o) ∨ ops s = [o] →
        ops (redo (undo s u).1 u).1 = ops s).
Proof.
  intros Hwf%reachable_wf Hundo Hredo.
  destruct (undo_redo_inv s u Hwf Hundo Hredo)
    as (l1 & o & l2 & Hops & Hown & Hres & -> & ->).
  split_and!; [|done|].
  - rewrite splice_in_Permutation, Hops. apply Permutation_middle.
  - intros o' Ho' Hsorted Hold. rewrite Hres in Ho'. injection Ho' as <-.
    rewrite Hops in Hsorted |- *.
    apply StronglySorted_lt_middle in Hsorted as [Hl1 Hl2].
    destruct l1 as [|a l1 _] using rev_ind.
    + assert (l2 = []) as ->.
      { destruct Hold as [(e & He & Hlt)|Hone].
        - rewrite Hops in He. apply elem_of_cons in He as [->|He]; [lia|].
          rewrite Forall_forall in Hl2. apply Hl2 in He. lia.
        - rewrite Hops in Hone. by injection Hone. }
      done.
    + rewrite Forall_app, Forall_singleton in Hl1. destruct Hl1 as [_ Ha].
      rewrite <- (app_assoc l1 [a] l2). simpl.
      rewrite insertIndex_found; [|lia|done].
      rewrite (cons_middle a l1 l2), app_assoc.
      replace (S (length l1)) with (length (l1 ++ [a]))
        by (rewrite length_app; simpl; lia).
      apply splice_in_middle.
Qed.

Lemma undo_redo_restores_witness :
  let s := run [draws "u1" [(0,0);(10,10)] 1; draws "u2" [(50,50);(60,60)] 2;
                draws "u1" [(90,0);(99,9)] 3] in
  reachable s ∧
  success (undo s "u2").2 = true ∧
  success (redo (undo s "u2").1 "u2").2 = true ∧
  StronglySorted Z.lt (timestamp <$> ops s) ∧
  ops (redo (undo s "u2").1 "u2").1 ≡ₚ ops s ∧
  undoStack (redo (undo s "u2").1 "u2").1 = undoStack s ∧
  ops (redo (undo s "u2").1 "u2").1 = ops s.
Proof.
  intros s.
  assert (Hr : reachable s) by (by eexists).
  assert (H1 : success (undo s "u2").2 = true) by (by vm_compute).
  assert (H2 : success (redo (undo s "u2").1 "u2").2 = true) by (by vm_compute).
  assert (Hs : StronglySorted Z.lt (timestamp <$> ops s)).
  { vm_compute. repeat constructor. }
  destruct (undo_redo_restores s "u2" Hr H1 H2) as (Hp & Hst & Hord).
  split_and!; [exact Hr|exact H1|exact H2|exact Hs|exact Hp|exact Hst|].
  apply (Hord (entry "u2" (stroke [(50,50);(60,60)] 4) 2 2)); [by vm_compute|done|].
  left. exists (entry "u1" (stroke [(0,0);(10,10)] 4) 1 1).
  split; [|by vm_compute]. vm_compute. left.
Defined.

(** C1, as stated, fails: two strokes received within the same millisecond
    carry the same timestamp, and undoing then redoing the first one puts
    it back behind the second. *)
Lemma undo_redo_swaps_equal_timestamps :
  let s := run [draws "u1" [(0,0);(10,10)] 5; draws "u2" [(50,50);(60,60)] 5] in
  reachable s ∧
  success (undo s "u1").2 = true ∧
  success (redo (undo s "u1").1 "u1").2 = true ∧
  opId <$> ops s = [1; 2] ∧
  opId <$> ops (redo (undo s "u1").1 "u1").1 = [2; 1] ∧
  ops (redo (undo s "u1").1 "u1").1 ≠ ops s.
Proof.
  intros s. split; [by eexists|]. by vm_compute.
Qed.

(** ** Timestamp order of [ops] *)

(** The slip in [redo]: [insertIndex] starts at [ops.length], and the loop
    only assigns it when it meets an operation that is not newer than the
    candidate. When every operation of [ops] is newer, the candidate, which
    belongs in front, is appended. *)
Lemma redo_appends_when_all_newer s u op :
  findUndone (undoStack s) u = Some op →
  redoBlocked (ops s) op = false →
  Forall (λ e, timestamp op < timestamp e) (ops s) →
  ops (redo s u).1 = ops s ++ [op].
Proof.
  intros Hf Hb Hall.
  destruct (redo_cases s u)
    as [[Hno _]|(op' & Hf' & [[Hb' E]|[_ E]])].
  - apply findUndone_Some in Hf as [Hin Hu]. by destruct (Hno op).
  - congruence.
  - rewrite E. simpl. replace op' with op by congruence.
    rewrite insertIndex_all_newer by done.
    unfold splice_in. by rewrite take_ge, drop_ge by lia.
Qed.

(** What does keep [ops] in timestamp order: [addOperation] under a clock
    that is not behind the log, [undo], and a [redo] that meets an
    operation not newer than its candidate. *)
Lemma addOperation_keeps_sorted s input now :
  StronglySorted Z.le (timestamp <$> ops s) →
  Forall (λ o, timestamp o ≤ now) (ops s) →
  StronglySorted Z.le (timestamp <$> ops (addOperation s input now).1).
Proof.
  intros Hs Hnow. simpl. rewrite fmap_app. simpl.
  apply StronglySorted_app_2; [|done|repeat constructor].
  intros t1 t2 (o & -> & Ho)%list_elem_of_fmap ->%list_elem_of_singleton.
  rewrite Forall_forall in Hnow. by apply Hnow.
Qed.

Lemma undo_keeps_sorted s u :
  StronglySorted Z.le (timestamp <$> ops s) →
  StronglySorted Z.le (timestamp <$> ops (undo s u).1).
Proof.
  intros Hs.
  destruct (undo_cases s u) as [[_ ->]|(ids & k & o & _ & Hf & ->)]; [done|].
  simpl. apply list_find_Some in Hf as (Hk & _ & _).
  rewrite <- (take_drop_middle _ _ _ Hk) in Hs.
  rewrite delete_take_drop.
  rewrite fmap_app in Hs |- *. rewrite fmap_cons in Hs.
  apply StronglySorted_app in Hs as (H12 & H1 & H2).
  apply StronglySorted_inv in H2 as [H2 _].
  apply StronglySorted_app_2; [|done|done].
  intros t1 t2 Ht1 Ht2. apply H12; [done|by right].
Qed.

Lemma split_at_last_not_newer (l : list Op) t :
  (∃ e, e ∈ l ∧ timestamp e ≤ t) →
  ∃ l1 e l2, l = l1 ++ e :: l2 ∧ timestamp e ≤ t ∧
             Forall (λ o, t < timestamp o) l2.
Proof.
  induction l as [|a l IH] using rev_ind; intros (e & He & Hle).
  { by apply elem_of_nil in He. }
  destruct (decide (timestamp a ≤ t)) as [Ha|Ha].
  { exists l, a, []. by split_and!. }
  apply elem_of_app in He as [He| ->%list_elem_of_singleton]; [|done].
  destruct IH as (l1 & e' & l2 & -> & He' & Hl2); [by exists e|].
  exists l1, e', (l2 ++ [a]). split_and!; [by rewrite <- app_assoc|done|].
  apply Forall_app. split; [done|]. apply Forall_singleton. lia.
Qed.

Lemma redo_keeps_sorted_when_found s u op :
  StronglySorted Z.le (timestamp <$> ops s) →
  res_op (redo s u).2 = Some op →
  (∃ e, e ∈ ops s ∧ timestamp e ≤ timestamp op) ∨ ops s = [] →
  StronglySorted Z.le (timestamp <$> ops (redo s u).1).
Proof.
  intros Hs.
  destruct (redo_cases s u)
    as [[_ (msg & _ & ->)]|(op' & _ & [[_ ->]|[_ ->]])]; simpl; try done.
  intros [= ->] [Hex|Hnil].
  - apply split_at_last_not_newer in Hex as (l1 & e & l2 & E & He & Hl2).
    rewrite E in Hs |- *. rewrite insertIndex_found by done.
    rewrite (cons_middle e l1 l2), app_assoc.
    replace (S (length l1)) with (length (l1 ++ [e]))
      by (rewrite length_app; simpl; lia).
    rewrite splice_in_middle.
    rewrite (cons_middle e l1 l2), app_assoc, fmap_app in Hs.
    apply StronglySorted_app in Hs as (H12 & H1 & H2).
    rewrite fmap_app, fmap_cons.
    assert (Hl1 : ∀ t1, t1 ∈ timestamp <$> l1 ++ [e] → t1 ≤ timestamp e).
    { intros t1. rewrite fmap_app.
      intros [Ht1| ->%list_elem_of_singleton]%elem_of_app; [|done].
      rewrite fmap_app in H1. apply StronglySorted_app in H1 as (H1 & _ & _).
      apply H1; [done|left]. }
    apply StronglySorted_app_2; [|done|].
    + intros t1 t2 Ht1%Hl1 [->|(o & -> & Ho)%list_elem_of_fmap]%elem_of_cons;
        [lia|].
      rewrite Forall_forall in Hl2. apply Hl2 in Ho. lia.
    + constructor; [done|]. rewrite Forall_fmap.
      eapply Forall_impl; [exact Hl2|]. simpl. intros; lia.
  - rewrite Hnil. simpl. repeat constructor.
Qed.

(** C4 fails on the code. The clock readings below are ascending; the
    first author undoes and redoes the older of two strokes that do not
    overlap, and [redo] puts it back behind the newer one. The comment in
    [redo], "Find correct position to reinsert (maintain chronological
    order)", states the intent that the loop misses. *)
Theorem redo_breaks_timestamp_order :
  let cs := [draws "u1" [(0,0);(10,10)] 1; draws "u2" [(50,50);(60,60)] 2;
             CUndo "u1"; CRedo "u1"] in
  StronglySorted Z.lt (clockReadings cs) ∧
  timestamp <$> ops (run (take 2 cs)) = [1; 2] ∧
  timestamp <$> ops (run cs) = [2; 1] ∧
  ¬ Sorted Z.le (timestamp <$> ops (run cs)).
Proof.
  intros cs. split_and!.
  - vm_compute. repeat constructor.
  - by vm_compute.
  - by vm_compute.
  - vm_compute. intros H.
    apply Sorted_inv in H as [_ H]. apply HdRel_inv in H. by apply H.
Qed.

(** ** Timestamps and identities handed out by [addOperation] *)

Lemma nextOpId_step s c : nextOpId s ≤ nextOpId (step s c).
Proof.
  destruct c as [input now|u|u]; simpl.
  - lia.
  - destruct (undo_cases s u) as [[_ ->]|(ids & k & o & _ & _ & ->)];
      simpl; lia.
  - destruct (redo_cases s u)
      as [[_ (msg & _ & ->)]|(op & _ & [[_ ->]|[_ ->]])]; simpl; lia.
Qed.

Lemma assigned_timestamps s cs :
  timestamp <$> assigned s cs = clockReadings cs.
Proof.
  revert s. induction cs as [|[input now|u|u] cs IH]; intros s; simpl;
    [done| |apply IH|apply IH].
  unfold clockReadings. simpl. f_equal. apply IH.
Qed.

Lemma assigned_opIds s cs :
  Forall (λ o, nextOpId s ≤ opId o) (assigned s cs) ∧
  StronglySorted Z.lt (opId <$> assigned s cs).
Proof.
  revert s. induction cs as [|c cs IH]; intros s; simpl.
  { split; constructor. }
  assert (Hstep : Forall (λ o, nextOpId s ≤ opId o) (assigned (step s c) cs)).
  { destruct (IH (step s c)) as [H _].
    eapply Forall_impl; [exact H|]. simpl. intros o Ho.
    pose proof (nextOpId_step s c). lia. }
  destruct c as [input now|u|u]; simpl.
  - destruct (IH (addOperation s input now).1) as [H1 H2]. simpl in H1.
    split.
    + constructor; [simpl; lia|].
      eapply Forall_impl; [exact H1|]. simpl. intros; lia.
    + constructor; [done|]. simpl.
      rewrite Forall_fmap. eapply Forall_impl; [exact H1|].
      simpl. intros; lia.
  - split; [done|]. apply IH.
  - split; [done|]. apply IH.
Qed.

(** C5, as amended. The timestamp [addOperation] assigns is the clock
    reading of the call, whatever the calls in between. So along any
    history whose clock never goes backwards, each new timestamp is greater
    than or equal to every timestamp assigned before it in this log; the
    identities are the ones that increase strictly. *)
Theorem addOperation_timestamps_follow_clock cs :
  timestamp <$> assigned newDrawingState cs = clockReadings cs ∧
  StronglySorted Z.lt (opId <$> assigned newDrawingState cs) ∧
  (StronglySorted Z.le (clockReadings cs) →
   StronglySorted Z.le (timestamp <$> assigned newDrawingState cs)).
Proof.
  split_and!.
  - apply assigned_timestamps.
  - apply assigned_opIds.
  - by rewrite assigned_timestamps.
Qed.

Lemma addOperation_timestamps_follow_clock_witness :
  let cs := [draws "u1" [(0,0);(10,10)] 7; CUndo "u1";
             draws "u2" [(50,50);(60,60)] 7; CRedo "u1";
             draws "u1" [(0,0);(10,10)] 9] in
  StronglySorted Z.le (clockReadings cs) ∧
  StronglySorted Z.le (timestamp <$> assigned newDrawingState cs).
Proof.
  intros cs.
  assert (H : StronglySorted Z.le (clockReadings cs)).
  { vm_compute. repeat constructor; by intros [=]. }
  split; [exact H|].
  exact (proj2 (proj2 (addOperation_timestamps_follow_clock cs)) H).
Defined.

(** C5, as stated, fails: two strokes added within the same millisecond
    receive the same timestamp. *)
Lemma addOperation_equal_timestamps :
  let '(s1, a) := addOperation newDrawingState
                    {| in_userId := "u1"; in_op := stroke [(0,0);(10,10)] 4 |} 7 in
  let '(s2, b) := addOperation s1
                    {| in_userId := "u2"; in_op := stroke [(50,50);(60,60)] 4 |} 7 in
  timestamp a = 7 ∧ timestamp b = 7 ∧ ¬ (timestamp a < timestamp b).
Proof. vm_compute. split_and!; [done|done|]. by intros [=]. Qed.

(** ** [canRedo] in the results of [undo] and [redo] *)

Lemma opsOf_snoc_ne u l o : userId o = u → opsOf u (l ++ [o]) ≠ [].
Proof.
  intros H. unfold opsOf. rewrite filter_app, filter_cons_True by done.
  by destruct (filter _ l).
Qed.

(** Where the reported [canRedo] can be relied on. In a reachable log and
    for the requester [u]:
    - a successful [undo] reports [canRedo = true], and an undone
      operation of [u] is on the undo stack;
    - a [redo] that finds nothing to redo reports [canRedo = false], and
      no undone operation of [u] is on the undo stack;
    - a [redo] that ends in a conflict reports [canRedo = false] although
      the candidate of [u] stays on the undo stack;
    - in every result of [undo] and [redo], conflicts apart, a [canRedo]
      of false means that no undone operation of [u] is left.
    Nothing is said of a [canRedo] of true after a failed [undo] or a
    successful [redo]: these two report the undone operations of any
    user. *)
Lemma canRedo_reports s u :
  reachable s →
  (success (undo s u).2 = true →
     canRedo (undo s u).2 = Some true ∧
     opsOf u (undoStack (undo s u).1) ≠ []) ∧
  (isNothingToRedo (redo s u).2 →
     canRedo (redo s u).2 = Some false ∧
     opsOf u (undoStack (redo s u).1) = []) ∧
  (isRedoConflict (redo s u).2 →
     canRedo (redo s u).2 = Some false ∧
     opsOf u (undoStack (redo s u).1) ≠ []) ∧
  (canRedo (undo s u).2 = Some false →
     opsOf u (undoStack (undo s u).1) = []) ∧
  (¬ isRedoConflict (redo s u).2 → canRedo (redo s u).2 = Some false →
     opsOf u (undoStack (redo s u).1) = []).
Proof.
  intros Hwf%reachable_wf. split_and!.
  - intros Hs.
    destruct (undo_success_inv s u Hwf Hs) as (l1 & o & l2 & _ & Hown & _ & _ & ->).
    split; [|by apply opsOf_snoc_ne].
    destruct (undo_cases s u) as [[_ E]|(ids & k & o' & _ & _ & E)];
      rewrite E in Hs |- *; done.
  - intros [Hs Hm].
    destruct (redo_cases s u)
      as [[Hno (msg & _ & E)]|(op & Hf & [[_ E]|[_ E]])];
      rewrite E in Hs, Hm |- *; simpl in *.
    + split; [done|]. by apply opsOf_nil.
    + destruct Hm; simplify_eq.
    + done.
  - intros (E & op & Hf & _)%redo_conflict_inv. rewrite E. simpl.
    split; [done|]. apply findUndone_Some in Hf as [Hin Hown].
    intros Hnil. rewrite opsOf_nil in Hnil. by apply (Hnil op).
  - destruct (undo_cases s u) as [[_ E]|(ids & k & o' & _ & _ & E)];
      rewrite E; simpl; [|done].
    intros [= Hb]. apply bool_decide_eq_false in Hb.
    destruct (undoStack s); [done|]. simpl in Hb. lia.
  - intros Hnc.
    destruct (redo_cases s u)
      as [[Hno (msg & _ & E)]|(op & Hf & [[_ E]|[_ E]])];
      rewrite E in Hnc |- *; simpl in *.
    + intros _. by apply opsOf_nil.
    + destruct Hnc. by split.
    + intros [= Hb]. apply bool_decide_eq_false in Hb.
      destruct (pop (undoStack s)); [done|]. simpl in Hb. lia.
Qed.

Lemma canRedo_reports_witness :
  let s := run [draws "u1" [(0,0);(10,10)] 1; draws "u2" [(5,5);(20,20)] 2] in
  let s1 := (undo s "u1").1 in
  let s2 := (undo s "u2").1 in
  reachable s ∧ reachable s1 ∧ reachable s2 ∧
  success (undo s "u1").2 = true ∧
  isRedoConflict (redo s1 "u1").2 ∧
  isNothingToRedo (redo s1 "u2").2 ∧
  canRedo (undo s "u3").2 = Some false ∧
  ¬ isRedoConflict (redo s2 "u2").2 ∧
  canRedo (redo s2 "u2").2 = Some false ∧
  (canRedo (undo s "u1").2 = Some true ∧
   opsOf "u1" (undoStack (undo s "u1").1) ≠ []) ∧
  (canRedo (redo s1 "u1").2 = Some false ∧
   opsOf "u1" (undoStack (redo s1 "u1").1) ≠ []) ∧
  (canRedo (redo s1 "u2").2 = Some false ∧
   opsOf "u2" (undoStack (redo s1 "u2").1) = []) ∧
  opsOf "u3" (undoStack (undo s "u3").1) = [] ∧
  opsOf "u2" (undoStack (redo s2 "u2").1) = [].
Proof.
  intros s s1 s2.
  assert (Hr : reachable s) by (by eexists).
  assert (Hr1 : reachable s1) by (apply (reachable_step s (CUndo "u1") Hr)).
  assert (Hr2 : reachable s2) by (apply (reachable_step s (CUndo "u2") Hr)).
  assert (H1 : success (undo s "u1").2 = true) by (by vm_compute).
  assert (H2 : isRedoConflict (redo s1 "u1").2) by (split; by vm_compute).
  assert (H3 : isNothingToRedo (redo s1 "u2").2).
  { split; [by vm_compute|]. right. by vm_compute. }
  assert (H4 : canRedo (undo s "u3").2 = Some false) by (by vm_compute).
  assert (H5 : ¬ isRedoConflict (redo s2 "u2").2).
  { intros [H _]. vm_compute in H. discriminate H. }
  assert (H6 : canRedo (redo s2 "u2").2 = Some false) by (by vm_compute).
  refine (conj Hr (conj Hr1 (conj Hr2 (conj H1 (conj H2 (conj H3 (conj H4
            (conj H5 (conj H6 (conj _ (conj _ (conj _ (conj _ _))))))))))))).
  - exact (proj1 (canRedo_reports s "u1" Hr) H1).
  - exact (proj1 (proj2 (proj2 (canRedo_reports s1 "u1" Hr1))) H2).
  - exact (proj1 (proj2 (canRedo_reports s1 "u2" Hr1)) H3).
  - exact (proj1 (proj2 (proj2 (proj2 (canRedo_reports s "u3" Hr)))) H4).
  - exact (proj2 (proj2 (proj2 (proj2 (canRedo_reports s2 "u2" Hr2)))) H5 H6).
Defined.

(** After a conflict [canRedo] is false while the requester's undone
    stroke is still on the undo stack. *)
Lemma canRedo_false_on_conflict :
  let s := run [draws "u1" [(0,0);(10,10)] 1; draws "u2" [(5,5);(20,20)] 2;
                CUndo "u1"] in
  isRedoConflict (redo s "u1").2 ∧
  canRedo (redo s "u1").2 = Some false ∧
  opId <$> opsOf "u1" (undoStack (redo s "u1").1) = [1].
Proof. intros s. split_and!; [split| |]; by vm_compute. Qed.

(** C6 fails on the code. Two users each draw a stroke and each undo it.
    - [redo] by "u2" succeeds and reports [canRedo = true], although no
      undone operation of "u2" is left on the undo stack: what is left is
      the stroke of "u1".
    - [undo] by "u3", who has nothing applied, fails and reports
      [canRedo = true], although "u3" has no undone operation at all.
    Both results report [undoStack.length > 0], the undone operations of
    any user. [getSnapshot], on the very states these calls return, filters
    the stack by author and reports [canRedo = false]. *)
Theorem canRedo_counts_other_authors :
  let s := run [draws "u1" [(0,0);(10,10)] 1; draws "u2" [(50,50);(60,60)] 2;
                CUndo "u1"; CUndo "u2"] in
  (success (redo s "u2").2 = true ∧
   canRedo (redo s "u2").2 = Some true ∧
   opsOf "u2" (undoStack (redo s "u2").1) = [] ∧
   snap_canRedo (getSnapshot (redo s "u2").1 (Some "u2")) = false) ∧
  (success (undo s "u3").2 = false ∧
   canRedo (undo s "u3").2 = Some true ∧
   opsOf "u3" (undoStack (undo s "u3").1) = [] ∧
   snap_canRedo (getSnapshot (undo s "u3").1 (Some "u3")) = false).
Proof. by vm_compute. Qed.

(** ** The overlap test *)

Lemma foldr_min_shift a p (xs : list Z) :
  foldr Z.min (Z.min a p) xs = Z.min p (foldr Z.min a xs).
Proof. induction xs as [|c xs IH]; simpl; lia. Qed.

Lemma foldr_max_shift a p (xs : list Z) :
  foldr Z.max (Z.max a p) xs = Z.max p (foldr Z.max a xs).
Proof. induction xs as [|c xs IH]; simpl; lia. Qed.

Lemma foldr_min_le a (xs : list Z) :
  foldr Z.min a xs ≤ a ∧ Forall (λ c, foldr Z.min a xs ≤ c) xs.
Proof.
  induction xs as [|c xs [IH1 IH2]]; simpl; [by split|].
  split; [lia|]. constructor; [lia|].
  eapply Forall_impl; [exact IH2|]. simpl. intros; lia.
Qed.

Lemma foldr_max_ge a (xs : list Z) :
  a ≤ foldr Z.max a xs ∧ Forall (λ c, c ≤ foldr Z.max a xs) xs.
Proof.
  induction xs as [|c xs [IH1 IH2]]; simpl; [by split|].
  split; [lia|]. constructor; [lia|].
  eapply Forall_impl; [exact IH2|]. simpl. intros; lia.
Qed.

(** [bbox] is a bounding box: it contains every point of the path, and it
    is not empty. *)
Lemma bbox_contains pts q : q ∈ pts → inBox (bbox pts) q.
Proof.
  destruct pts as [|q0 pts]; [by intros ?%elem_of_nil|].
  unfold inBox. simpl.
  destruct (foldr_min_le q0.1 (fst <$> pts)) as [Hx0 Hx0'].
  destruct (foldr_max_ge q0.1 (fst <$> pts)) as [Hx1 Hx1'].
  destruct (foldr_min_le q0.2 (snd <$> pts)) as [Hy0 Hy0'].
  destruct (foldr_max_ge q0.2 (snd <$> pts)) as [Hy1 Hy1'].
  intros [->|Hq]%elem_of_cons; [lia|].
  rewrite Forall_forall in Hx0', Hx1', Hy0', Hy1'.
  pose proof (Hx0' q.1 (list_elem_of_fmap_2 fst _ _ Hq)).
  pose proof (Hx1' q.1 (list_elem_of_fmap_2 fst _ _ Hq)).
  pose proof (Hy0' q.2 (list_elem_of_fmap_2 snd _ _ Hq)).
  pose proof (Hy1' q.2 (list_elem_of_fmap_2 snd _ _ Hq)).
  lia.
Qed.

Lemma bbox_nonempty pts : x0 (bbox pts) ≤ x1 (bbox pts) ∧ y0 (bbox pts) ≤ y1 (bbox pts).
Proof.
  destruct pts as [|q0 pts]; simpl; [lia|].
  destruct (foldr_min_le q0.1 (fst <$> pts)) as [Hx0 _].
  destruct (foldr_max_ge q0.1 (fst <$> pts)) as [Hx1 _].
  destruct (foldr_min_le q0.2 (snd <$> pts)) as [Hy0 _].
  destruct (foldr_max_ge q0.2 (snd <$> pts)) as [Hy1 _].
  lia.
Qed.

(** On a path of finite points [getPathBoundingBox] computes [bbox]. *)
Lemma getPathBoundingBox_fin_from a b c d pts :
  foldl (λ bx point, {| minX := num_min (minX bx) (x point);
                        maxX := num_max (maxX bx) (x point);
                        minY := num_min (minY bx) (y point);
                        maxY := num_max (maxY bx) (y point) |})
        {| minX := Fin a; maxX := Fin b; minY := Fin c; maxY := Fin d |}
        (toPoint <$> pts)
  = {| minX := Fin (foldr Z.min a (fst <$> pts));
       maxX := Fin (foldr Z.max b (fst <$> pts));
       minY := Fin (foldr Z.min c (snd <$> pts));
       maxY := Fin (foldr Z.max d (snd <$> pts)) |}.
Proof.
  revert a b c d. induction pts as [|q pts IH]; intros a b c d; [done|].
  simpl. rewrite IH.
  by rewrite !foldr_min_shift, !foldr_max_shift.
Qed.

Lemma getPathBoundingBox_fin q pts :
  getPathBoundingBox (toPoint <$> q :: pts)
  = {| minX := Fin (x0 (bbox (q :: pts))); maxX := Fin (x1 (bbox (q :: pts)));
       minY := Fin (y0 (bbox (q :: pts))); maxY := Fin (y1 (bbox (q :: pts))) |}.
Proof.
  unfold getPathBoundingBox. simpl.
  apply getPathBoundingBox_fin_from.
Qed.

Lemma num_or_width w : num_or (Fin w) (Fin 4) = Fin (strokeWidth w).
Proof.
  unfold num_or, strokeWidth, truthy. by destruct (bool_decide (w = 0)).
Qed.

Lemma roundZ_exact z : - 2 ^ 53 ≤ z ≤ 2 ^ 53 → roundZ z = Fin z.
Proof.
  intros Hz. unfold roundZ. rewrite bool_decide_eq_true_2; [done|lia].
Qed.

Lemma foldr_min_range lo hi a (xs : list Z) :
  lo ≤ a ≤ hi → Forall (λ c, lo ≤ c ≤ hi) xs → lo ≤ foldr Z.min a xs ≤ hi.
Proof. intros Ha. induction 1; simpl; lia. Qed.

Lemma foldr_max_range lo hi a (xs : list Z) :
  lo ≤ a ≤ hi → Forall (λ c, lo ≤ c ≤ hi) xs → lo ≤ foldr Z.max a xs ≤ hi.
Proof. intros Ha. induction 1; simpl; lia. Qed.

(** The box of a path of safe points has safe bounds. *)
Lemma bbox_safe pts :
  Forall safePoint pts →
  (safeCoord (x0 (bbox pts)) ∧ safeCoord (x1 (bbox pts))) ∧
  (safeCoord (y0 (bbox pts)) ∧ safeCoord (y1 (bbox pts))).
Proof.
  destruct pts as [|q pts]; [intros _; unfold safeCoord; simpl; lia|].
  rewrite Forall_cons. intros [[Hq1 Hq2] Hs].
  assert (H1 : Forall (λ c, - 2 ^ 52 ≤ c ≤ 2 ^ 52) (fst <$> pts)).
  { rewrite Forall_fmap. eapply Forall_impl; [exact Hs|]. by intros ? [? _]. }
  assert (H2 : Forall (λ c, - 2 ^ 52 ≤ c ≤ 2 ^ 52) (snd <$> pts)).
  { rewrite Forall_fmap. eapply Forall_impl; [exact Hs|]. by intros ? [_ ?]. }
  unfold safeCoord in *. simpl.
  split; split.
  - by apply foldr_min_range.
  - by apply foldr_max_range.
  - by apply foldr_min_range.
  - by apply foldr_max_range.
Qed.

(** C9, as amended. For two operations whose paths have at least two
    points with integer coordinates of magnitude at most 2^52, and whose
    stroke widths are integers from 0 to 2^52 (so that the additions of the
    test are exact), [operationsOverlap] holds exactly when the bounding
    box of the first, expanded on every side by the greater of the two
    stroke widths (a width of 0 counting as 4), shares a point with the
    bounding box of the second, which is not expanded. *)
Theorem operationsOverlap_one_box_expanded op1 op2 pts1 pts2 w1 w2 :
  path op1 = Some (toPoint <$> pts1) →
  path op2 = Some (toPoint <$> pts2) →
  (2 ≤ length pts1)%nat → (2 ≤ length pts2)%nat →
  Forall safePoint pts1 → Forall safePoint pts2 →
  width op1 = Fin w1 → width op2 = Fin w2 →
  0 ≤ w1 ≤ 2 ^ 52 → 0 ≤ w2 ≤ 2 ^ 52 →
  operationsOverlap op1 op2 = true ↔ overlap_one_expanded pts1 pts2 w1 w2.
Proof.
  intros Hp1 Hp2 Hl1 Hl2 Hs1 Hs2 Hw1 Hw2 Hw1' Hw2'.
  unfold operationsOverlap, overlap_one_expanded.
  rewrite Hp1, Hp2, Hw1, Hw2, !length_fmap, !num_or_width.
  rewrite !bool_decide_eq_false_2 by lia. simpl orb. cbv iota.
  pose proof (bbox_safe pts1 Hs1) as [[Sa1 Sb1] [Sc1 Sd1]].
  pose proof (bbox_safe pts2 Hs2) as [[Sa2 Sb2] [Sc2 Sd2]].
  pose proof (bbox_nonempty pts1) as [Hx1 Hy1].
  pose proof (bbox_nonempty pts2) as [Hx2 Hy2].
  destruct pts1 as [|q1 pts1]; [simpl in Hl1; lia|].
  destruct pts2 as [|q2 pts2]; [simpl in Hl2; lia|].
  rewrite !getPathBoundingBox_fin.
  set (b1 := bbox (q1 :: pts1)) in *. set (b2 := bbox (q2 :: pts2)) in *.
  assert (Hp : 0 < Z.max (strokeWidth w1) (strokeWidth w2) ≤ 2 ^ 52).
  { unfold strokeWidth. repeat case_bool_decide; lia. }
  set (p := Z.max (strokeWidth w1) (strokeWidth w2)) in *.
  unfold safeCoord in *.
  cbn [num_max num_add minX maxX minY maxY].
  rewrite !roundZ_exact by lia.
  cbn [num_lt].
  rewrite negb_true_iff, !orb_false_iff, !bool_decide_eq_false.
  unfold boxes_intersect, inBox, expand. simpl.
  split.
  - intros (((Ha & Hb) & Hc) & Hd).
    exists (Z.max (x0 b1 - p) (x0 b2), Z.max (y0 b1 - p) (y0 b2)).
    subst b1 b2. simpl in *. lia.
  - intros ([qx qy] & H1 & H2). subst b1 b2. simpl in *. lia.
Qed.

Lemma operationsOverlap_one_box_expanded_witness :
  let a := entry "u1" (stroke [(0, 0); (10, 0)] 4) 1 1 in
  let b := entry "u2" (stroke [(14, 0); (26, 0)] 0) 2 2 in
  (2 ≤ length [(0, 0); (10, 0)])%nat ∧ (2 ≤ length [(14, 0); (26, 0)])%nat ∧
  Forall safePoint [(0, 0); (10, 0)] ∧ Forall safePoint [(14, 0); (26, 0)] ∧
  0 ≤ 4 ≤ 2 ^ 52 ∧ 0 ≤ 0 ≤ 2 ^ 52 ∧
  (operationsOverlap a b = true ↔
   overlap_one_expanded [(0, 0); (10, 0)] [(14, 0); (26, 0)] 4 0) ∧
  operationsOverlap a b = true.
Proof.
  intros a b.
  assert (H1 : (2 ≤ length [(0, 0); (10, 0)])%nat) by (simpl; lia).
  assert (H2 : (2 ≤ length [(14, 0); (26, 0)])%nat) by (simpl; lia).
  assert (S1 : Forall safePoint [(0, 0); (10, 0)]).
  { repeat constructor; simpl; lia. }
  assert (S2 : Forall safePoint [(14, 0); (26, 0)]).
  { repeat constructor; simpl; lia. }
  assert (H3 : 0 ≤ 4 ≤ 2 ^ 52) by lia.
  assert (H4 : 0 ≤ 0 ≤ 2 ^ 52) by lia.
  refine (conj H1 (conj H2 (conj S1 (conj S2 (conj H3 (conj H4 (conj _ _))))))).
  - exact (operationsOverlap_one_box_expanded a b _ _ 4 0
             eq_refl eq_refl H1 H2 S1 S2 eq_refl eq_refl H3 H4).
  - by vm_compute.
Defined.

(** Out of that range the test is not the geometric one: at 2^53 the sum
    [maxX + padding] is rounded. The boxes below are 4 apart and the
    padding is 3, yet 2^53 + 3 rounds to 2^53 + 4 and the strokes are
    reported as overlapping. *)
Example operationsOverlap_rounds_beyond_2_53 :
  let a := entry "u1" (stroke [(0, 0); (2 ^ 53, 0)] 3) 1 1 in
  let b := entry "u2" (stroke [(2 ^ 53 + 4, 0); (2 ^ 53 + 8, 0)] 3) 2 2 in
  operationsOverlap a b = true ∧
  ¬ overlap_one_expanded [(0, 0); (2 ^ 53, 0)]
                         [(2 ^ 53 + 4, 0); (2 ^ 53 + 8, 0)] 3 3.
Proof.
  intros a b. split; [by vm_compute|].
  intros ([qx qy] & H1 & H2). unfold inBox in *. simpl in *.
  change (strokeWidth 3) with 3 in H1. lia.
Qed.

(** C9, as stated, fails: two strokes of width 4 whose boxes are 6 apart.
    Each box expanded by 4 reaches the other one expanded by 4, yet
    [operationsOverlap] compares the gap with the padding taken once and
    answers false. *)
Lemma operationsOverlap_not_both_expanded :
  let a := entry "u1" (stroke [(0, 0); (10, 0)] 4) 1 1 in
  let b := entry "u2" (stroke [(16, 0); (26, 0)] 4) 2 2 in
  operationsOverlap a b = false ∧
  overlap_both_expanded [(0, 0); (10, 0)] [(16, 0); (26, 0)] 4 4.
Proof.
  intros a b. split; [by vm_compute|].
  exists (13, 0). unfold inBox. simpl. lia.
Qed.

(** ** The dispatcher *)

(** C8, as amended. A connection that is bound to no room gets a
    reply-only failure "Not in a room" for [undo], [redo] and [clear]: the
    reply goes to that connection alone and the server is unchanged. Its
    [draw] is dropped: the server is unchanged and nothing at all is sent,
    not even a reply. *)
Theorem unbound_requests srv h ws now :
  sockets srv !! h = Some ws →
  findBySocket (rooms srv) ws = None →
  handleMessage srv h MUndo now
    = (srv, [(h, OUndo false None None None "Not in a room" None)]) ∧
  handleMessage srv h MRedo now
    = (srv, [(h, ORedo false None None None "Not in a room" None)]) ∧
  handleMessage srv h MClear now
    = (srv, [(h, OClear false "Not in a room" None)]) ∧
  ∀ raw, handleMessage srv h (MDraw raw) now = (srv, []).
Proof.
  intros Hws Hroom. unfold handleMessage. rewrite Hws, Hroom. done.
Qed.

Lemma unbound_requests_witness :
  let srv := (connect newServer 0 "u1" "#e53935").1 in
  let ws := {| ws_userId := "u1"; ws_color := "#e53935"; ws_roomId := None;
               ws_readyState := OPEN; ws_isAlive := true |} in
  sockets srv !! 0%nat = Some ws ∧
  findBySocket (rooms srv) ws = None ∧
  handleMessage srv 0 MUndo 5
    = (srv, [(0%nat, OUndo false None None None "Not in a room" None)]) ∧
  handleMessage srv 0 MRedo 5
    = (srv, [(0%nat, ORedo false None None None "Not in a room" None)]) ∧
  handleMessage srv 0 MClear 5
    = (srv, [(0%nat, OClear false "Not in a room" None)]) ∧
  ∀ raw, handleMessage srv 0 (MDraw raw) 5 = (srv, []).
Proof.
  intros srv ws.
  assert (H1 : sockets srv !! 0%nat = Some ws) by (by vm_compute).
  assert (H2 : findBySocket (rooms srv) ws = None) by (by vm_compute).
  refine (conj H1 (conj H2 _)).
  exact (unbound_requests srv 0 ws 5 H1 H2).
Defined.

(** C8, as stated, fails: the [draw] of a connection that has joined no
    room is answered by nothing. *)
Lemma unbound_draw_gets_no_reply :
  let srv := (connect newServer 0 "u1" "#e53935").1 in
  (∃ ws, sockets srv !! 0%nat = Some ws ∧ findBySocket (rooms srv) ws = None) ∧
  (handleMessage srv 0 (MDraw (stroke [(0, 0); (10, 10)] 4)) 5).2 = [].
Proof.
  intros srv. split; [|by vm_compute].
  eexists. split; by vm_compute.
Qed.

(** C7, as amended. The server does not validate a [draw]: when the
    sender is bound to a room, whatever the payload (a path with fewer than
    two valid points, or none), [addOperation] appends one operation to the
    log of that room and that operation is sent as an [op] message to every
    open client of the room. Only the [draw] of a connection bound to no
    room changes nothing and sends nothing. *)
Theorem draw_is_not_validated srv h ws raw now :
  sockets srv !! h = Some ws →
  (∀ room, findBySocket (rooms srv) ws = Some room →
     let op := entry (ws_userId ws) raw (nextOpId (drawingState room)) now in
     (∃ room', rooms (handleMessage srv h (MDraw raw) now).1 !! room_id room
                 = Some room' ∧
               ops (drawingState room') = ops (drawingState room) ++ [op]) ∧
     (handleMessage srv h (MDraw raw) now).2
       = (λ c, (c, OOp op)) <$> openClients (sockets srv) room) ∧
  (findBySocket (rooms srv) ws = None →
     handleMessage srv h (MDraw raw) now = (srv, [])).
Proof.
  intros Hws. unfold handleMessage. rewrite Hws. split.
  - intros room Hroom. rewrite Hroom. simpl. split; [|done].
    eexists. split; [apply lookup_insert_eq|done].
  - by intros ->.
Qed.

Lemma draw_is_not_validated_witness :
  let srv0 := (connect newServer 0 "u1" "#e53935").1 in
  let ws0 := {| ws_userId := "u1"; ws_color := "#e53935"; ws_roomId := None;
                ws_readyState := OPEN; ws_isAlive := true |} in
  let srv := (handleMessage srv0 0 (MJoinRoom None) 100).1 in
  let ws := setRoomId (Some "default") ws0 in
  let room := {| room_id := "default"; clients := [0%nat];
                 drawingState := newDrawingState; lastActivity := 100;
                 userColors := {["u1" := "#e53935"]} |} in
  let op := entry "u1" emptyRaw 1 101 in
  sockets srv !! 0%nat = Some ws ∧
  findBySocket (rooms srv) ws = Some room ∧
  sockets srv0 !! 0%nat = Some ws0 ∧
  findBySocket (rooms srv0) ws0 = None ∧
  ((∃ room', rooms (handleMessage srv 0 (MDraw emptyRaw) 101).1 !! "default"
               = Some room' ∧
             ops (drawingState room') = [op]) ∧
   (handleMessage srv 0 (MDraw emptyRaw) 101).2
     = (λ c, (c, OOp op)) <$> openClients (sockets srv) room) ∧
  handleMessage srv0 0 (MDraw emptyRaw) 101 = (srv0, []).
Proof.
  intros srv0 ws0 srv ws room op.
  assert (H1 : sockets srv !! 0%nat = Some ws) by (by vm_compute).
  assert (H2 : findBySocket (rooms srv) ws = Some room) by (by vm_compute).
  assert (H3 : sockets srv0 !! 0%nat = Some ws0) by (by vm_compute).
  assert (H4 : findBySocket (rooms srv0) ws0 = None) by (by vm_compute).
  refine (conj H1 (conj H2 (conj H3 (conj H4 (conj _ _))))).
  - exact (proj1 (draw_is_not_validated srv 0 ws emptyRaw 101 H1) room H2).
  - exact (proj2 (draw_is_not_validated srv0 0 ws0 emptyRaw 101 H3) H4).
Defined.

(** C7, as stated, fails: a connection that has joined the default room
    sends a path of a single point; the stroke enters the log and is
    broadcast. *)
Lemma short_path_reaches_log :
  let srv := (handleMessage (connect newServer 0 "u1" "#e53935").1 0
                            (MJoinRoom None) 100).1 in
  let raw := stroke [(5, 5)] 4 in
  (length (validPoints raw) < 2)%nat ∧
  ops ∘ drawingState <$> rooms srv !! "default" = Some [] ∧
  ops ∘ drawingState <$> rooms (handleMessage srv 0 (MDraw raw) 101).1 !! "default"
    = Some [entry "u1" raw 1 101] ∧
  (handleMessage srv 0 (MDraw raw) 101).2 = [(0%nat, OOp (entry "u1" raw 1 101))].
Proof.
  intros srv raw. split_and!; [vm_compute; lia|by vm_compute..].
Qed.

(** ** The undo stack under interleaved authors *)

(** [redo] looks its candidate up from the top of the undo stack downwards
    but removes the top entry with [undoStack.pop()]. When another author
    undid later, that author's entry is the one dropped, and the candidate
    is afterwards both in [ops] and on the undo stack. *)
Example redo_pops_the_top_entry :
  let s := run [draws "u1" [(0,0);(10,10)] 1; draws "u2" [(50,50);(60,60)] 2;
                CUndo "u1"; CUndo "u2"] in
  opId <$> undoStack s = [1; 2] ∧
  (opId <$> res_op (redo s "u1").2) = Some 1 ∧
  opId <$> ops (redo s "u1").1 = [1] ∧
  opId <$> undoStack (redo s "u1").1 = [1].
Proof. by vm_compute. Qed.

(** ** The scenarios of the specification *)

(** Scenario A: U1 draws A, U2 draws B; the snapshot holds [A, B] in that
    order and U1 can undo. Scenario B: U1 undoes A; [ops] is [B], U1 can
    no longer undo and can redo. *)
Example scenario_A_B :
  let s := run [draws "U1" [(0,0);(10,10)] 1; draws "U2" [(50,50);(60,60)] 2] in
  let snap := getSnapshot s (Some "U1") in
  let s' := (undo s "U1").1 in
  let snap' := getSnapshot s' (Some "U1") in
  (opId <$> snap_ops snap = [1; 2] ∧ snap_canUndo snap = true) ∧
  (opId <$> snap_ops snap' = [2] ∧ snap_canUndo snap' = false ∧
   snap_canRedo snap' = true).
Proof. by vm_compute. Qed.

(** Scenario C: after B, U2 draws C over the box of A; the redo of U1 now
    fails with a conflict and [ops] remains [B, C]. *)
Example scenario_C :
  let s := run [draws "U1" [(0,0);(10,10)] 1; draws "U2" [(50,50);(60,60)] 2;
                CUndo "U1"; draws "U2" [(5,5);(8,8)] 3] in
  message (redo s "U1").2 = "Cannot redo due to newer overlapping operations" ∧
  opId <$> ops (redo s "U1").1 = [2; 3].
Proof. by vm_compute. Qed.

(** ** The invariant of reachable servers *)

Lemma handleJoinRoom_state srv h ws roomId now :
  (handleJoinRoom srv h ws roomId now).1
  = enterRoom (leaveRoom srv h ws now).1 h (leaveRoom srv h ws now).2
              (roomName roomId) now.
Proof.
  unfold handleJoinRoom, leaveRoom, enterRoom, roomName.
  destruct (findBySocket (rooms srv) ws) as [oldRoom|]; simpl;
    by destruct (addClient _ h _ now).
Qed.

Lemma roomName_nonempty roomId : roomName roomId ≠ "".
Proof.
  unfold roomName. destruct roomId as [i|]; [|done].
  by case_bool_decide.
Qed.

Lemma findBySocket_Some m ws r :
  findBySocket m ws = Some r →
  ∃ i, ws_roomId ws = Some i ∧ i ≠ "" ∧ m !! i = Some r.
Proof.
  unfold findBySocket. destruct (ws_roomId ws) as [i|]; [|done].
  case_bool_decide; [done|]. eauto.
Qed.

Lemma findBySocket_bound srv h ws i :
  srv_ok srv → sockets srv !! h = Some ws → ws_roomId ws = Some i →
  ∃ r, findBySocket (rooms srv) ws = Some r ∧ rooms srv !! i = Some r ∧
       room_id r = i ∧ h ∈ clients r.
Proof.
  intros Hok Hws Hi.
  destruct (ok_bound _ Hok h ws i Hws Hi) as (r & Hr & Hh).
  destruct (ok_key _ Hok i r Hr) as [Hid Hne].
  exists r. split_and!; try done.
  unfold findBySocket. rewrite Hi. by rewrite bool_decide_eq_false_2.
Qed.

Lemma findBySocket_unbound srv h ws :
  srv_ok srv → sockets srv !! h = Some ws →
  findBySocket (rooms srv) ws = None → ws_roomId ws = None.
Proof.
  intros Hok Hws Hf. destruct (ws_roomId ws) as [i|] eqn:Hi; [|done].
  destruct (findBySocket_bound srv h ws i Hok Hws Hi) as (r & Hr & _).
  congruence.
Qed.

Lemma existsb_elem {A} (f : A → bool) (l : list A) a :
  a ∈ l → f a = true → existsb f l = true.
Proof.
  intros Ha Hf. apply existsb_exists. exists a.
  by rewrite <- list_elem_of_In.
Qed.

Lemma srv_ok_new : srv_ok newServer.
Proof. split; simpl; intros; simplify_map_eq. Qed.

Lemma srv_ok_connect srv h uid c :
  srv_ok srv → sockets srv !! h = None → srv_ok (connect srv h uid c).1.
Proof.
  intros [Hkey Hnd Hcl Hbd Hcol Hlog] Hfresh. split; simpl; try done.
  - intros i r h' Hr Hh'.
    destruct (Hcl i r h' Hr Hh') as (ws & Hws & Hi).
    exists ws. split; [|done].
    rewrite lookup_insert_ne; [done|]. intros ->. congruence.
  - intros h' ws i. rewrite lookup_insert.
    case_decide; [by intros [= <-]|]. apply Hbd.
  - intros i r h' ws Hr Hh'. rewrite lookup_insert.
    case_decide as Heq; [|by apply (Hcol i)]. subst h'.
    destruct (Hcl i r h Hr Hh') as (ws' & Hws' & _). congruence.
Qed.

(** Replacing the log of a room by a reachable log. *)
Lemma srv_ok_setDrawingState srv i room d :
  srv_ok srv → rooms srv !! i = Some room → reachable d →
  srv_ok (putRoom (setDrawingState d room) srv).
Proof.
  intros [Hkey Hnd Hcl Hbd Hcol Hlog] Hroom Hd.
  destruct (Hkey i room Hroom) as [Hid Hne].
  assert (Hlk : ∀ j r, rooms (putRoom (setDrawingState d room) srv) !! j
                       = Some r →
            ∃ r0, rooms srv !! j = Some r0 ∧ room_id r = room_id r0 ∧
                  clients r = clients r0 ∧ userColors r = userColors r0 ∧
                  (reachable (drawingState r))).
  { intros j r. simpl. rewrite Hid, lookup_insert.
    case_decide as Heq.
    - subst j. intros [= <-]. by exists room.
    - intros Hr. exists r. split_and!; try done. by eapply Hlog. }
  split.
  - intros j r (r0 & Hr0 & E1 & _)%Hlk. rewrite E1. by apply Hkey.
  - intros j r (r0 & Hr0 & _ & E2 & _)%Hlk. rewrite E2. by eapply Hnd.
  - intros j r h' (r0 & Hr0 & _ & E2 & _)%Hlk. rewrite E2. by apply Hcl.
  - intros h' ws j Hws Hj. simpl in Hws.
    destruct (Hbd h' ws j Hws Hj) as (r & Hr & Hh').
    simpl. rewrite Hid, lookup_insert. case_decide as Heq.
    + subst j. exists (setDrawingState d room). split; [done|].
      simpl. congruence.
    + by exists r.
  - intros j r h' ws (r0 & Hr0 & _ & E2 & E3 & _)%Hlk. rewrite E2, E3.
    simpl. by apply (Hcol j).
  - intros j r (r0 & _ & _ & _ & _ & H)%Hlk. done.
Qed.

Lemma elem_of_set_delete h c l : c ∈ set_delete h l ↔ c ≠ h ∧ c ∈ l.
Proof. unfold set_delete. by rewrite list_elem_of_filter. Qed.

(** Taking a socket out of its room keeps the invariant, and leaves the
    socket bound to no room. *)
Lemma leaveRoom_ok srv h ws now :
  srv_ok srv → sockets srv !! h = Some ws →
  srv_ok (leaveRoom srv h ws now).1 ∧
  sockets (leaveRoom srv h ws now).1 !! h = Some (leaveRoom srv h ws now).2 ∧
  ws_roomId (leaveRoom srv h ws now).2 = None ∧
  ws_userId (leaveRoom srv h ws now).2 = ws_userId ws ∧
  ws_color (leaveRoom srv h ws now).2 = ws_color ws.
Proof.
  intros Hok Hws. unfold leaveRoom.
  destruct (findBySocket (rooms srv) ws) as [room|] eqn:Hf; simpl.
  2:{ split_and!; try done. by eapply findBySocket_unbound. }
  apply findBySocket_Some in Hf as (i & Hi & Hne & Hroom).
  rewrite lookup_insert_eq. split_and!; try done.
  destruct Hok as [Hkey Hnd Hcl Hbd Hcol Hlog].
  destruct (Hkey i room Hroom) as [Hid _].
  (* a client of any room, after the removal, is another socket *)
  assert (Hother : ∀ j r c, rooms srv !! j = Some r → c ∈ clients r →
                            j ≠ i → c ≠ h).
  { intros j r c Hr Hc Hj ->.
    destruct (Hcl j r h Hr Hc) as (ws' & Hws' & Hj'). congruence. }
  split; simpl; rewrite Hid.
  - intros j r. rewrite lookup_insert. case_decide as Heq.
    + subst j. by intros [= <-].
    + apply Hkey.
  - intros j r. rewrite lookup_insert. case_decide as Heq.
    + subst j. intros [= <-]. simpl. apply NoDup_filter. by eapply Hnd.
    + apply Hnd.
  - intros j r c. rewrite lookup_insert. case_decide as Heq.
    + subst j. intros [= <-]. simpl. intros [Hc Hin]%elem_of_set_delete.
      rewrite lookup_insert_ne by done. by eapply Hcl.
    + intros Hr Hc. rewrite lookup_insert_ne by (symmetry; by eapply Hother).
      by eapply Hcl.
  - intros c wsc j. rewrite lookup_insert. case_decide as Heq.
    + subst c. by intros [= <-].
    + intros Hc Hj. destruct (Hbd c wsc j Hc Hj) as (r & Hr & Hin).
      rewrite lookup_insert. case_decide as Heq'.
      * subst j. eexists. split; [done|]. simpl.
        apply elem_of_set_delete. split; [done|]. congruence.
      * by exists r.
  - intros j r c wsc. rewrite lookup_insert. case_decide as Heq.
    + subst j. intros [= <-]. simpl. intros [Hc Hin]%elem_of_set_delete.
      rewrite lookup_insert_ne by done. intros Hwsc.
      pose proof (Hcol i room c wsc Hroom Hin Hwsc) as Hc'.
      destruct (existsb _ _) eqn:Hex; [done|].
      rewrite lookup_delete_ne; [done|]. intros Hu.
      rewrite (existsb_elem _ _ c) in Hex; [done| |].
      * by apply elem_of_set_delete.
      * rewrite Hwsc. by apply bool_decide_eq_true.
    + intros Hr Hc. rewrite lookup_insert_ne by (symmetry; by eapply Hother).
      by apply (Hcol j).
  - intros j r. rewrite lookup_insert. case_decide as Heq.
    + subst j. intros [= <-]. simpl. by eapply Hlog.
    + apply Hlog.
Qed.

(** [addClient] in one piece: the colour the socket ends with is the
    colour recorded for its author afterwards, and no recorded colour is
    changed. *)
Lemma addClient_eq r h ws now :
  ∃ colors col,
    addClient r h ws now
    = ({| room_id := room_id r; clients := set_add h (clients r);
          drawingState := drawingState r; lastActivity := now;
          userColors := colors |},
       {| ws_userId := ws_userId ws; ws_color := col;
          ws_roomId := Some (room_id r); ws_readyState := ws_readyState ws;
          ws_isAlive := ws_isAlive ws |}) ∧
    colors !! ws_userId ws = Some col ∧
    col = default (ws_color ws) (userColors r !! ws_userId ws) ∧
    (∀ v c, userColors r !! v = Some c → colors !! v = Some c) ∧
    (∀ v, v ≠ ws_userId ws → colors !! v = userColors r !! v).
Proof.
  unfold addClient.
  destruct (userColors r !! ws_userId ws) as [col|] eqn:Hc.
  - exists (userColors r), col. by split_and!.
  - exists (<[ws_userId ws := ws_color ws]> (userColors r)), (ws_color ws).
    split_and!; try done.
    + apply lookup_insert_eq.
    + intros v c Hv. rewrite lookup_insert_ne; [done|]. congruence.
    + intros v Hv. by rewrite lookup_insert_ne.
Qed.

(** Adding a socket that is bound to no room keeps the invariant, and
    binds the socket to the room it is added to. *)
Lemma enterRoom_ok srv h ws i now :
  srv_ok srv → sockets srv !! h = Some ws → ws_roomId ws = None → i ≠ "" →
  srv_ok (enterRoom srv h ws i now) ∧
  ∃ r ws', rooms (enterRoom srv h ws i now) !! i = Some r ∧
           sockets (enterRoom srv h ws i now) !! h = Some ws' ∧
           ws_roomId ws' = Some i ∧ ws_userId ws' = ws_userId ws ∧
           clients r = clients (default (newRoom i now) (rooms srv !! i)) ++ [h] ∧
           drawingState r
             = drawingState (default (newRoom i now) (rooms srv !! i)).
Proof.
  intros Hok Hws Hunbound Hne.
  destruct Hok as [Hkey Hnd Hcl Hbd Hcol Hlog].
  unfold enterRoom.
  set (room := match rooms srv !! i with Some r => r | None => newRoom i now end).
  assert (room = default (newRoom i now) (rooms srv !! i)) as Hroom_def
    by (subst room; by destruct (rooms srv !! i)).
  rewrite <- Hroom_def.
  (* what is known of the room, found or made *)
  assert (Hid : room_id room = i).
  { subst room. destruct (rooms srv !! i) as [r|] eqn:Hr; [|done].
    by apply (Hkey i r). }
  assert (Hrnd : NoDup (clients room)).
  { subst room. destruct (rooms srv !! i) as [r|] eqn:Hr; [by eapply Hnd|].
    constructor. }
  assert (Hrcl : ∀ c, c ∈ clients room → rooms srv !! i = Some room).
  { subst room. destruct (rooms srv !! i) as [r|] eqn:Hr; [done|].
    simpl. by intros c ?%elem_of_nil. }
  assert (Hsame : ∀ r, rooms srv !! i = Some r → r = room).
  { subst room. intros r Hr. by rewrite Hr. }
  assert (Hrlog : reachable (drawingState room)).
  { subst room. destruct (rooms srv !! i) as [r|] eqn:Hr; [by eapply Hlog|].
    by exists []. }
  assert (Hother : ∀ j r c, rooms srv !! j = Some r → c ∈ clients r → c ≠ h).
  { intros j r c Hr Hc ->.
    destruct (Hcl j r h Hr Hc) as (ws' & Hws' & Hj). congruence. }
  assert (Hnotin : h ∉ clients room).
  { intros Hin. by apply (Hother i room h (Hrcl h Hin) Hin). }
  assert (Hadd : set_add h (clients room) = clients room ++ [h]).
  { unfold set_add. by rewrite bool_decide_eq_false_2. }
  clearbody room.
  destruct (addClient_eq room h ws now)
    as (colors & col & -> & Hpin & _ & Hkeep & _).
  rewrite Hadd, Hid. simpl.
  split.
  2:{ eexists _, _. rewrite !lookup_insert_eq. by split_and!. }
  split; simpl.
  - intros j r. rewrite lookup_insert. case_decide as Heq.
    + subst j. by intros [= <-].
    + apply Hkey.
  - intros j r. rewrite lookup_insert. case_decide as Heq.
    + subst j. intros [= <-]. simpl. apply NoDup_app. split; [done|split].
      * intros c Hc ->%list_elem_of_singleton. done.
      * apply NoDup_singleton.
    + apply Hnd.
  - intros j r c. rewrite lookup_insert. case_decide as Heq.
    + subst j. intros [= <-]. simpl.
      intros [Hc| ->%list_elem_of_singleton]%elem_of_app.
      * pose proof (Hrcl c Hc) as Hr.
        rewrite lookup_insert_ne by (symmetry; by eapply Hother).
        by eapply Hcl.
      * rewrite lookup_insert_eq. by eexists.
    + intros Hr Hc.
      rewrite lookup_insert_ne by (symmetry; by eapply Hother).
      by eapply Hcl.
  - intros c wsc j. rewrite lookup_insert. case_decide as Heq.
    + subst c. intros [= <-]. simpl. intros [= <-].
      rewrite lookup_insert_eq. eexists. split; [done|]. simpl.
      apply elem_of_app. right. left.
    + intros Hc Hj. destruct (Hbd c wsc j Hc Hj) as (r & Hr & Hin).
      rewrite lookup_insert. case_decide as Heq'.
      * subst j. eexists. split; [done|]. simpl.
        apply elem_of_app. left. by rewrite <- (Hsame r Hr).
      * by exists r.
  - intros j r c wsc. rewrite lookup_insert. case_decide as Heq.
    + subst j. intros [= <-]. simpl.
      intros [Hc| ->%list_elem_of_singleton]%elem_of_app.
      * pose proof (Hrcl c Hc) as Hr.
        rewrite lookup_insert_ne by (symmetry; by eapply Hother).
        intros Hwsc. apply Hkeep. by apply (Hcol i room c).
      * rewrite lookup_insert_eq. by intros [= <-].
    + intros Hr Hc.
      rewrite lookup_insert_ne by (symmetry; by eapply Hother).
      by apply (Hcol j).
  - intros j r. rewrite lookup_insert. case_decide as Heq.
    + subst j. by intros [= <-].
    + apply Hlog.
Qed.

Lemma srv_ok_handleJoinRoom srv h ws roomId now :
  srv_ok srv → sockets srv !! h = Some ws →
  srv_ok (handleJoinRoom srv h ws roomId now).1.
Proof.
  intros Hok Hws. rewrite handleJoinRoom_state.
  destruct (leaveRoom_ok srv h ws now Hok Hws) as (Hok1 & Hws1 & Hnone & _).
  apply enterRoom_ok; auto using roomName_nonempty.
Qed.

Lemma srv_ok_handleMessage srv h msg now :
  srv_ok srv → srv_ok (handleMessage srv h msg now).1.
Proof.
  intros Hok. unfold handleMessage.
  destruct (sockets srv !! h) as [ws|] eqn:Hws; [|done].
  destruct msg as [|roomId|raw|cx cy| | | |t]; try done.
  - by apply srv_ok_handleJoinRoom.
  - destruct (findBySocket (rooms srv) ws) as [room|] eqn:Hf; [|done].
    apply findBySocket_Some in Hf as (i & _ & _ & Hroom). simpl.
    eapply srv_ok_setDrawingState; [done..|].
    apply (reachable_step (drawingState room)
             (CAdd {| in_userId := ws_userId ws; in_op := raw |} now)).
    by eapply ok_log.
  - by destruct (findBySocket (rooms srv) ws).
  - destruct (findBySocket (rooms srv) ws) as [room|] eqn:Hf; [|done].
    apply findBySocket_Some in Hf as (i & _ & _ & Hroom).
    pose proof (reachable_step _ (CUndo (ws_userId ws))
                  (ok_log _ Hok i room Hroom)) as Hr. simpl in Hr.
    destruct (undo (drawingState room) (ws_userId ws)) as [d res].
    destruct (success res); simpl; by eapply srv_ok_setDrawingState.
  - destruct (findBySocket (rooms srv) ws) as [room|] eqn:Hf; [|done].
    apply findBySocket_Some in Hf as (i & _ & _ & Hroom). simpl.
    eapply srv_ok_setDrawingState; [done..|]. by exists [].
  - destruct (findBySocket (rooms srv) ws) as [room|] eqn:Hf; [|done].
    apply findBySocket_Some in Hf as (i & _ & _ & Hroom).
    pose proof (reachable_step _ (CRedo (ws_userId ws))
                  (ok_log _ Hok i room Hroom)) as Hr. simpl in Hr.
    destruct (redo (drawingState room) (ws_userId ws)) as [d res].
    destruct (success res); simpl; by eapply srv_ok_setDrawingState.
Qed.

Lemma onClose_state srv h ws now :
  sockets srv !! h = Some ws →
  (onClose srv h now).1 = (leaveRoom srv h ws now).1.
Proof.
  intros Hws. unfold onClose, leaveRoom. rewrite Hws.
  by destruct (findBySocket (rooms srv) ws).
Qed.

Lemma srv_ok_onClose srv h now : srv_ok srv → srv_ok (onClose srv h now).1.
Proof.
  intros Hok. destruct (sockets srv !! h) as [ws|] eqn:Hws.
  - rewrite (onClose_state _ _ ws) by done. by apply leaveRoom_ok.
  - unfold onClose. by rewrite Hws.
Qed.

Lemma lookup_cleanupEmptyRooms m i :
  cleanupEmptyRooms m !! i
  = match m !! i with
    | Some r => if decide (i = "default" ∨ clients r ≠ []) then Some r else None
    | None => None
    end.
Proof.
  unfold cleanupEmptyRooms. rewrite map_lookup_filter.
  destruct (m !! i) as [r|]; [|done]. simpl.
  case_decide as H.
  - by rewrite option_guard_True.
  - by rewrite option_guard_False.
Qed.

Lemma lookup_cleanupEmptyRooms_Some m i r :
  cleanupEmptyRooms m !! i = Some r ↔
  m !! i = Some r ∧ (i = "default" ∨ clients r ≠ []).
Proof.
  rewrite lookup_cleanupEmptyRooms. destruct (m !! i) as [r'|].
  - case_decide as H; split.
    + by intros [= <-].
    + by intros [[= <-] _].
    + done.
    + intros [[= <-] H']. by destruct H.
  - split; [done|]. by intros [? _].
Qed.

Lemma srv_ok_reap srv : srv_ok srv → srv_ok (reap srv).
Proof.
  intros [Hkey Hnd Hcl Hbd Hcol Hlog]. split; simpl.
  - intros i r [Hr _]%lookup_cleanupEmptyRooms_Some. by apply Hkey.
  - intros i r [Hr _]%lookup_cleanupEmptyRooms_Some. by eapply Hnd.
  - intros i r h [Hr _]%lookup_cleanupEmptyRooms_Some. by apply (Hcl i).
  - intros h ws i Hws Hi. destruct (Hbd h ws i Hws Hi) as (r & Hr & Hin).
    exists r. split; [|done]. apply lookup_cleanupEmptyRooms_Some.
    split; [done|]. right. intros E. rewrite E in Hin.
    by apply elem_of_nil in Hin.
  - intros i r h ws [Hr _]%lookup_cleanupEmptyRooms_Some. by apply (Hcol i).
  - intros i r [Hr _]%lookup_cleanupEmptyRooms_Some. by eapply Hlog.
Qed.

Lemma srv_reachable_ok srv : srv_reachable srv → srv_ok srv.
Proof.
  induction 1 as [|srv h uid c _ IH Hfresh|srv h msg now _ IH
                  |srv h now _ IH|srv _ IH].
  - apply srv_ok_new.
  - by apply srv_ok_connect.
  - by apply srv_ok_handleMessage.
  - by apply srv_ok_onClose.
  - by apply srv_ok_reap.
Qed.

(** ** Connections and rooms *)

Lemma srv_ok_membership srv h ws :
  srv_ok srv → sockets srv !! h = Some ws →
  match findBySocket (rooms srv) ws with
  | Some r => rooms srv !! room_id r = Some r ∧
              ws_roomId ws = Some (room_id r) ∧ h ∈ clients r ∧
              ∀ j r', rooms srv !! j = Some r' → h ∈ clients r' → j = room_id r
  | None => ws_roomId ws = None ∧
            ∀ j r', rooms srv !! j = Some r' → h ∉ clients r'
  end.
Proof.
  intros Hok Hws.
  assert (Hin : ∀ j r', rooms srv !! j = Some r' → h ∈ clients r' →
                        ws_roomId ws = Some j).
  { intros j r' Hr' Hh.
    destruct (ok_clients _ Hok j r' h Hr' Hh) as (ws' & Hws' & Hj).
    congruence. }
  destruct (findBySocket (rooms srv) ws) as [r|] eqn:Hf.
  - apply findBySocket_Some in Hf as (i & Hi & _ & Hr).
    destruct (ok_key _ Hok i r Hr) as [-> _].
    destruct (ok_bound _ Hok h ws _ Hws Hi) as (r0 & Hr0 & Hh).
    assert (r0 = r) as -> by congruence.
    split_and!; try done.
    intros j r' Hr' Hh'. specialize (Hin j r' Hr' Hh'). congruence.
  - pose proof (findBySocket_unbound _ _ _ Hok Hws Hf) as Hnone.
    split; [done|]. intros j r' Hr' Hh.
    specialize (Hin j r' Hr' Hh). congruence.
Qed.

(** X1. In every reachable server the [roomId] of a socket and the
    [clients] sets of the rooms agree: a socket bound to a room is a client
    of that room and of no other, a socket bound to no room is a client of
    none, and every client of a room is a known socket bound to it. *)
Theorem connection_in_one_room srv :
  srv_reachable srv →
  (∀ h ws, sockets srv !! h = Some ws →
     match findBySocket (rooms srv) ws with
     | Some r => rooms srv !! room_id r = Some r ∧
                 ws_roomId ws = Some (room_id r) ∧ h ∈ clients r ∧
                 ∀ j r', rooms srv !! j = Some r' → h ∈ clients r' →
                         j = room_id r
     | None => ws_roomId ws = None ∧
               ∀ j r', rooms srv !! j = Some r' → h ∉ clients r'
     end) ∧
  (∀ i r h, rooms srv !! i = Some r → h ∈ clients r →
     ∃ ws, sockets srv !! h = Some ws ∧ findBySocket (rooms srv) ws = Some r) ∧
  (∀ i r, rooms srv !! i = Some r → room_id r = i ∧ NoDup (clients r)).
Proof.
  intros Hok%srv_reachable_ok. split_and!.
  - intros h ws. by apply srv_ok_membership.
  - intros i r h Hr Hh.
    destruct (ok_clients _ Hok i r h Hr Hh) as (ws & Hws & Hi).
    exists ws. split; [done|].
    destruct (findBySocket_bound _ _ _ _ Hok Hws Hi) as (r' & -> & Hr' & _).
    congruence.
  - intros i r Hr. split; [by apply (ok_key _ Hok)|by eapply ok_nodup].
Qed.

(** X2. In every room of a reachable server, the colour of each client
    socket is the colour recorded in [userColors] for its user; so all the
    connections of one user in a room carry one colour. *)
Theorem pinned_colour_of_clients srv i r :
  srv_reachable srv → rooms srv !! i = Some r →
  (∀ h ws, h ∈ clients r → sockets srv !! h = Some ws →
     userColors r !! ws_userId ws = Some (ws_color ws)) ∧
  (∀ h1 h2 ws1 ws2,
     h1 ∈ clients r → h2 ∈ clients r →
     sockets srv !! h1 = Some ws1 → sockets srv !! h2 = Some ws2 →
     ws_userId ws1 = ws_userId ws2 → ws_color ws1 = ws_color ws2).
Proof.
  intros Hok%srv_reachable_ok Hr. split.
  - intros h ws Hh Hws. by apply (ok_color _ Hok i r h).
  - intros h1 h2 ws1 ws2 Hh1 Hh2 Hws1 Hws2 Hu.
    pose proof (ok_color _ Hok i r h1 ws1 Hr Hh1 Hws1) as H1.
    pose proof (ok_color _ Hok i r h2 ws2 Hr Hh2 Hws2) as H2.
    rewrite Hu in H1. congruence.
Qed.

(** X3. The log of every room of a reachable server is a log that
    [addOperation], [undo] and [redo] build from an empty one: nothing else
    writes to it, and [clear] installs an empty log. *)
Theorem room_logs_reachable srv i r :
  srv_reachable srv → rooms srv !! i = Some r → reachable (drawingState r).
Proof. intros Hok%srv_reachable_ok Hr. by eapply ok_log. Qed.

Lemma demoServer_reachable : srv_reachable demoServer.
Proof.
  unfold demoServer.
  apply sr_message, sr_message, sr_connect; [|by vm_compute].
  apply sr_message, sr_connect; [|by vm_compute].
  apply sr_message, sr_connect; [apply sr_start|by vm_compute].
Qed.

Lemma connection_in_one_room_witness :
  srv_reachable demoServer ∧
  (∀ h ws, sockets demoServer !! h = Some ws →
     match findBySocket (rooms demoServer) ws with
     | Some r => rooms demoServer !! room_id r = Some r ∧
                 ws_roomId ws = Some (room_id r) ∧ h ∈ clients r ∧
                 ∀ j r', rooms demoServer !! j = Some r' → h ∈ clients r' →
                         j = room_id r
     | None => ws_roomId ws = None ∧
               ∀ j r', rooms demoServer !! j = Some r' → h ∉ clients r'
     end) ∧
  clients <$> rooms demoServer !! "default" = Some [0%nat; 1%nat] ∧
  clients <$> rooms demoServer !! "studio" = Some [2%nat].
Proof.
  split; [exact demoServer_reachable|].
  split; [exact (proj1 (connection_in_one_room _ demoServer_reachable))|].
  split; by vm_compute.
Defined.

Lemma pinned_colour_of_clients_witness :
  let r := {| room_id := "default"; clients := [0%nat; 1%nat];
              drawingState := run [draws "u1" [(0, 0); (10, 10)] 103];
              lastActivity := 101; userColors := {["u1" := "#e53935"]} |} in
  srv_reachable demoServer ∧ rooms demoServer !! "default" = Some r ∧
  (ws_color <$> sockets demoServer !! 0%nat) = Some "#e53935" ∧
  (ws_color <$> sockets demoServer !! 1%nat) = Some "#e53935" ∧
  (∀ h ws, h ∈ clients r → sockets demoServer !! h = Some ws →
     userColors r !! ws_userId ws = Some (ws_color ws)).
Proof.
  intros r.
  assert (H : rooms demoServer !! "default" = Some r) by (by vm_compute).
  refine (conj demoServer_reachable (conj H (conj _ (conj _ _)))).
  - by vm_compute.
  - by vm_compute.
  - exact (proj1 (pinned_colour_of_clients _ _ _ demoServer_reachable H)).
Defined.

Lemma room_logs_reachable_witness :
  ∃ r, srv_reachable demoServer ∧ rooms demoServer !! "default" = Some r ∧
       opId <$> ops (drawingState r) = [1] ∧ reachable (drawingState r).
Proof.
  eexists.
  assert (H : rooms demoServer !! "default" = Some _) by (by vm_compute).
  refine (conj demoServer_reachable (conj H (conj _ _))).
  - by vm_compute.
  - exact (room_logs_reachable _ _ _ demoServer_reachable H).
Defined.

(** ** The list of active users *)

Lemma dedupKeys_spec {V} (seen : list string) (l : list (string * V)) :
  NoDup (fst <$> dedupKeys seen l) ∧
  (∀ kv, kv ∈ dedupKeys seen l → kv ∈ l ∧ kv.1 ∉ seen) ∧
  (∀ k, k ∈ fst <$> l → k ∉ seen → k ∈ fst <$> dedupKeys seen l).
Proof.
  revert seen. induction l as [|[k v] l IH]; intros seen; simpl.
  { split_and!; [constructor| |done]. by intros kv ?%elem_of_nil. }
  case_bool_decide as Hk.
  - destruct (IH seen) as (H1 & H2 & H3). split_and!; [done| |].
    + intros kv [Hin Hs]%H2. split; [by right|done].
    + intros k' [->|Hk']%elem_of_cons Hs; [done|]. by apply H3.
  - destruct (IH (k :: seen)) as (H1 & H2 & H3). split_and!.
    + simpl. constructor; [|done].
      intros ([k' v'] & E & Hin)%list_elem_of_fmap. simpl in E. subst k'.
      apply H2 in Hin as [_ Hs]. apply Hs. left.
    + intros kv [->|Hin]%elem_of_cons.
      * split; [left|done].
      * apply H2 in Hin as [Hin Hs]. split; [by right|].
        intros Hs'. apply Hs. by right.
    + intros k' Hk' Hs. simpl. destruct (decide (k' = k)) as [->|Hne].
      * left.
      * right. apply elem_of_cons in Hk' as [->|Hk']; [done|].
        apply H3; [done|]. by intros [->|?]%elem_of_cons.
Qed.

(** X4. [getActiveUsers] lists every user that has a connection in the
    room exactly once, however many connections that user holds, and, in a
    reachable server, with the colour that all those connections carry. *)
Theorem getActiveUsers_one_per_user srv i r :
  srv_reachable srv → rooms srv !! i = Some r →
  NoDup (fst <$> getActiveUsers (sockets srv) r) ∧
  (∀ u, u ∈ fst <$> getActiveUsers (sockets srv) r ↔
        ∃ h ws, h ∈ clients r ∧ sockets srv !! h = Some ws ∧
                ws_userId ws = u) ∧
  (∀ u c, (u, c) ∈ getActiveUsers (sockets srv) r →
     ∃ col, c = Some col ∧
       ∀ h ws, h ∈ clients r → sockets srv !! h = Some ws →
               ws_userId ws = u → ws_color ws = col).
Proof.
  intros Hok%srv_reachable_ok Hr. unfold getActiveUsers.
  set (l := omap _ (clients r)).
  assert (Hl : ∀ u c, (u, c) ∈ l ↔
            ∃ h ws, h ∈ clients r ∧ sockets srv !! h = Some ws ∧
                    ws_userId ws = u ∧ c = userColors r !! u).
  { intros u c. subst l. rewrite list_elem_of_omap. split.
    - intros (h & Hh & Hc). destruct (sockets srv !! h) as [ws|] eqn:Hws;
        simplify_eq/=. by exists h, ws.
    - intros (h & ws & Hh & Hws & <- & ->). exists h. rewrite Hws. done. }
  destruct (dedupKeys_spec [] l) as (Hnd & Hsub & Hall).
  split_and!; [done| |].
  - intros u. split.
    + intros ([u' c] & -> & [Hin _]%Hsub)%list_elem_of_fmap. simpl.
      apply Hl in Hin as (h & ws & ? & ? & ? & _). by exists h, ws.
    + intros (h & ws & Hh & Hws & Hu). apply Hall; [|by intros ?%elem_of_nil].
      apply list_elem_of_fmap. exists (u, userColors r !! u). split; [done|].
      apply Hl. by exists h, ws.
  - intros u c [Hin _]%Hsub.
    apply Hl in Hin as (h & ws & Hh & Hws & Hu & ->).
    pose proof (ok_color _ Hok i r h ws Hr Hh Hws) as Hc. rewrite Hu in Hc.
    exists (ws_color ws). split; [done|].
    intros h' ws' Hh' Hws' Hu'.
    pose proof (ok_color _ Hok i r h' ws' Hr Hh' Hws') as Hc'.
    rewrite Hu' in Hc'. congruence.
Qed.

Lemma getActiveUsers_one_per_user_witness :
  ∃ r, srv_reachable demoServer ∧ rooms demoServer !! "default" = Some r ∧
       clients r = [0%nat; 1%nat] ∧
       getActiveUsers (sockets demoServer) r = [("u1", Some "#e53935")] ∧
       NoDup (fst <$> getActiveUsers (sockets demoServer) r).
Proof.
  eexists.
  assert (H : rooms demoServer !! "default" = Some _) by (by vm_compute).
  refine (conj demoServer_reachable (conj H (conj _ (conj _ _)))).
  - by vm_compute.
  - by vm_compute.
  - exact (proj1 (getActiveUsers_one_per_user _ _ _ demoServer_reachable H)).
Defined.

(** ** Joining a room *)

Lemma leaveRoom_logs srv h ws now j :
  srv_ok srv →
  drawingState <$> rooms (leaveRoom srv h ws now).1 !! j
  = drawingState <$> rooms srv !! j.
Proof.
  intros Hok. unfold leaveRoom.
  destruct (findBySocket (rooms srv) ws) as [room|] eqn:Hf; [|done].
  apply findBySocket_Some in Hf as (i & _ & _ & Hroom).
  destruct (ok_key _ Hok i room Hroom) as [Hid _]. simpl. rewrite Hid.
  rewrite lookup_insert. case_decide as Heq; [|done].
  subst j. by rewrite Hroom.
Qed.

Lemma elem_of_set_add h l : h ∈ set_add h l.
Proof.
  unfold set_add. case_bool_decide; [done|].
  apply elem_of_app. right. left.
Qed.

Lemma handleJoinRoom_reply srv h ws roomId now :
  ∃ out1 out2 room2,
    rooms (handleJoinRoom srv h ws roomId now).1 !! room_id room2
      = Some room2 ∧
    h ∈ clients room2 ∧
    (handleJoinRoom srv h ws roomId now).2
    = out1
      ++ [(h, ORoomJoined (roomName roomId)
                          (getSnapshot (drawingState room2) None))]
      ++ out2.
Proof.
  assert (Hhalf : ∀ (srv1 : Server) (ws1 : Socket) (out1 : list (nat * Out)),
    let res :=
      let room := match rooms srv1 !! roomName roomId with
                  | Some r => r
                  | None => newRoom (roomName roomId) now
                  end in
      let '(room2, ws2) := addClient room h ws1 now in
      let srv2 := putSocket h ws2 (putRoom room2 srv1) in
      (srv2,
       out1
       ++ [(h, ORoomJoined (roomName roomId)
                           (getSnapshot (drawingState room2) None))]
       ++ broadcastRoom (sockets srv2) room2
                        (OUsersUpdated (userList (sockets srv2) room2))) in
    ∃ out1' out2 room2,
      rooms res.1 !! room_id room2 = Some room2 ∧ h ∈ clients room2 ∧
      res.2 = out1'
              ++ [(h, ORoomJoined (roomName roomId)
                                  (getSnapshot (drawingState room2) None))]
              ++ out2).
  { intros srv1 ws1 out1. cbv zeta.
    match goal with
    | |- context [addClient ?r h ws1 now] =>
        destruct (addClient_eq r h ws1 now) as (colors & col & -> & _)
    end.
    eexists _, _, _. split; [apply lookup_insert_eq|].
    split; [apply elem_of_set_add|done]. }
  unfold handleJoinRoom. fold (roomName roomId).
  destruct (findBySocket (rooms srv) ws) as [oldRoom|]; apply Hhalf.
Qed.

(** X5. After a [join-room] in a reachable server the sender is bound to
    the room named in the message (to ["default"] when the name is missing
    or empty): it is a client of that room and of no other room, it keeps
    its user id, the room's log is the one the room had (a new room starts
    with an empty log), and the sender is sent [room-joined] with the
    room's operations and with [canUndo] and [canRedo] both false. *)
Theorem join_room_binds srv h ws roomId now :
  srv_reachable srv → sockets srv !! h = Some ws →
  ∃ r ws',
    rooms (handleMessage srv h (MJoinRoom roomId) now).1 !! roomName roomId
      = Some r ∧
    sockets (handleMessage srv h (MJoinRoom roomId) now).1 !! h = Some ws' ∧
    findBySocket (rooms (handleMessage srv h (MJoinRoom roomId) now).1) ws'
      = Some r ∧
    ws_userId ws' = ws_userId ws ∧
    h ∈ clients r ∧
    (∀ j r', rooms (handleMessage srv h (MJoinRoom roomId) now).1 !! j
               = Some r' → h ∈ clients r' → j = roomName roomId) ∧
    drawingState r
      = default newDrawingState
                (drawingState <$> rooms srv !! roomName roomId) ∧
    (h, ORoomJoined (roomName roomId)
          {| snap_ops := ops (drawingState r); snap_canUndo := false;
             snap_canRedo := false |})
      ∈ (handleMessage srv h (MJoinRoom roomId) now).2.
Proof.
  intros Hok%srv_reachable_ok Hws. unfold handleMessage. rewrite Hws.
  pose proof (handleJoinRoom_state srv h ws roomId now) as Hst.
  destruct (leaveRoom_ok srv h ws now Hok Hws)
    as (Hok1 & Hws1 & Hnone & Hu1 & _).
  destruct (enterRoom_ok _ h _ (roomName roomId) now Hok1 Hws1 Hnone
              (roomName_nonempty roomId))
    as (Hok2 & r & ws' & Hr & Hws' & Hi & Hu & Hcl & Hlog).
  rewrite <- Hst in Hok2, Hr, Hws'.
  exists r, ws'.
  destruct (findBySocket_bound _ _ _ _ Hok2 Hws' Hi)
    as (r0 & Hf & Hr0 & _ & Hin).
  assert (r0 = r) as -> by congruence.
  pose proof (srv_ok_membership _ _ _ Hok2 Hws') as Hm. rewrite Hf in Hm.
  destruct Hm as (_ & _ & _ & Honly).
  destruct (ok_key _ Hok2 _ _ Hr) as [Hid _].
  split_and!; try done.
  - congruence.
  - intros j r' Hr' Hh'. rewrite (Honly j r' Hr' Hh'). done.
  - rewrite Hlog.
    pose proof (leaveRoom_logs srv h ws now (roomName roomId) Hok) as Hl.
    destruct (rooms (leaveRoom srv h ws now).1 !! roomName roomId),
             (rooms srv !! roomName roomId); simplify_eq/=; done.
  - destruct (handleJoinRoom_reply srv h ws roomId now)
      as (out1 & out2 & room2 & Hr2 & Hin2 & ->).
    assert (room2 = r) as ->.
    { pose proof (Honly _ _ Hr2 Hin2) as E. rewrite E, Hid in Hr2.
      congruence. }
    rewrite !elem_of_app. right. left. left.
Qed.

(** ** Clearing, cursors, failures *)

Lemma putRoom_same srv i room :
  rooms srv !! i = Some room → room_id room = i →
  putRoom (setDrawingState (drawingState room) room) srv = srv.
Proof.
  intros Hroom Hid. unfold putRoom, setDrawingState.
  destruct srv as [rs ss], room as [ri cl d la uc]. simpl in *. subst ri.
  f_equal. by apply insert_id.
Qed.

(** X6. [clear] in a reachable server: the room of the sender keeps its
    clients and recorded colours, all sockets are as they were, and the
    room's log is an empty one. No history survives: whichever client of
    that room asks next, [undo] is answered "Nothing to undo" and [redo]
    "Nothing to redo", to the requester alone, and the next stroke drawn
    in the room gets identity 1 again. *)
Theorem clear_forgets_history srv h ws room now :
  srv_reachable srv →
  sockets srv !! h = Some ws →
  findBySocket (rooms srv) ws = Some room →
  let srv' := (handleMessage srv h MClear now).1 in
  (∃ room', rooms srv' !! room_id room = Some room' ∧
            drawingState room' = newDrawingState ∧
            clients room' = clients room ∧
            userColors room' = userColors room) ∧
  sockets srv' = sockets srv ∧
  ∀ h' ws' now',
    sockets srv !! h' = Some ws' →
    findBySocket (rooms srv) ws' = Some room →
    (handleMessage srv' h' MUndo now').2
      = [(h', OUndo false None (Some false) (Some false)
                     "Nothing to undo" None)] ∧
    (handleMessage srv' h' MRedo now').2
      = [(h', ORedo false None (Some false) (Some false)
                     "Nothing to redo" None)] ∧
    ∀ raw, (handleMessage srv' h' (MDraw raw) now').2
           = (λ c, (c, OOp (entry (ws_userId ws') raw 1 now')))
               <$> openClients (sockets srv) room.
Proof.
  intros Hok%srv_reachable_ok Hws Hroom srv'.
  pose proof Hroom as Hf.
  apply findBySocket_Some in Hf as (i & _ & Hne & Hr).
  destruct (ok_key _ Hok i room Hr) as [Hid _].
  assert (Hsrv' : srv' = putRoom (setDrawingState newDrawingState room) srv).
  { subst srv'. unfold handleMessage. by rewrite Hws, Hroom. }
  rewrite Hsrv'. split_and!.
  - eexists. split; [apply lookup_insert_eq|done].
  - done.
  - intros h' ws' now' Hws' Hroom'.
    assert (Hf' : findBySocket
                    (rooms (putRoom (setDrawingState newDrawingState room) srv))
                    ws' = Some (setDrawingState newDrawingState room)).
    { apply findBySocket_Some in Hroom' as (j & Hj & Hnej & Hrj).
      destruct (ok_key _ Hok j room Hrj) as [Hidj _].
      unfold findBySocket. rewrite Hj, bool_decide_eq_false_2 by done.
      simpl. rewrite Hidj. apply lookup_insert_eq. }
    unfold handleMessage. simpl sockets. rewrite Hws', Hf'.
    split_and!; try done.
Qed.

(** X7. A [cursor] message changes nothing on the server and is sent to
    every open client of the sender's room; in a reachable server that
    includes the sender itself when its socket is open. *)
Theorem cursor_reaches_whole_room srv h ws room cx cy now :
  srv_reachable srv →
  sockets srv !! h = Some ws →
  findBySocket (rooms srv) ws = Some room →
  handleMessage srv h (MCursor cx cy) now
  = (srv, (λ c, (c, OCursor (ws_userId ws) cx cy))
            <$> openClients (sockets srv) room) ∧
  (ws_readyState ws = OPEN →
   (h, OCursor (ws_userId ws) cx cy)
     ∈ (handleMessage srv h (MCursor cx cy) now).2).
Proof.
  intros Hok%srv_reachable_ok Hws Hroom.
  pose proof (srv_ok_membership _ _ _ Hok Hws) as Hm. rewrite Hroom in Hm.
  destruct Hm as (_ & _ & Hin & _).
  unfold handleMessage. rewrite Hws, Hroom. split; [done|].
  intros Hopen. simpl. unfold broadcastRoom.
  apply list_elem_of_fmap. exists h. split; [done|].
  unfold openClients. apply list_elem_of_filter. split; [|done].
  by rewrite Hws, <- Hopen.
Qed.

(** X8. In a reachable server an [undo] or a [redo] that fails leaves the
    whole server as it was and is answered to the requester alone, with
    the message and the flags of the failed call. *)
Theorem failed_undo_redo_change_nothing srv h ws room now :
  srv_reachable srv →
  sockets srv !! h = Some ws →
  findBySocket (rooms srv) ws = Some room →
  (∀ res, res = (undo (drawingState room) (ws_userId ws)).2 →
     success res = false →
     handleMessage srv h MUndo now
     = (srv, [(h, OUndo false None (canUndo res) (canRedo res)
                        (message res) None)])) ∧
  (∀ res, res = (redo (drawingState room) (ws_userId ws)).2 →
     success res = false →
     handleMessage srv h MRedo now
     = (srv, [(h, ORedo false None (canUndo res) (canRedo res)
                        (message res) None)])).
Proof.
  intros Hok%srv_reachable_ok Hws Hroom.
  pose proof Hroom as Hf.
  apply findBySocket_Some in Hf as (i & _ & _ & Hr).
  destruct (ok_key _ Hok i room Hr) as [Hid _].
  unfold handleMessage. rewrite Hws, Hroom. split.
  - intros res -> Hfail.
    destruct (undo_cases (drawingState room) (ws_userId ws))
      as [[_ E]|(ids & k & o & _ & _ & E)]; rewrite E in Hfail |- *;
      simpl in *; [|done].
    by rewrite (putRoom_same srv i room).
  - intros res -> Hfail.
    destruct (redo_cases (drawingState room) (ws_userId ws))
      as [[_ (msg & _ & E)]|(op & _ & [[_ E]|[_ E]])];
      rewrite E in Hfail |- *; simpl in *; try done;
      by rewrite (putRoom_same srv i room).
Qed.

(** ** What a message can touch *)

Lemma elem_of_stateUpdates socks r c o :
  (c, o) ∈ stateUpdates socks r → c ∈ openClients socks r.
Proof.
  unfold stateUpdates, openClients.
  intros (c' & Hc' & Ho)%list_elem_of_omap.
  destruct (socks !! c') as [client|] eqn:Hs; [|done].
  case_bool_decide as Hopen; [|done]. injection Ho as <- _.
  apply list_elem_of_filter. split; [|done]. rewrite Hs. simpl. by rewrite Hopen.
Qed.

Lemma elem_of_broadcastRoom socks r data c o :
  (c, o) ∈ broadcastRoom socks r data → c ∈ openClients socks r.
Proof.
  unfold broadcastRoom. intros (c' & [= -> _] & Hc)%list_elem_of_fmap. done.
Qed.

(** X9. Whatever message other than [join-room] a connection sends, the
    server touches at most the room the sender is bound to: all sockets and
    every other room stay as they were, that room keeps its name, clients
    and colours, and every message sent goes to the sender or to an open
    client of that room. *)
Theorem messages_stay_in_room srv h ws msg now :
  sockets srv !! h = Some ws →
  (∀ roomId, msg ≠ MJoinRoom roomId) →
  sockets (handleMessage srv h msg now).1 = sockets srv ∧
  (∀ j, (∀ r, findBySocket (rooms srv) ws = Some r → j ≠ room_id r) →
        rooms (handleMessage srv h msg now).1 !! j = rooms srv !! j) ∧
  (∀ r, findBySocket (rooms srv) ws = Some r →
        rooms (handleMessage srv h msg now).1 = rooms srv ∨
        ∃ r', rooms (handleMessage srv h msg now).1 !! room_id r = Some r' ∧
              room_id r' = room_id r ∧ clients r' = clients r ∧
              userColors r' = userColors r) ∧
  (∀ c o, (c, o) ∈ (handleMessage srv h msg now).2 →
          c = h ∨ ∃ r, findBySocket (rooms srv) ws = Some r ∧
                       c ∈ openClients (sockets srv) r).
Proof.
  intros Hws Hmsg. unfold handleMessage. rewrite Hws.
  assert (Hput : ∀ room d,
    findBySocket (rooms srv) ws = Some room →
    sockets (putRoom (setDrawingState d room) srv) = sockets srv ∧
    (∀ j, (∀ r, findBySocket (rooms srv) ws = Some r → j ≠ room_id r) →
          rooms (putRoom (setDrawingState d room) srv) !! j = rooms srv !! j) ∧
    (∀ r, findBySocket (rooms srv) ws = Some r →
          rooms (putRoom (setDrawingState d room) srv) = rooms srv ∨
          ∃ r', rooms (putRoom (setDrawingState d room) srv) !! room_id r
                  = Some r' ∧
                room_id r' = room_id r ∧ clients r' = clients r ∧
                userColors r' = userColors r)).
  { intros room d Hroom. split_and!; [done| |].
    - intros j Hj. simpl. rewrite lookup_insert_ne; [done|].
      intros E. by apply (Hj room Hroom).
    - intros r Hr. right. assert (r = room) as -> by congruence.
      eexists. split; [apply lookup_insert_eq|done]. }
  assert (Hsame : sockets srv = sockets srv ∧
    (∀ j, (∀ r, findBySocket (rooms srv) ws = Some r → j ≠ room_id r) →
          rooms srv !! j = rooms srv !! j) ∧
    (∀ r, findBySocket (rooms srv) ws = Some r →
          rooms srv = rooms srv ∨
          ∃ r', rooms srv !! room_id r = Some r' ∧
                room_id r' = room_id r ∧ clients r' = clients r ∧
                userColors r' = userColors r)).
  { split_and!; auto. }
  destruct msg as [|roomId|raw|cx cy| | | |t].
  - destruct Hsame as (? & ? & ?). split_and!; try done.
    intros c o [= -> _]%list_elem_of_singleton. by left.
  - by destruct (Hmsg roomId).
  - destruct (findBySocket (rooms srv) ws) as [room|] eqn:Hroom.
    + destruct (Hput room (addOperation (drawingState room)
                  {| in_userId := ws_userId ws; in_op := raw |} now).1 eq_refl)
        as (? & ? & ?).
      split_and!; try done.
      intros c o Hin%elem_of_broadcastRoom. right. by exists room.
    + destruct Hsame as (? & ? & ?). split_and!; try done.
      by intros c o ?%elem_of_nil.
  - destruct (findBySocket (rooms srv) ws) as [room|] eqn:Hroom;
      destruct Hsame as (? & ? & ?); (split_and!; try done).
    + intros c o Hin%elem_of_broadcastRoom. right. by exists room.
    + by intros c o ?%elem_of_nil.
  - destruct (findBySocket (rooms srv) ws) as [room|] eqn:Hroom.
    + destruct (undo (drawingState room) (ws_userId ws)) as [d res] eqn:E.
      destruct (Hput room d eq_refl) as (? & ? & ?).
      destruct (success res); (split_and!; try done).
      * intros c o [Hin%elem_of_broadcastRoom|Hin%elem_of_stateUpdates]%elem_of_app;
          right; by exists room.
      * intros c o [= -> _]%list_elem_of_singleton. by left.
    + destruct Hsame as (? & ? & ?). split_and!; try done.
      intros c o [= -> _]%list_elem_of_singleton. by left.
  - destruct (findBySocket (rooms srv) ws) as [room|] eqn:Hroom.
    + destruct (Hput room newDrawingState eq_refl) as (? & ? & ?).
      split_and!; try done.
      intros c o [Hin%elem_of_broadcastRoom|Hin%elem_of_broadcastRoom]%elem_of_app;
        right; by exists room.
    + destruct Hsame as (? & ? & ?). split_and!; try done.
      intros c o [= -> _]%list_elem_of_singleton. by left.
  - destruct (findBySocket (rooms srv) ws) as [room|] eqn:Hroom.
    + destruct (redo (drawingState room) (ws_userId ws)) as [d res] eqn:E.
      destruct (Hput room d eq_refl) as (? & ? & ?).
      destruct (success res); (split_and!; try done).
      * intros c o [Hin%elem_of_broadcastRoom|Hin%elem_of_stateUpdates]%elem_of_app;
          right; by exists room.
      * intros c o [= -> _]%list_elem_of_singleton. by left.
    + destruct Hsame as (? & ? & ?). split_and!; try done.
      intros c o [= -> _]%list_elem_of_singleton. by left.
  - destruct Hsame as (? & ? & ?). split_and!; try done.
    by intros c o ?%elem_of_nil.
Qed.

(** ** Closing a connection, reaping rooms *)

Lemma existsb_false_elem {A} (f : A → bool) (l : list A) a :
  existsb f l = false → a ∈ l → f a = false.
Proof.
  intros Hex Ha. destruct (f a) eqn:Hf; [|done].
  by rewrite (existsb_elem f l a) in Hex.
Qed.

(** X10. When a connection of a reachable server closes, it is a client of
    no room afterwards and bound to none; the logs of all rooms are as
    before; [user-left] goes only to clients of the room it was in, never
    to the closing socket. The room it leaves keeps the recorded colour of
    its user while another connection of that user stays in the room, and
    forgets it otherwise. *)
Theorem close_leaves_room srv h ws now :
  srv_reachable srv → sockets srv !! h = Some ws →
  (∀ j r, rooms (onClose srv h now).1 !! j = Some r → h ∉ clients r) ∧
  (∃ ws', sockets (onClose srv h now).1 !! h = Some ws' ∧
          ws_roomId ws' = None) ∧
  (∀ j, drawingState <$> rooms (onClose srv h now).1 !! j
        = drawingState <$> rooms srv !! j) ∧
  (∀ c o, (c, o) ∈ (onClose srv h now).2 →
          c ≠ h ∧ o = OUserLeft (ws_userId ws) ∧
          ∃ r, findBySocket (rooms srv) ws = Some r ∧ c ∈ clients r) ∧
  (∀ r, findBySocket (rooms srv) ws = Some r →
     ∃ r', rooms (onClose srv h now).1 !! room_id r = Some r' ∧
       clients r' = set_delete h (clients r) ∧
       ((∃ c wsc, c ∈ clients r ∧ c ≠ h ∧ sockets srv !! c = Some wsc ∧
                  ws_userId wsc = ws_userId ws) →
        userColors r' = userColors r) ∧
       ((∀ c wsc, c ∈ clients r → c ≠ h → sockets srv !! c = Some wsc →
                  ws_userId wsc ≠ ws_userId ws) →
        userColors r' = delete (ws_userId ws) (userColors r))).
Proof.
  intros Hok%srv_reachable_ok Hws.
  destruct (leaveRoom_ok srv h ws now Hok Hws) as (Hok1 & Hws1 & Hnone & _).
  pose proof (onClose_state srv h ws now Hws) as Hst.
  rewrite <- Hst in Hok1, Hws1.
  split_and!.
  - intros j r Hr Hin.
    destruct (ok_clients _ Hok1 j r h Hr Hin) as (ws' & Hws' & Hj).
    congruence.
  - eauto.
  - intros j. rewrite Hst. by apply leaveRoom_logs.
  - unfold onClose. rewrite Hws.
    destruct (findBySocket (rooms srv) ws) as [room|] eqn:Hroom; simpl.
    + intros c o (c' & [= -> ->] & Hc)%list_elem_of_fmap.
      unfold openClients in Hc. simpl in Hc.
      apply list_elem_of_filter in Hc as [_ [Hne Hc]%elem_of_set_delete].
      split_and!; [done|done|]. by exists room.
    + by intros c o ?%elem_of_nil.
  - intros r Hr. unfold onClose. rewrite Hws, Hr. simpl.
    eexists. split; [apply lookup_insert_eq|]. simpl. split_and!; [done| |].
    + intros (c & wsc & Hc & Hne & Hwsc & Hu).
      rewrite (existsb_elem _ _ c); [done|by apply elem_of_set_delete|].
      rewrite Hwsc. by apply bool_decide_eq_true.
    + intros Hnone'.
      destruct (existsb _ _) eqn:Hex; [|done]. exfalso.
      apply existsb_exists in Hex as (c & Hc & Hf).
      apply list_elem_of_In, elem_of_set_delete in Hc as [Hne Hc].
      destruct (sockets srv !! c) as [wsc|] eqn:Hwsc; [|done].
      apply bool_decide_eq_true in Hf. by apply (Hnone' c wsc).
Qed.

Lemma cleanupEmptyRooms_idemp m :
  cleanupEmptyRooms (cleanupEmptyRooms m) = cleanupEmptyRooms m.
Proof.
  apply map_eq. intros i. rewrite !lookup_cleanupEmptyRooms.
  destruct (m !! i) as [r|]; [|done].
  case_decide as H; [|done]. by rewrite decide_True.
Qed.

(** X11. The reaper removes exactly the rooms that have no client and are
    not ["default"]; it leaves the sockets alone, running it twice is
    running it once, and in a reachable server every connection finds the
    same room after it as before. *)
Theorem reap_removes_only_empty_rooms srv :
  srv_reachable srv →
  (∀ i r, rooms (reap srv) !! i = Some r ↔
          rooms srv !! i = Some r ∧ (i = "default" ∨ clients r ≠ [])) ∧
  sockets (reap srv) = sockets srv ∧
  reap (reap srv) = reap srv ∧
  (∀ h ws, sockets srv !! h = Some ws →
     findBySocket (rooms (reap srv)) ws = findBySocket (rooms srv) ws).
Proof.
  intros Hok%srv_reachable_ok. split_and!.
  - intros i r. apply lookup_cleanupEmptyRooms_Some.
  - done.
  - unfold reap. simpl. by rewrite cleanupEmptyRooms_idemp.
  - intros h ws Hws.
    pose proof (srv_ok_membership _ _ _ Hok Hws) as Hm.
    destruct (findBySocket (rooms srv) ws) as [r|] eqn:Hf.
    + destruct Hm as (Hr & Hi & Hin & _).
      pose proof Hf as Hf'.
      apply findBySocket_Some in Hf' as (i & Hi' & Hne & _).
      unfold findBySocket. rewrite Hi, bool_decide_eq_false_2 by congruence.
      simpl. apply lookup_cleanupEmptyRooms_Some. split; [done|].
      right. intros E. rewrite E in Hin. by apply elem_of_nil in Hin.
    + destruct Hm as [Hnone _]. unfold findBySocket. by rewrite Hnone.
Qed.

(** ** The properties of the dispatcher on the sample server *)

Lemma join_room_binds_witness :
  let ws := openSocket "u2" "#43a047" (Some "studio") in
    srv_reachable demoServer ∧ sockets demoServer !! 2%nat = Some ws ∧
    ws_roomId ws = Some "studio" ∧
    ∃ r ws',
      rooms (handleMessage demoServer 2 (MJoinRoom (Some "")) 200).1
        !! roomName (Some "") = Some r ∧
      sockets (handleMessage demoServer 2 (MJoinRoom (Some "")) 200).1 !! 2%nat
        = Some ws' ∧
      findBySocket
        (rooms (handleMessage demoServer 2 (MJoinRoom (Some "")) 200).1) ws'
        = Some r ∧
      ws_userId ws' = ws_userId ws ∧
      2%nat ∈ clients r ∧
      (∀ j r', rooms (handleMessage demoServer 2 (MJoinRoom (Some "")) 200).1
                 !! j = Some r' → 2%nat ∈ clients r' →
               j = roomName (Some "")) ∧
      drawingState r
        = default newDrawingState
            (drawingState <$> rooms demoServer !! roomName (Some "")) ∧
      (2%nat, ORoomJoined (roomName (Some ""))
                {| snap_ops := ops (drawingState r); snap_canUndo := false;
                   snap_canRedo := false |})
        ∈ (handleMessage demoServer 2 (MJoinRoom (Some "")) 200).2.
Proof.
  intros ws.
  assert (H : sockets demoServer !! 2%nat = Some ws) by (by vm_compute).
  refine (conj demoServer_reachable (conj H (conj _ _))).
  - by vm_compute.
  - exact (join_room_binds demoServer 2 ws (Some "") 200
             demoServer_reachable H).
Defined.

Lemma clear_forgets_history_witness :
  let ws := openSocket "u1" "#e53935" (Some "default") in
  let ws' := openSocket "u1" "#e53935" (Some "default") in
  ∃ room,
    srv_reachable demoServer ∧ sockets demoServer !! 0%nat = Some ws ∧
    findBySocket (rooms demoServer) ws = Some room ∧
    opId <$> ops (drawingState room) = [1] ∧
    sockets demoServer !! 1%nat = Some ws' ∧
    findBySocket (rooms demoServer) ws' = Some room ∧
    (handleMessage (handleMessage demoServer 0 MClear 200).1 1 MUndo 201).2
      = [(1%nat, OUndo false None (Some false) (Some false)
                       "Nothing to undo" None)].
Proof.
  intros ws ws'. eexists.
  assert (H1 : sockets demoServer !! 0%nat = Some ws) by (by vm_compute).
  assert (H2 : findBySocket (rooms demoServer) ws = Some _) by (by vm_compute).
  assert (H3 : sockets demoServer !! 1%nat = Some ws') by (by vm_compute).
  assert (H4 : findBySocket (rooms demoServer) ws' = Some _) by (by vm_compute).
  refine (conj demoServer_reachable (conj H1 (conj H2 (conj _
            (conj H3 (conj H4 _)))))).
  - by vm_compute.
  - exact (proj1 (proj2 (proj2 (clear_forgets_history demoServer 0 _ _ 200
                                  demoServer_reachable H1 H2))
                        1%nat _ 201 H3 H4)).
Defined.

Lemma cursor_reaches_whole_room_witness :
  let ws := openSocket "u1" "#e53935" (Some "default") in
  ∃ room,
    srv_reachable demoServer ∧ sockets demoServer !! 0%nat = Some ws ∧
    findBySocket (rooms demoServer) ws = Some room ∧
    ws_readyState ws = OPEN ∧
    (handleMessage demoServer 0 (MCursor (Fin 3) (Fin 4)) 200).1 = demoServer ∧
    (0%nat, OCursor (ws_userId ws) (Fin 3) (Fin 4))
      ∈ (handleMessage demoServer 0 (MCursor (Fin 3) (Fin 4)) 200).2.
Proof.
  intros ws. eexists.
  assert (H1 : sockets demoServer !! 0%nat = Some ws) by (by vm_compute).
  assert (H2 : findBySocket (rooms demoServer) ws = Some _) by (by vm_compute).
  assert (H3 : ws_readyState ws = OPEN) by (by vm_compute).
  refine (conj demoServer_reachable (conj H1 (conj H2 (conj H3 _)))).
  destruct (cursor_reaches_whole_room demoServer 0 _ _ (Fin 3) (Fin 4) 200
              demoServer_reachable H1 H2) as [E Hin].
  split; [by rewrite E|exact (Hin H3)].
Defined.

Lemma failed_undo_redo_change_nothing_witness :
  let ws := openSocket "u2" "#43a047" (Some "studio") in
  ∃ room,
    srv_reachable demoServer ∧ sockets demoServer !! 2%nat = Some ws ∧
    findBySocket (rooms demoServer) ws = Some room ∧
    success (undo (drawingState room) (ws_userId ws)).2 = false ∧
    success (redo (drawingState room) (ws_userId ws)).2 = false ∧
    handleMessage demoServer 2 MUndo 200
      = (demoServer, [(2%nat, OUndo false None (Some false) (Some false)
                                    "Nothing to undo" None)]) ∧
    handleMessage demoServer 2 MRedo 200
      = (demoServer, [(2%nat, ORedo false None (Some false) (Some false)
                                    "Nothing to redo" None)]).
Proof.
  intros ws. eexists.
  assert (H1 : sockets demoServer !! 2%nat = Some ws) by (by vm_compute).
  assert (H2 : findBySocket (rooms demoServer) ws = Some _) by (by vm_compute).
  match type of H2 with
  | _ = Some ?r =>
      assert (H3 : success (undo (drawingState r) (ws_userId ws)).2 = false)
        by (by vm_compute);
      assert (H4 : success (redo (drawingState r) (ws_userId ws)).2 = false)
        by (by vm_compute)
  end.
  refine (conj demoServer_reachable (conj H1 (conj H2 (conj H3 (conj H4 _))))).
  destruct (failed_undo_redo_change_nothing demoServer 2 _ _ 200
              demoServer_reachable H1 H2) as [Hu Hr].
  split.
  - exact (Hu _ eq_refl H3).
  - exact (Hr _ eq_refl H4).
Defined.

Lemma messages_stay_in_room_witness :
  let ws := openSocket "u1" "#e53935" (Some "default") in
    sockets demoServer !! 0%nat = Some ws ∧
    (∀ roomId, MUndo ≠ MJoinRoom roomId) ∧
    sockets (handleMessage demoServer 0 MUndo 200).1 = sockets demoServer ∧
    rooms (handleMessage demoServer 0 MUndo 200).1 !! "studio"
      = rooms demoServer !! "studio" ∧
    (∀ c o, (c, o) ∈ (handleMessage demoServer 0 MUndo 200).2 →
            c = 0%nat ∨
            ∃ r, findBySocket (rooms demoServer) ws = Some r ∧
                 c ∈ openClients (sockets demoServer) r).
Proof.
  intros ws.
  assert (H1 : sockets demoServer !! 0%nat = Some ws) by (by vm_compute).
  assert (H2 : ∀ roomId, MUndo ≠ MJoinRoom roomId) by done.
  refine (conj H1 (conj H2 _)).
  destruct (messages_stay_in_room demoServer 0 ws MUndo 200 H1 H2)
    as (Hs & Hother & _ & Hout).
  split_and!; [exact Hs| |exact Hout].
  apply Hother. intros r Hr. vm_compute in Hr. by injection Hr as <-.
Defined.

Lemma close_leaves_room_witness :
  let ws := openSocket "u1" "#e53935" (Some "default") in
    srv_reachable demoServer ∧ sockets demoServer !! 0%nat = Some ws ∧
    (∀ j r, rooms (onClose demoServer 0 200).1 !! j = Some r →
            0%nat ∉ clients r) ∧
    (onClose demoServer 0 200).2 = [(1%nat, OUserLeft "u1")] ∧
    (userColors <$> rooms (onClose demoServer 0 200).1 !! "default")
      = Some {["u1" := "#e53935"]} ∧
    (userColors <$>
       rooms (onClose (onClose demoServer 0 200).1 1 201).1 !! "default")
      = Some ∅.
Proof.
  intros ws.
  assert (H1 : sockets demoServer !! 0%nat = Some ws) by (by vm_compute).
  refine (conj demoServer_reachable (conj H1 (conj _ _))).
  - exact (proj1 (close_leaves_room demoServer 0 ws 200
                    demoServer_reachable H1)).
  - split_and!; by vm_compute.
Defined.

Lemma reap_removes_only_empty_rooms_witness :
  let srv := (onClose demoServer 2 200).1 in
  srv_reachable srv ∧
  (clients <$> rooms srv !! "studio") = Some [] ∧
  rooms (reap srv) !! "studio" = None ∧
  (∀ i r, rooms (reap srv) !! i = Some r ↔
          rooms srv !! i = Some r ∧ (i = "default" ∨ clients r ≠ [])) ∧
  reap (reap srv) = reap srv.
Proof.
  intros srv.
  assert (H : srv_reachable srv) by (apply sr_close, demoServer_reachable).
  refine (conj H (conj _ (conj _ _))); [by vm_compute|by vm_compute|].
  destruct (reap_removes_only_empty_rooms srv H) as (H1 & _ & H3 & _).
  by split.
Defined.

(** ** More on the log: index, identities, conservation *)

Lemma undo_success_iff s u :
  wf s → success (undo s u).2 = true ↔ userOpsOf s u ≠ [].
Proof.
  intros Hwf.
  destruct (undo_cases s u)
    as [[Hcase ->]|(ids & k & o & Hu & Hf & ->)]; simpl.
  - split; [done|]. intros Hne. exfalso.
    destruct Hcase as [He|(ids & i & Hu & Hf)]; [done|].
    destruct Hwf as [_ _ Hidx].
    assert (Hin : i ∈ opId <$> opsOf u (ops s)).
    { rewrite <- (Hidx u), Hu. apply elem_of_app. right. left. }
    apply list_elem_of_fmap in Hin as (o' & He & Ho').
    apply list_elem_of_filter in Ho' as [_ Ho'].
    eapply list_find_None, Forall_forall in Hf; [|exact Ho']. done.
  - split; [|done]. intros _. rewrite Hu. by destruct ids.
Qed.

(** X12. In every reachable log the per-user index and [ops] agree: the
    index of a user holds exactly the identities of that user's operations
    in [ops] (as a multiset), and the identity of an operation in [ops] is
    in the index of its author and in no other user's. *)
Theorem index_matches_ops s :
  reachable s →
  (∀ u, userOpsOf s u ≡ₚ opId <$> opsOf u (ops s)) ∧
  (∀ o, o ∈ ops s →
        opId o ∈ userOpsOf s (userId o) ∧
        ∀ v, opId o ∈ userOpsOf s v → v = userId o).
Proof.
  intros [Hfresh Hids Hidx]%reachable_wf. split; [done|].
  intros o Ho. split.
  - rewrite (Hidx (userId o)). apply list_elem_of_fmap_2.
    by apply list_elem_of_filter.
  - intros v Hv. rewrite (Hidx v) in Hv.
    apply list_elem_of_fmap in Hv as (o' & He & Ho').
    apply list_elem_of_filter in Ho' as [Hu Ho'].
    rewrite (Hids o o'); [done| | |done]; apply elem_of_app; by left.
Qed.

Lemma index_matches_ops_witness :
  let s := run [draws "u1" [(0,0);(10,10)] 1; draws "u2" [(50,50);(60,60)] 2;
                draws "u1" [(5,5);(9,9)] 3; CUndo "u1"; CRedo "u1"] in
  reachable s ∧ userOpsOf s "u1" = [1; 3] ∧ opId <$> ops s = [1; 2; 3] ∧
  (∀ u, userOpsOf s u ≡ₚ opId <$> opsOf u (ops s)).
Proof.
  intros s. assert (H : reachable s) by (by eexists).
  refine (conj H (conj _ (conj _ _))); [by vm_compute|by vm_compute|].
  exact (proj1 (index_matches_ops s H)).
Defined.

Lemma step_members s c o :
  o ∈ ops (step s c) ++ undoStack (step s c) →
  o ∈ ops s ++ undoStack s ∨
  ∃ input now, c = CAdd input now ∧ o = (addOperation s input now).2.
Proof.
  destruct c as [input now|u|u]; simpl.
  - rewrite !elem_of_app, list_elem_of_singleton.
    intros [[?| ->]|?];
      [left; by left | right; by eexists _, _ | left; by right].
  - destruct (undo_cases s u) as [[_ ->]|(ids & k & o' & _ & Hf & ->)];
      simpl; [by left|].
    apply list_find_Some in Hf as (Hk & _ & _).
    rewrite !elem_of_app, list_elem_of_singleton.
    intros [H|[H| ->]]; left;
      [left; by eapply elem_of_delete_list | by right |].
    left. by eapply list_elem_of_lookup_2.
  - destruct (redo_cases s u)
      as [[_ (msg & _ & ->)]|(op & Hf & [[_ ->]|[_ ->]])]; simpl;
      [by left|by left|].
    apply findUndone_Some in Hf as [Hin _].
    rewrite !elem_of_app, elem_of_splice_in.
    intros [[->|H]|H]; left; [by right|by left|right; by apply elem_of_pop].
Qed.

Lemma nextOpId_run cs : 1 ≤ nextOpId (run cs).
Proof.
  induction cs as [|c cs IH] using rev_ind; [done|].
  rewrite run_snoc. pose proof (nextOpId_step (run cs) c). lia.
Qed.

Lemma clockReadings_snoc cs c :
  clockReadings (cs ++ [c])
  = clockReadings cs ++ match c with CAdd _ now => [now] | _ => [] end.
Proof.
  unfold clockReadings. rewrite omap_app. by destruct c.
Qed.

Lemma run_members cs o :
  o ∈ ops (run cs) ++ undoStack (run cs) →
  1 ≤ opId o < nextOpId (run cs) ∧ timestamp o ∈ clockReadings cs.
Proof.
  revert o. induction cs as [|c cs IH] using rev_ind; intros o.
  { by intros ?%elem_of_nil. }
  rewrite run_snoc, clockReadings_snoc.
  pose proof (nextOpId_step (run cs) c) as Hmono.
  pose proof (nextOpId_run cs) as Hnext.
  intros [Hold|(input & now & -> & ->)]%step_members.
  - destruct (IH o Hold) as [Hid Ht]. split; [lia|].
    apply elem_of_app. by left.
  - simpl in *. split; [lia|]. apply elem_of_app. right. left.
Qed.

(** X13. Every operation of a reachable log, applied or undone, has an
    identity from 1 up to but not including [nextOpId], and two of them
    with the same identity are the same operation. *)
Theorem identities_bounded_and_unique s :
  reachable s →
  (∀ o, o ∈ ops s ++ undoStack s → 1 ≤ opId o < nextOpId s) ∧
  (∀ o o', o ∈ ops s ++ undoStack s → o' ∈ ops s ++ undoStack s →
           opId o = opId o' → o = o').
Proof.
  intros Hr. split.
  - destruct Hr as [cs ->]. intros o Ho. by apply run_members.
  - apply reachable_wf in Hr. by destruct Hr.
Qed.

Lemma identities_bounded_and_unique_witness :
  let s := run [draws "u1" [(0,0);(10,10)] 1; draws "u2" [(50,50);(60,60)] 2;
                CUndo "u1"] in
  reachable s ∧ nextOpId s = 3 ∧
  (∀ o, o ∈ ops s ++ undoStack s → 1 ≤ opId o < nextOpId s).
Proof.
  intros s. assert (H : reachable s) by (by eexists).
  refine (conj H (conj _ _)); [by vm_compute|].
  exact (proj1 (identities_bounded_and_unique s H)).
Defined.

Lemma assigned_consecutive s cs :
  opId <$> assigned s cs
  = seqZ (nextOpId s) (Z.of_nat (length (clockReadings cs))) ∧
  nextOpId (foldl step s cs)
  = nextOpId s + Z.of_nat (length (clockReadings cs)).
Proof.
  revert s. induction cs as [|c cs IH]; intros s.
  { simpl. split; [done|lia]. }
  destruct c as [input now|u|u].
  - destruct (IH (addOperation s input now).1) as [IH1 IH2].
    change (assigned s (CAdd input now :: cs))
      with ((addOperation s input now).2 :: assigned (addOperation s input now).1 cs).
    change (clockReadings (CAdd input now :: cs)) with (now :: clockReadings cs).
    change (foldl step s (CAdd input now :: cs))
      with (foldl step (addOperation s input now).1 cs).
    rewrite fmap_cons, IH1, IH2. cbn [length].
    rewrite Nat2Z.inj_succ, (seqZ_cons (nextOpId s)) by lia.
    change (nextOpId (addOperation s input now).1) with (nextOpId s + 1).
    change (opId (addOperation s input now).2) with (nextOpId s).
    split; [|lia]. f_equal. f_equal; lia.
  - assert (nextOpId (undo s u).1 = nextOpId s) as E.
    { destruct (undo_cases s u) as [[_ ->]|(ids & k & o & _ & _ & ->)]; done. }
    destruct (IH (undo s u).1) as [IH1 IH2]. rewrite E in IH1, IH2.
    done.
  - assert (nextOpId (redo s u).1 = nextOpId s) as E.
    { destruct (redo_cases s u)
        as [[_ (msg & _ & ->)]|(op & _ & [[_ ->]|[_ ->]])]; done. }
    destruct (IH (redo s u).1) as [IH1 IH2]. rewrite E in IH1, IH2.
    done.
Qed.

(** X14. The identities [addOperation] hands out along a history are
    1, 2, 3, ... in the order of the calls, whatever [undo]s and [redo]s
    come in between, and [nextOpId] is one more than the number of
    operations added so far. *)
Theorem identities_are_consecutive cs :
  opId <$> assigned newDrawingState cs
  = seqZ 1 (Z.of_nat (length (clockReadings cs))) ∧
  nextOpId (run cs) = 1 + Z.of_nat (length (clockReadings cs)).
Proof. apply (assigned_consecutive newDrawingState cs). Qed.

(** X15. [undo] never loses or duplicates an operation: in any log the
    operations of [ops] and [undoStack] taken together are the same before
    and after, [nextOpId] is untouched, a failed [undo] changes nothing at
    all, and a successful one moves exactly one operation from [ops] to the
    top of [undoStack]. *)
Theorem undo_conserves_operations s u :
  ops (undo s u).1 ++ undoStack (undo s u).1 ≡ₚ ops s ++ undoStack s ∧
  nextOpId (undo s u).1 = nextOpId s ∧
  (success (undo s u).2 = false → (undo s u).1 = s) ∧
  (success (undo s u).2 = true →
     ∃ o, res_op (undo s u).2 = Some o ∧ o ∈ ops s ∧
          ops s ≡ₚ o :: ops (undo s u).1 ∧
          undoStack (undo s u).1 = undoStack s ++ [o]).
Proof.
  destruct (undo_cases s u) as [[_ ->]|(ids & k & o & _ & Hf & ->)]; simpl.
  { by split_and!. }
  apply list_find_Some in Hf as (Hk & _ & _).
  pose proof (delete_Permutation _ _ _ Hk) as Hp.
  split_and!; try done.
  - symmetry. etrans; [apply Permutation_app_tail, Hp|].
    simpl. rewrite app_assoc. apply Permutation_cons_append.
  - intros _. exists o. split_and!; try done.
    by eapply list_elem_of_lookup_2.
Qed.

(** X16. A successful [redo] conserves the operations when its candidate
    is the top of the undo stack, that is, when no other user has undone
    after the requester: the candidate moves from the top of [undoStack]
    into [ops], and nothing else changes place. *)
Theorem redo_conserves_when_top s u o :
  last (undoStack s) = Some o → userId o = u →
  success (redo s u).2 = true →
  res_op (redo s u).2 = Some o ∧
  undoStack s = undoStack (redo s u).1 ++ [o] ∧
  ops (redo s u).1 ≡ₚ o :: ops s ∧
  ops (redo s u).1 ++ undoStack (redo s u).1 ≡ₚ ops s ++ undoStack s.
Proof.
  intros Hlast Hown.
  apply last_Some in Hlast as [stack Hstack].
  destruct (redo_cases s u)
    as [[_ (msg & _ & ->)]|(op & Hf & [[_ ->]|[_ ->]])]; simpl; try done.
  intros _. rewrite Hstack, findUndone_top in Hf by done.
  injection Hf as <-. rewrite Hstack, pop_snoc.
  split_and!; try done.
  - apply splice_in_Permutation.
  - rewrite splice_in_Permutation. simpl.
    rewrite app_assoc. apply Permutation_cons_append.
Qed.

Lemma redo_conserves_when_top_witness :
  let s := run [draws "u1" [(0,0);(10,10)] 1; draws "u2" [(50,50);(60,60)] 2;
                CUndo "u2"; CUndo "u1"] in
  let o := entry "u1" (stroke [(0,0);(10,10)] 4) 1 1 in
  last (undoStack s) = Some o ∧ userId o = "u1" ∧
  success (redo s "u1").2 = true ∧
  ops (redo s "u1").1 ++ undoStack (redo s "u1").1 ≡ₚ ops s ++ undoStack s.
Proof.
  intros s o.
  assert (H1 : last (undoStack s) = Some o) by (by vm_compute).
  assert (H2 : userId o = "u1") by done.
  assert (H3 : success (redo s "u1").2 = true) by (by vm_compute).
  refine (conj H1 (conj H2 (conj H3 _))).
  exact (proj2 (proj2 (proj2 (redo_conserves_when_top s "u1" o H1 H2 H3)))).
Defined.

Lemma list_find_snoc_fresh (l : list Op) o :
  (∀ o', o' ∈ l → opId o' ≠ opId o) →
  list_find (λ o', opId o' = opId o) (l ++ [o]) = Some (length l, o).
Proof.
  intros Hfresh. apply list_find_Some. split_and!.
  - by rewrite list_lookup_middle.
  - done.
  - intros j y Hj Hlt. rewrite lookup_app_l in Hj by done.
    apply Hfresh. by eapply list_elem_of_lookup_2.
Qed.

(** X17. In a reachable log, an operation that was just added is the one
    its author's next [undo] takes back: the [undo] succeeds, returns that
    operation, puts it on top of the undo stack, and [ops] and the
    author's index are what they were before the operation was added. *)
Theorem undo_after_add_restores s input now :
  reachable s →
  let s1 := (addOperation s input now).1 in
  let op := (addOperation s input now).2 in
  success (undo s1 (in_userId input)).2 = true ∧
  res_op (undo s1 (in_userId input)).2 = Some op ∧
  ops (undo s1 (in_userId input)).1 = ops s ∧
  undoStack (undo s1 (in_userId input)).1 = undoStack s ++ [op] ∧
  ∀ v, userOpsOf (undo s1 (in_userId input)).1 v = userOpsOf s v.
Proof.
  intros [Hfresh _ _]%reachable_wf s1 op.
  assert (Hu : userOpsOf s1 (in_userId input)
               = userOpsOf s (in_userId input) ++ [opId op]).
  { subst s1. unfold addOperation. simpl.
    by rewrite userOpsOf_push, decide_True. }
  assert (Hfind : list_find (λ o', opId o' = opId op) (ops s1)
                  = Some (length (ops s), op)).
  { apply list_find_snoc_fresh. intros o' Ho'.
    assert (opId o' < nextOpId s) by (apply Hfresh, elem_of_app; by left).
    simpl. lia. }
  destruct (undo_cases s1 (in_userId input))
    as [[Hcase E]|(ids & k & o & Hu' & Hf & E)].
  - exfalso. destruct Hcase as [He|(ids & i & Hu' & Hnone)].
    + rewrite Hu in He. by destruct (userOpsOf s (in_userId input)).
    + rewrite Hu in Hu'. apply app_inj_tail in Hu' as [_ <-]. congruence.
  - rewrite Hu in Hu'. apply app_inj_tail in Hu' as [<- Hid].
    rewrite <- Hid in Hf. rewrite Hfind in Hf. injection Hf as <- <-.
    rewrite E. cbn [fst snd success res_op ops undoStack].
    split_and!; try done.
    + change (ops s1) with (ops s ++ [op]).
      rewrite delete_take_drop, take_app_length.
      by rewrite drop_ge, app_nil_r by (rewrite length_app; simpl; lia).
    + intros v. rewrite userOpsOf_alter_pop.
      destruct (decide (in_userId input = v)) as [<-|Hne].
      * by rewrite Hu, pop_snoc.
      * subst s1. unfold addOperation. simpl.
        by rewrite userOpsOf_push, decide_False.
Qed.

Lemma undo_after_add_restores_witness :
  let s := run [draws "u1" [(0,0);(10,10)] 1; draws "u2" [(50,50);(60,60)] 2] in
  let input := {| in_userId := "u1"; in_op := stroke [(5,5);(9,9)] 2 |} in
  reachable s ∧
  ops (undo (addOperation s input 3).1 "u1").1 = ops s ∧
  res_op (undo (addOperation s input 3).1 "u1").2
    = Some (addOperation s input 3).2.
Proof.
  intros s input. assert (H : reachable s) by (by eexists).
  destruct (undo_after_add_restores s input 3 H) as (_ & H2 & H3 & _).
  by refine (conj H (conj H3 H2)).
Defined.

Lemma undo_conserves_operations_witness :
  let s := run [draws "u1" [(0,0);(10,10)] 1; draws "u2" [(50,50);(60,60)] 2] in
  success (undo s "u1").2 = true ∧ success (undo s "u3").2 = false ∧
  (undo s "u3").1 = s ∧
  ∃ o, res_op (undo s "u1").2 = Some o ∧ o ∈ ops s ∧
       ops s ≡ₚ o :: ops (undo s "u1").1 ∧
       undoStack (undo s "u1").1 = undoStack s ++ [o].
Proof.
  intros s.
  assert (H1 : success (undo s "u1").2 = true) by (by vm_compute).
  assert (H2 : success (undo s "u3").2 = false) by (by vm_compute).
  refine (conj H1 (conj H2 (conj _ _))).
  - exact (proj1 (proj2 (proj2 (undo_conserves_operations s "u3"))) H2).
  - exact (proj2 (proj2 (proj2 (undo_conserves_operations s "u1"))) H1).
Defined.

(** ** Snapshots *)

Lemma redo_nothing_iff s u :
  isNothingToRedo (redo s u).2 ↔ opsOf u (undoStack s) = [].
Proof.
  rewrite opsOf_nil.
  destruct (redo_cases s u)
    as [[Hno (msg & Hmsg & ->)]|(op & Hf & [[_ ->]|[_ ->]])]; simpl.
  - split; [done|]. intros _. by split.
  - apply findUndone_Some in Hf as [Hin Hown]. split.
    + intros [_ [?|?]]; simplify_eq/=.
    + intros Hno. by destruct (Hno op).
  - apply findUndone_Some in Hf as [Hin Hown]. split.
    + by intros [? _].
    + intros Hno. by destruct (Hno op).
Qed.

(** X18. In a reachable log the flags of [getSnapshot] for a user tell
    what that user's next call will do: [canUndo] is true exactly when
    [undo] would succeed, and exactly when the user has an operation in
    [ops]; [canRedo] is false exactly when [redo] would answer that there
    is nothing to redo. Without a user both flags are false, whatever the
    log holds. *)
Theorem snapshot_flags_predict s u :
  reachable s →
  (snap_canUndo (getSnapshot s (Some u)) = true ↔
   success (undo s u).2 = true) ∧
  (snap_canUndo (getSnapshot s (Some u)) = true ↔ opsOf u (ops s) ≠ []) ∧
  (snap_canRedo (getSnapshot s (Some u)) = false ↔
   isNothingToRedo (redo s u).2) ∧
  getSnapshot s None
  = {| snap_ops := ops s; snap_canUndo := false; snap_canRedo := false |}.
Proof.
  intros Hwf%reachable_wf.
  assert (Hcu : snap_canUndo (getSnapshot s (Some u)) = true ↔
                userOpsOf s u ≠ []).
  { simpl. rewrite bool_decide_eq_true.
    destruct (userOpsOf s u); simpl; split; (done || lia). }
  split_and!.
  - by rewrite Hcu, undo_success_iff.
  - rewrite Hcu. pose proof (wf_index _ Hwf u) as Hidx. split; intros H E.
    + rewrite E in Hidx. by apply Permutation_nil_r in Hidx.
    + rewrite E in Hidx. symmetry in Hidx.
      apply Permutation_nil_r, fmap_nil_inv in Hidx. done.
  - rewrite redo_nothing_iff. simpl. rewrite bool_decide_eq_false.
    fold (opsOf u (undoStack s)).
    destruct (opsOf u (undoStack s)); simpl; split; (done || lia).
  - done.
Qed.

Lemma snapshot_flags_predict_witness :
  let s := run [draws "u1" [(0,0);(10,10)] 1; draws "u2" [(50,50);(60,60)] 2;
                CUndo "u2"] in
  reachable s ∧
  snap_canUndo (getSnapshot s (Some "u1")) = true ∧
  snap_canRedo (getSnapshot s (Some "u1")) = false ∧
  success (undo s "u1").2 = true ∧
  isNothingToRedo (redo s "u1").2.
Proof.
  intros s. assert (H : reachable s) by (by eexists).
  assert (H1 : snap_canUndo (getSnapshot s (Some "u1")) = true)
    by (by vm_compute).
  assert (H2 : snap_canRedo (getSnapshot s (Some "u1")) = false)
    by (by vm_compute).
  destruct (snapshot_flags_predict s "u1" H) as (Hu & _ & Hr & _).
  refine (conj H (conj H1 (conj H2 (conj _ _)))).
  - exact (proj1 Hu H1).
  - exact (proj1 Hr H2).
Defined.

(** ** Timestamp order, continued *)

(** X19. Along a history without [redo] whose clock never goes backwards,
    [ops] is sorted by timestamp at the end; and in any history every
    timestamp in the log is one of the clock readings of its
    [addOperation] calls. *)
Theorem ops_sorted_without_redo cs :
  (∀ o, o ∈ ops (run cs) ++ undoStack (run cs) →
        timestamp o ∈ clockReadings cs) ∧
  (Forall (λ c, ∀ u, c ≠ CRedo u) cs →
   StronglySorted Z.le (clockReadings cs) →
   StronglySorted Z.le (timestamp <$> ops (run cs))).
Proof.
  split; [intros o Ho; by apply run_members|].
  induction cs as [|c cs IH] using rev_ind; intros Hnr Hclock.
  { constructor. }
  rewrite Forall_app, Forall_singleton in Hnr. destruct Hnr as [Hnr Hc].
  rewrite clockReadings_snoc in Hclock. rewrite run_snoc.
  apply StronglySorted_app in Hclock as (Hlast & Hclock & _).
  specialize (IH Hnr Hclock).
  destruct c as [input now|u|u].
  - apply addOperation_keeps_sorted; [done|].
    apply Forall_forall. intros o Ho. apply Hlast; [|left].
    apply run_members, elem_of_app. by left.
  - by apply undo_keeps_sorted.
  - by destruct (Hc u).
Qed.

Lemma ops_sorted_without_redo_witness :
  let cs := [draws "u1" [(0,0);(10,10)] 5; draws "u2" [(50,50);(60,60)] 5;
             CUndo "u1"; draws "u1" [(1,1);(2,2)] 8] in
  Forall (λ c, ∀ u, c ≠ CRedo u) cs ∧
  StronglySorted Z.le (clockReadings cs) ∧
  timestamp <$> ops (run cs) = [5; 8] ∧
  StronglySorted Z.le (timestamp <$> ops (run cs)).
Proof.
  intros cs.
  assert (H1 : Forall (λ c, ∀ u, c ≠ CRedo u) cs) by (repeat constructor; done).
  assert (H2 : StronglySorted Z.le (clockReadings cs)).
  { vm_compute. repeat constructor; by intros [=]. }
  refine (conj H1 (conj H2 (conj _ _))); [by vm_compute|].
  exact (proj2 (ops_sorted_without_redo cs) H1 H2).
Defined.

Lemma StronglySorted_le_last (l : list Op) e o :
  StronglySorted Z.le (timestamp <$> l) → e ∈ l → last l = Some o →
  timestamp e ≤ timestamp o.
Proof.
  intros Hs He [l' ->]%last_Some.
  apply elem_of_app in He as [He| ->%list_elem_of_singleton]; [|done].
  rewrite fmap_app in Hs. apply StronglySorted_app in Hs as (H & _ & _).
  apply H; [by apply list_elem_of_fmap_2|left].
Qed.

(** X20. On a log sorted by timestamp the check against the last
    operation in [redo] is redundant: the candidate is blocked exactly when
    some operation of [ops] is newer and overlaps it. (On an unsorted log
    the check can let such a conflict pass.) *)
Theorem redoBlocked_on_sorted_log l op :
  StronglySorted Z.le (timestamp <$> l) →
  redoBlocked l op = true ↔
  ∃ e, e ∈ l ∧ timestamp op < timestamp e ∧ operationsOverlap e op = true.
Proof.
  intros Hs. unfold redoBlocked.
  rewrite andb_true_iff, bool_decide_eq_true, hasNewerOps_true.
  split; [by intros [_ ?]|].
  intros (e & He & Hlt & Ho). split; [|by exists e].
  unfold latestOpTimestamp. destruct (last l) as [o|] eqn:Hlast.
  - pose proof (StronglySorted_le_last l e o Hs He Hlast). lia.
  - apply last_None in Hlast. subst l. by apply elem_of_nil in He.
Qed.

Lemma redoBlocked_on_sorted_log_witness :
  let a := entry "u1" (stroke [(0, 0); (10, 10)] 4) 1 1 in
  let b := entry "u2" (stroke [(5, 5); (20, 20)] 4) 2 2 in
  let c := entry "u2" (stroke [(50, 50); (60, 60)] 4) 3 3 in
  StronglySorted Z.le (timestamp <$> [b; c]) ∧
  redoBlocked [b; c] a = true ∧
  (redoBlocked [b; c] a = true ↔
   ∃ e, e ∈ [b; c] ∧ timestamp a < timestamp e ∧
        operationsOverlap e a = true).
Proof.
  intros a b c.
  assert (H : StronglySorted Z.le (timestamp <$> [b; c])).
  { vm_compute. repeat constructor; by intros [=]. }
  refine (conj H (conj _ _)); [by vm_compute|].
  exact (redoBlocked_on_sorted_log [b; c] a H).
Defined.

(** The check against the last operation hides a conflict when the log is
    out of order: the first stroke is newer than the candidate and overlaps
    it, the last one is older, and [redo] goes through. *)
Example unsorted_log_hides_conflict :
  let a := entry "u1" (stroke [(0, 0); (10, 10)] 4) 2 2 in
  let b := entry "u2" (stroke [(5, 5); (20, 20)] 4) 3 3 in
  let c := entry "u2" (stroke [(50, 50); (60, 60)] 4) 1 1 in
  hasNewerOps [b; c] a = true ∧ redoBlocked [b; c] a = false.
Proof. by vm_compute. Qed.

(** X21. On a log sorted by timestamp, a successful [redo] leaves [ops]
    sorted exactly when [ops] was empty or held an operation that is not
    newer than the redone one. *)
Theorem redo_keeps_order_iff s u op :
  StronglySorted Z.le (timestamp <$> ops s) →
  res_op (redo s u).2 = Some op →
  StronglySorted Z.le (timestamp <$> ops (redo s u).1) ↔
  ops s = [] ∨ ∃ e, e ∈ ops s ∧ timestamp e ≤ timestamp op.
Proof.
  intros Hs Hres. split.
  - intros Hs'.
    destruct (decide (Exists (λ e, timestamp e ≤ timestamp op) (ops s)))
      as [Hex|Hall].
    { right. apply Exists_exists in Hex as (e & He & Hle). by exists e. }
    apply not_Exists_Forall in Hall; [|intros ?; apply _].
    assert (Hnewer : Forall (λ e, timestamp op < timestamp e) (ops s)).
    { eapply Forall_impl; [exact Hall|]. simpl. intros; lia. }
    destruct (redo_cases s u)
      as [[_ (msg & _ & E)]|(op' & Hf & [[_ E]|[Hb E]])];
      rewrite E in Hres; simpl in Hres; try done.
    injection Hres as ->.
    rewrite (redo_appends_when_all_newer s u op Hf Hb Hnewer) in Hs'.
    destruct (ops s) as [|e l]; [by left|]. exfalso.
    rewrite fmap_app in Hs'. apply StronglySorted_app in Hs' as (H & _ & _).
    apply Forall_cons in Hnewer as [He _].
    specialize (H (timestamp e) (timestamp op)).
    assert (timestamp e ≤ timestamp op); [|lia].
    apply H; [left|left].
  - intros [Hnil|Hex]; eapply redo_keeps_sorted_when_found; eauto.
Qed.

Lemma redo_keeps_order_iff_witness :
  let s := run [draws "u1" [(0,0);(10,10)] 1; draws "u2" [(50,50);(60,60)] 2;
                draws "u1" [(90,0);(99,9)] 3; CUndo "u2"] in
  let op := entry "u2" (stroke [(50,50);(60,60)] 4) 2 2 in
  StronglySorted Z.le (timestamp <$> ops s) ∧
  res_op (redo s "u2").2 = Some op ∧
  timestamp <$> ops (redo s "u2").1 = [1; 2; 3] ∧
  (StronglySorted Z.le (timestamp <$> ops (redo s "u2").1) ↔
   ops s = [] ∨ ∃ e, e ∈ ops s ∧ timestamp e ≤ timestamp op).
Proof.
  intros s op.
  assert (H1 : StronglySorted Z.le (timestamp <$> ops s)).
  { vm_compute. repeat constructor; by intros [=]. }
  assert (H2 : res_op (redo s "u2").2 = Some op) by (by vm_compute).
  refine (conj H1 (conj H2 (conj _ _))); [by vm_compute|].
  exact (redo_keeps_order_iff s "u2" op H1 H2).
Defined.

(** ** The overlap test, continued *)

Lemma num_max_comm a b : num_max a b = num_max b a.
Proof. destruct a, b; simpl; try done. by rewrite Z.max_comm. Qed.

(** X22. [operationsOverlap] is symmetric, for all operations: malformed
    paths, missing widths and non-numeric coordinates included. *)
Theorem operationsOverlap_sym op1 op2 :
  operationsOverlap op1 op2 = operationsOverlap op2 op1.
Proof.
  unfold operationsOverlap.
  destruct (path op1) as [p1|], (path op2) as [p2|]; try done.
  rewrite (orb_comm (bool_decide (length p1 < 2)%nat)).
  destruct (bool_decide (length p2 < 2)%nat || bool_decide (length p1 < 2)%nat);
    [done|].
  rewrite (num_max_comm (num_or (width op1) (Fin 4))).
  f_equal.
  destruct (num_lt (num_add (maxX (getPathBoundingBox p1)) _) _),
           (num_lt (num_add (maxX (getPathBoundingBox p2)) _) _),
           (num_lt (num_add (maxY (getPathBoundingBox p1)) _) _),
           (num_lt (num_add (maxY (getPathBoundingBox p2)) _) _); done.
Qed.

Lemma getPathBoundingBox_snoc p q :
  getPathBoundingBox (p ++ [q])
  = {| minX := num_min (minX (getPathBoundingBox p)) (x q);
       maxX := num_max (maxX (getPathBoundingBox p)) (x q);
       minY := num_min (minY (getPathBoundingBox p)) (y q);
       maxY := num_max (maxY (getPathBoundingBox p)) (y q) |}.
Proof. unfold getPathBoundingBox. by rewrite foldl_app. Qed.

Lemma num_min_NaN_l a : num_min NaN a = NaN.
Proof. by destruct a. Qed.
Lemma num_min_NaN_r a : num_min a NaN = NaN.
Proof. by destruct a. Qed.
Lemma num_max_NaN_l a : num_max NaN a = NaN.
Proof. by destruct a. Qed.
Lemma num_max_NaN_r a : num_max a NaN = NaN.
Proof. by destruct a. Qed.

(** One coordinate that converts to NaN makes both bounds of that axis
    NaN. *)
Lemma getPathBoundingBox_NaN p q :
  q ∈ p →
  (x q = NaN → minX (getPathBoundingBox p) = NaN ∧
               maxX (getPathBoundingBox p) = NaN) ∧
  (y q = NaN → minY (getPathBoundingBox p) = NaN ∧
               maxY (getPathBoundingBox p) = NaN).
Proof.
  induction p as [|a p IH] using rev_ind; [by intros ?%elem_of_nil|].
  rewrite getPathBoundingBox_snoc. simpl.
  intros [Hq| ->%list_elem_of_singleton]%elem_of_app.
  - destruct (IH Hq) as [Hx Hy]. split.
    + intros [-> ->]%Hx. by rewrite num_min_NaN_l, num_max_NaN_l.
    + intros [-> ->]%Hy. by rewrite num_min_NaN_l, num_max_NaN_l.
  - split; intros ->; by rewrite num_min_NaN_r, num_max_NaN_r.
Qed.

Lemma num_lt_NaN_r a : num_lt a NaN = false.
Proof. by destruct a. Qed.
Lemma num_lt_NaN_l a : num_lt NaN a = false.
Proof. by destruct a. Qed.
Lemma num_add_NaN_l a : num_add NaN a = NaN.
Proof. by destruct a. Qed.

(** X23. A stroke of at least two points, one of which has an [x] and a
    [y] that both convert to NaN (each is missing, a plain object or a
    string that is no numeric literal; [null], booleans and numeric
    strings convert to numbers and are not meant), overlaps every stroke
    of at least two points, wherever that one lies and in either argument
    order: all four comparisons of [operationsOverlap] involve a NaN bound
    and are false. *)
Theorem nan_point_overlaps_everything op1 op2 p1 p2 q :
  path op1 = Some p1 → path op2 = Some p2 →
  (2 ≤ length p1)%nat → (2 ≤ length p2)%nat →
  q ∈ p1 → x q = NaN → y q = NaN →
  operationsOverlap op1 op2 = true ∧ operationsOverlap op2 op1 = true.
Proof.
  intros Hp1 Hp2 Hl1 Hl2 Hq Hx Hy.
  destruct (getPathBoundingBox_NaN p1 q Hq) as [HX HY].
  destruct (HX Hx) as [Hx0 Hx1]. destruct (HY Hy) as [Hy0 Hy1].
  unfold operationsOverlap. rewrite Hp1, Hp2.
  rewrite !bool_decide_eq_false_2 by lia. simpl orb. cbv iota.
  rewrite Hx0, Hx1, Hy0, Hy1.
  by rewrite !num_add_NaN_l, !num_lt_NaN_r, !num_lt_NaN_l.
Qed.

Lemma nan_point_overlaps_everything_witness :
  let hole := {| x := NaN; y := NaN |} in
  let p1 := [toPoint (0, 0); hole] in
  let p2 := toPoint <$> [(500, 500); (600, 600)] in
  let a := entry "u1" {| raw_path := Some p1; raw_color := None;
                         raw_width := NaN; raw_mode := None |} 1 1 in
  let b := entry "u2" (stroke [(500, 500); (600, 600)] 1) 2 2 in
  (2 ≤ length p1)%nat ∧ (2 ≤ length p2)%nat ∧ hole ∈ p1 ∧
  operationsOverlap a b = true ∧ operationsOverlap b a = true.
Proof.
  intros hole p1 p2 a b.
  assert (H1 : (2 ≤ length p1)%nat) by (simpl; lia).
  assert (H2 : (2 ≤ length p2)%nat) by (simpl; lia).
  assert (H3 : hole ∈ p1) by (right; left).
  refine (conj H1 (conj H2 (conj H3 _))).
  exact (nan_point_overlaps_everything a b p1 p2 hole eq_refl eq_refl
           H1 H2 H3 eq_refl eq_refl).
Defined.

Lemma foldr_min_attained a (xs : list Z) : foldr Z.min a xs ∈ a :: xs.
Proof.
  induction xs as [|c xs IH]; simpl; [left|].
  destruct (Z.min_spec c (foldr Z.min a xs)) as [[_ ->]|[_ ->]].
  - right. left.
  - apply elem_of_cons in IH as [->|IH]; [left|]. right. by right.
Qed.

Lemma foldr_max_attained a (xs : list Z) : foldr Z.max a xs ∈ a :: xs.
Proof.
  induction xs as [|c xs IH]; simpl; [left|].
  destruct (Z.max_spec c (foldr Z.max a xs)) as [[_ ->]|[_ ->]].
  - apply elem_of_cons in IH as [->|IH]; [left|]. right. by right.
  - right. left.
Qed.

(** X24. On a path of points with integer coordinates
    [getPathBoundingBox] returns the tight bounding box: every point of
    the path lies within the four bounds, and each bound is the coordinate
    of some point of the path. On the empty path it returns the bounds it
    started from, [Infinity] for the minima and [-Infinity] for the
    maxima. *)
Theorem getPathBoundingBox_tight q pts :
  getPathBoundingBox []
    = {| minX := PInf; maxX := NInf; minY := PInf; maxY := NInf |} ∧
  ∃ b, getPathBoundingBox (toPoint <$> q :: pts)
       = {| minX := Fin (x0 b); maxX := Fin (x1 b);
            minY := Fin (y0 b); maxY := Fin (y1 b) |} ∧
       (∀ p, p ∈ q :: pts → inBox b p) ∧
       x0 b ∈ fst <$> q :: pts ∧ x1 b ∈ fst <$> q :: pts ∧
       y0 b ∈ snd <$> q :: pts ∧ y1 b ∈ snd <$> q :: pts.
Proof.
  split; [done|]. exists (bbox (q :: pts)).
  split_and!.
  - apply getPathBoundingBox_fin.
  - intros p. apply bbox_contains.
  - apply foldr_min_attained.
  - apply foldr_max_attained.
  - apply foldr_min_attained.
  - apply foldr_max_attained.
Qed.

Lemma getPathBoundingBox_tight_witness :
  ∃ b, getPathBoundingBox (toPoint <$> [(3, 9); (-2, 4); (7, 5)])
       = {| minX := Fin (x0 b); maxX := Fin (x1 b);
            minY := Fin (y0 b); maxY := Fin (y1 b) |} ∧
       (∀ p, p ∈ [(3, 9); (-2, 4); (7, 5)] → inBox b p) ∧
       inBox b (7, 5).
Proof.
  destruct (proj2 (getPathBoundingBox_tight (3, 9) [(-2, 4); (7, 5)]))
    as (b & Hb & Hin & _).
  exists b. split_and!; [exact Hb|exact Hin|].
  apply Hin. right. right. left.
Defined.

(** ** The client: what [flushPath] sends *)

Lemma flushPath_cases app final now :
  let clean := filter (λ p, cleanPoint p = true) (c_path app) in
  ((length clean < 2)%nat ∧ flushPath app final now = (app, [])) ∨
  ((2 ≤ length clean)%nat ∧
   (flushPath app final now).2
     = wsSend app (CDraw {| raw_path := Some clean;
                            raw_color := Some (c_color app);
                            raw_width := c_size app;
                            raw_mode := Some (c_tool app) |}) ∧
   c_path (flushPath app final now).1 = (if final then [] else c_path app) ∧
   c_drawing (flushPath app final now).1 = c_drawing app ∧
   c_open (flushPath app final now).1 = c_open app ∧
   c_lastSent (flushPath app final now).1 = c_lastSent app).
Proof.
  intros clean. unfold flushPath. fold clean.
  pose proof (length_filter (λ p, cleanPoint p = true) (c_path app)) as Hle.
  fold clean in Hle.
  case_bool_decide as H1; [left; split; [lia|done]|].
  case_bool_decide as H2; [by left|].
  right. simpl. split_and!; (done || lia).
Qed.

(** X25. Whatever path the client has collected, [flushPath] sends at most
    one [draw], and a [draw] it sends carries the collected points without
    those that lack a numeric [x] or [y], at least two of them, with the
    current colour, size and tool; the operation the server makes of it is
    never degenerate. With fewer than two such points nothing is sent and
    the client is unchanged. *)
Theorem flushPath_sends_clean_paths app final now :
  (∀ m, m ∈ (flushPath app final now).2 →
     ∃ p, m = CDraw {| raw_path := Some p; raw_color := Some (c_color app);
                       raw_width := c_size app;
                       raw_mode := Some (c_tool app) |} ∧
          p = filter (λ q, cleanPoint q = true) (c_path app) ∧
          (2 ≤ length p)%nat ∧
          Forall (λ q, x q ≠ NaN ∧ y q ≠ NaN) p ∧
          ∀ raw u i t, m = CDraw raw → ¬ degenerate (entry u raw i t)) ∧
  ((length (filter (λ q, cleanPoint q = true) (c_path app)) < 2)%nat →
     flushPath app final now = (app, [])) ∧
  (length (flushPath app final now).2 ≤ 1)%nat.
Proof.
  destruct (flushPath_cases app final now) as [[Hlt E]|(Hge & E & _)].
  - rewrite E. split_and!; [by intros m ?%elem_of_nil|done|simpl; lia].
  - rewrite E. unfold wsSend. split_and!.
    + intros m Hm. destruct (c_open app); [|by apply elem_of_nil in Hm].
      apply list_elem_of_singleton in Hm as ->.
      eexists. split_and!; try done.
      * apply Forall_forall. intros q [Hq _]%list_elem_of_filter.
        unfold cleanPoint in Hq. destruct (x q), (y q); done.
      * intros raw u i t [= <-]. unfold degenerate. simpl. lia.
    + intros Hlt. lia.
    + destruct (c_open app); simpl; lia.
Qed.

Lemma flushPath_sends_clean_paths_witness :
  let app := setPath [toPoint (1, 1); {| x := NaN; y := Fin 2 |};
                      toPoint (3, 3)] (newCanvasApp "u1") in
  let lone := setPath [toPoint (1, 1); {| x := NaN; y := Fin 2 |}]
                      (newCanvasApp "u1") in
  (length (filter (λ q, cleanPoint q = true) (c_path lone)) < 2)%nat ∧
  flushPath lone true 7 = (lone, []) ∧
  drawnPaths (flushPath app true 7).2 = [[toPoint (1, 1); toPoint (3, 3)]] ∧
  (∀ m, m ∈ (flushPath app true 7).2 →
     ∃ p, m = CDraw {| raw_path := Some p; raw_color := Some (c_color app);
                       raw_width := c_size app;
                       raw_mode := Some (c_tool app) |} ∧
          p = filter (λ q, cleanPoint q = true) (c_path app) ∧
          (2 ≤ length p)%nat ∧
          Forall (λ q, x q ≠ NaN ∧ y q ≠ NaN) p ∧
          ∀ raw u i t, m = CDraw raw → ¬ degenerate (entry u raw i t)).
Proof.
  intros app lone.
  assert (H : (length (filter (λ q, cleanPoint q = true) (c_path lone)) < 2)%nat)
    by (vm_compute; lia).
  refine (conj H (conj _ (conj _ _))).
  - exact (proj1 (proj2 (flushPath_sends_clean_paths lone true 7)) H).
  - by vm_compute.
  - exact (proj1 (flushPath_sends_clean_paths app true 7)).
Defined.

(** ** The client: one gesture, several strokes *)

Lemma drawnPaths_app out1 out2 :
  drawnPaths (out1 ++ out2) = drawnPaths out1 ++ drawnPaths out2.
Proof. unfold drawnPaths. apply omap_app. Qed.

Lemma drawnPaths_flushPath app final now :
  drawnPaths (flushPath app final now).2 = [] ∨
  (drawnPaths (flushPath app final now).2 = [cleanOf (c_path app)] ∧
   (2 ≤ length (cleanOf (c_path app)))%nat).
Proof.
  destruct (flushPath_cases app final now) as [[_ ->]|(Hge & -> & _)];
    [by left|].
  unfold wsSend. destruct (c_open app); [right|left]; done.
Qed.

Lemma drawnPaths_flushPath_open app final now :
  c_open app = true → (2 ≤ length (cleanOf (c_path app)))%nat →
  drawnPaths (flushPath app final now).2 = [cleanOf (c_path app)].
Proof.
  intros Hopen Hge.
  destruct (flushPath_cases app final now) as [[Hlt _]|(_ & -> & _)].
  - unfold cleanOf in Hge. lia.
  - unfold wsSend. by rewrite Hopen.
Qed.

Lemma flushPath_keeps app now :
  c_path (flushPath app false now).1 = c_path app ∧
  c_drawing (flushPath app false now).1 = c_drawing app ∧
  c_open (flushPath app false now).1 = c_open app.
Proof.
  destruct (flushPath_cases app false now) as [[_ ->]|(_ & _ & ? & ? & ? & _)];
    done.
Qed.

Lemma drawnPaths_cursor app cx cy : drawnPaths (wsSend app (CCursor cx cy)) = [].
Proof. unfold wsSend. by destruct (c_open app). Qed.

Lemma cleanOf_snoc_prefix pts p : cleanOf pts `prefix_of` cleanOf (pts ++ [p]).
Proof. unfold cleanOf. rewrite filter_app. by apply prefix_app_r. Qed.

(** Appending a path that all earlier ones are prefixes of. *)
Lemma chain_snoc (l : list (list Point)) q :
  StronglySorted prefix l → (∀ q', q' ∈ l → q' `prefix_of` q) →
  StronglySorted prefix (l ++ [q]).
Proof.
  intros Hs Hall. apply StronglySorted_app_2; [|done|repeat constructor].
  intros q1 q2 Hq1 ->%list_elem_of_singleton. by apply Hall.
Qed.

Lemma drawing_inv_start app p0 t0 :
  drawing_inv (c_open app) [p0] (pointerStart app p0 t0, []).
Proof.
  split; simpl; try done.
  - by intros q ?%elem_of_nil.
  - constructor.
Qed.

Lemma drawing_inv_move isOpen pts st p now :
  drawing_inv isOpen pts st →
  drawing_inv isOpen (pts ++ [p]) (pointerStep st (PMove p now)).
Proof.
  intros [Hd Ho Hp Hsent Hchain]. destruct st as [app out]. simpl in *.
  unfold pointerStep, pointerMove. simpl. rewrite Hd. simpl.
  assert (Hold : ∀ q, q ∈ drawnPaths out →
                      q `prefix_of` cleanOf (pts ++ [p]) ∧ (2 ≤ length q)%nat).
  { intros q [Hq Hl]%Hsent. split; [|done].
    etrans; [exact Hq|]. apply cleanOf_snoc_prefix. }
  case_bool_decide as Hthrottle.
  - destruct (flushPath (setPath (c_path app ++ [p]) app) false now)
      as [app2 out2] eqn:E.
    pose proof (flushPath_keeps (setPath (c_path app ++ [p]) app) now)
      as (Hk1 & Hk2 & Hk3).
    pose proof (drawnPaths_flushPath (setPath (c_path app ++ [p]) app)
                  false now) as Hdp.
    rewrite E in Hk1, Hk2, Hk3, Hdp. simpl in *.
    split; simpl; try (congruence).
    + rewrite !drawnPaths_app, drawnPaths_cursor. simpl.
      intros q [Hq|Hq]%elem_of_app; [by apply Hold|].
      destruct Hdp as [Hdp|[Hdp Hge]]; rewrite Hdp in Hq;
        [by apply elem_of_nil in Hq|].
      apply list_elem_of_singleton in Hq as ->.
      rewrite Hp in Hge |- *. by split.
    + rewrite !drawnPaths_app, drawnPaths_cursor. simpl.
      destruct Hdp as [->|[-> Hge]]; [by rewrite app_nil_r|].
      apply chain_snoc; [done|]. intros q' Hq'. rewrite Hp.
      by apply Hold.
  - split; simpl; try done.
    + by rewrite Hp.
    + rewrite drawnPaths_app, drawnPaths_cursor, app_nil_r. apply Hold.
    + by rewrite drawnPaths_app, drawnPaths_cursor, app_nil_r.
Qed.

Lemma drawing_inv_moves isOpen pts st (ms : list (Point * Z)) :
  drawing_inv isOpen pts st →
  drawing_inv isOpen (pts ++ ms.*1) (foldl pointerStep st (moveTo <$> ms)).
Proof.
  revert pts st. induction ms as [|[p now] ms IH]; intros pts st Hinv.
  - simpl. by rewrite app_nil_r.
  - change (drawing_inv isOpen (pts ++ p :: ms.*1)
              (foldl pointerStep (pointerStep st (PMove p now))
                     (moveTo <$> ms))).
    rewrite (cons_middle p pts (ms.*1)), app_assoc. apply IH.
    by apply drawing_inv_move.
Qed.

(** X26. During one gesture, pointer down at [p0], moves through [ms],
    pointer up, every [draw] the client sends carries a prefix of the
    cleaned path of the whole gesture and at least two points, each such
    path is a prefix of the next one sent, and, when the connection is open
    and the cleaned path has two points or more, the last [draw] carries
    all of it. So a gesture that is flushed on the way reaches the server
    as several operations, each containing the one before. *)
Theorem gesture_sends_growing_prefixes app p0 t0 ms tUp :
  let pts := p0 :: ms.*1 in
  let out := (gesture app p0 t0 ((moveTo <$> ms) ++ [PUp tUp])).2 in
  (∀ q, q ∈ drawnPaths out →
        q `prefix_of` cleanOf pts ∧ (2 ≤ length q)%nat) ∧
  StronglySorted prefix (drawnPaths out) ∧
  (c_open app = true → (2 ≤ length (cleanOf pts))%nat →
   last (drawnPaths out) = Some (cleanOf pts)) ∧
  c_drawing (gesture app p0 t0 ((moveTo <$> ms) ++ [PUp tUp])).1 = false.
Proof.
  intros pts out. subst out. unfold gesture. rewrite foldl_app.
  pose proof (drawing_inv_moves _ _ _ ms (drawing_inv_start app p0 t0))
    as [Hd Ho Hp Hsent Hchain].
  change ([p0] ++ ms.*1) with pts in *.
  destruct (foldl pointerStep (pointerStart app p0 t0, []) (moveTo <$> ms))
    as [app1 out1]. simpl in Hd, Ho, Hp, Hsent, Hchain.
  simpl. unfold pointerStep, pointerEnd. simpl. rewrite Hd. simpl.
  set (appUp := {| c_userId := c_userId app1; c_drawing := false |}).
  assert (Hpath : c_path appUp = pts) by done.
  destruct (flushPath appUp true tUp) as [app2 out2] eqn:E. simpl.
  pose proof (drawnPaths_flushPath appUp true tUp) as Hdp.
  rewrite E, Hpath in Hdp. simpl in Hdp.
  rewrite drawnPaths_app. split_and!.
  - intros q [Hq|Hq]%elem_of_app; [by apply Hsent|].
    destruct Hdp as [Hdp|[Hdp Hge]]; rewrite Hdp in Hq;
      [by apply elem_of_nil in Hq|].
    by apply list_elem_of_singleton in Hq as ->.
  - destruct Hdp as [->|[-> Hge]]; [by rewrite app_nil_r|].
    apply chain_snoc; [done|]. intros q' Hq'. by apply Hsent.
  - intros Hopen Hge.
    pose proof (drawnPaths_flushPath_open appUp true tUp) as Hlast.
    rewrite E, Hpath in Hlast. simpl in Hlast.
    rewrite Hlast; [by rewrite last_snoc| |done].
    subst appUp. simpl. congruence.
  - pose proof (flushPath_cases appUp true tUp) as Hc. rewrite E in Hc.
    destruct Hc as [[_ [= -> _]]|(_ & _ & _ & Hdr & _)]; [done|].
    simpl in Hdr. by rewrite Hdr.
Qed.

Lemma gesture_sends_growing_prefixes_witness :
  let app := newCanvasApp "u1" in
  let p0 := toPoint (0, 0) in
  let ms := [(toPoint (1, 1), 160); (toPoint (2, 2), 220);
             (toPoint (3, 3), 230)] in
  let pts := p0 :: ms.*1 in
  c_open app = true ∧
  (2 ≤ length (cleanOf pts))%nat ∧
  drawnPaths (gesture app p0 100 ((moveTo <$> ms) ++ [PUp 240])).2
  = [toPoint <$> [(0, 0); (1, 1)];
     toPoint <$> [(0, 0); (1, 1); (2, 2)];
     toPoint <$> [(0, 0); (1, 1); (2, 2); (3, 3)]] ∧
  last (drawnPaths (gesture app p0 100 ((moveTo <$> ms) ++ [PUp 240])).2)
  = Some (cleanOf pts).
Proof.
  intros app p0 ms pts.
  assert (H1 : c_open app = true) by done.
  assert (H2 : (2 ≤ length (cleanOf pts))%nat) by (vm_compute; lia).
  refine (conj H1 (conj H2 (conj _ _))); [by vm_compute|].
  exact (proj1 (proj2 (proj2
           (gesture_sends_growing_prefixes app p0 100 ms 240))) H1 H2).
Defined.
